(** * Auto-vectorization analysis core of C2 (opto/vectorization.cpp)

    A shallow embedding of the parts of [vectorization.cpp] that the
    specification speaks about, and the properties proved of them:

    - [JInt]: the C++ [int] of the sources, as [Z] with two's complement
      wrap-around at 32 bits;
    - [Alignment]: [AlignmentSolver::solve];
    - [Preconditions]: [VLoop::check_preconditions];
    - [Pointer]: the address pattern matcher of [VPointer];
    - [DepGraph]: [VLoopDependenceGraph] (build, depth, independence). *)

From Stdlib Require Import ZArith Lia Bool List String.
From stdpp Require Import base list relations.
Import ListNotations.

(** ** The C++ [int] *)

Module JInt.
Local Open Scope Z_scope.

Definition min_jint : Z := -2147483648.
Definition max_jint : Z := 2147483647.

(** A value that an [int] variable can hold. *)
Definition in_range (z : Z) : Prop := min_jint <= z <= max_jint.

(** Reduction of an exact result to the 32 bits of an [int]. *)
Definition wrap (z : Z) : Z := (z + 2147483648) mod 4294967296 - 2147483648.

Definition add (a b : Z) : Z := wrap (a + b).
Definition mul (a b : Z) : Z := wrap (a * b).
Definition neg (a : Z) : Z := wrap (- a).
(** [abs(x)] of <cstdlib>. *)
Definition abs (a : Z) : Z := wrap (Z.abs a).
(** [a / b] of C++ truncates towards zero. A division by zero, which
    stops the C++ program, gives 0 here: the theorems about a quotient carry
    the assumptions under which the divisor is not zero. *)
Definition div (a b : Z) : Z := wrap (Z.quot a b).
(** [a << c]: the shift count is taken modulo the width, as the target
    machines and the JVM's own shift instructions do. *)
Definition shl (a c : Z) : Z := wrap (Z.shiftl a (Z.land c 31)).

(** Modelled from the spec: [is_power_of_2] is declared in
    utilities/powerOfTwo.hpp, which is not among the sources; the spec only
    uses it as "is a power of two", for a positive value. *)
Definition is_power_of_2 (x : Z) : bool :=
  (0 <? x) && (x =? 2 ^ Z.log2 x).

(** *** Facts about ints and powers of two *)

Lemma wrap_id z : in_range z -> wrap z = z.
Proof.
  unfold in_range, min_jint, max_jint, wrap. intros H.
  rewrite Z.mod_small by lia. lia.
Qed.


Lemma is_power_of_2_spec x :
  is_power_of_2 x = true <-> exists k, 0 <= k /\ x = 2 ^ k.
Proof.
  unfold is_power_of_2. rewrite andb_true_iff, Z.ltb_lt, Z.eqb_eq. split.
  - intros [Hx He]. exists (Z.log2 x). split; [apply Z.log2_nonneg | exact He].
  - intros [k [Hk ->]]. split.
    + apply Z.pow_pos_nonneg; lia.
    + now rewrite Z.log2_pow2.
Qed.

Lemma pow2_divide a b : 0 <= a <= b -> 2 ^ b = 2 ^ a * 2 ^ (b - a).
Proof. intros H. rewrite <- Z.pow_add_r by lia. f_equal. lia. Qed.

Lemma pow2_lt_inv a b : 0 <= a -> 0 <= b -> 2 ^ a < 2 ^ b -> a < b.
Proof. intros Ha Hb H. apply Z.pow_lt_mono_r_iff in H; lia. Qed.

End JInt.

(** ** AlignmentSolver::solve *)

Module Alignment.
Local Open Scope Z_scope.
Import JInt.

(** The IR nodes the solver looks at: it only asks a node whether it is an
    int constant ([is_ConI], [as_ConI()->get_int()]) and compares the
    invariant with [nullptr]. *)
Inductive Node : Type :=
| ConI (value : Z)
| Opaque (idx : nat).

Definition is_ConI (n : Node) : bool :=
  match n with ConI _ => true | Opaque _ => false end.

Definition get_int (n : Node) : Z :=
  match n with ConI v => v | Opaque _ => 0 end.

(** The fields of [AlignmentSolver] that [solve] reads. *)
Record AlignmentSolver : Type := mkSolver {
  _mem_ref : Node;
  _aw : Z;
  _offset : Z;
  _invar : option Node;
  _invar_factor : Z;
  _scale : Z;
  _init_node : Node;
  _pre_stride : Z;
  _main_stride : Z
}.

Inductive AlignmentSolution : Type :=
| TrivialAlignmentSolution
| EmptyAlignmentSolution (reason : string)
| ConstrainedAlignmentSolution
    (mem_ref : Node) (q r : Z) (invar : option Node) (scale : Z).

(** Modelled from the spec: [AlignmentSolution::mod] is declared in
    vectorization.hpp, which is not among the sources; the spec says that
    [mod] returns a non-negative result (the remainder for a modulus
    [q >= 1]). For [q = 0], where the C++ remainder stops the program, this
    is [i]: the theorems about [solve] carry the assumptions under which
    every modulus is positive. *)
Definition AlignmentSolution_mod (i q : Z) : Z := i mod q.

Module EQ4.

Inductive State : Type := TRIVIAL | CONSTRAINED | EMPTY.

Definition State_eqb (a b : State) : bool :=
  match a, b with
  | TRIVIAL, TRIVIAL | CONSTRAINED, CONSTRAINED | EMPTY, EMPTY => true
  | _, _ => false
  end.

Record t : Type := mk {
  _C_const : Z;
  _C_invar : Z;
  _C_init : Z;
  _C_pre : Z;
  _aw : Z
}.

(** Modelled from the spec: the class [EQ4] and its three state functions
    are declared in vectorization.hpp, which is not among the sources; the
    table of the spec (and the summary in the comments of [solve]) gives the
    state of one equation for its constant [C]:
    [abs(C_pre) >= aw] and [C % aw == 0] is trivial, [abs(C_pre) >= aw] and
    [C % aw != 0] is empty, [abs(C_pre) < aw] and [C % abs(C_pre) == 0] is
    constrained, [abs(C_pre) < aw] and [C % abs(C_pre) != 0] is empty. *)
Definition state_of (e : t) (C : Z) : State :=
  if abs (_C_pre e) >=? _aw e
  then (if AlignmentSolution_mod C (_aw e) =? 0 then TRIVIAL else EMPTY)
  else (if AlignmentSolution_mod C (abs (_C_pre e)) =? 0 then CONSTRAINED else EMPTY).

Definition eq4a_state (e : t) : State := state_of e (_C_const e).
Definition eq4b_state (e : t) : State := state_of e (_C_invar e).
Definition eq4c_state (e : t) : State := state_of e (_C_init e).

End EQ4.

(** The constants of the reshaped address, as [solve] computes them. *)
Definition C_const_init (s : AlignmentSolver) : Z :=
  if is_ConI (_init_node s) then get_int (_init_node s) else 0.
Definition C_const (s : AlignmentSolver) : Z :=
  add (_offset s) (mul (C_const_init s) (_scale s)).
Definition C_invar (s : AlignmentSolver) : Z :=
  match _invar s with None => 0 | Some _ => abs (_invar_factor s) end.
Definition C_init (s : AlignmentSolver) : Z :=
  if is_ConI (_init_node s) then 0 else _scale s.
Definition C_pre (s : AlignmentSolver) : Z := mul (_scale s) (_pre_stride s).
Definition C_main (s : AlignmentSolver) : Z := mul (_scale s) (_main_stride s).

Definition eq4 (s : AlignmentSolver) : EQ4.t :=
  EQ4.mk (C_const s) (C_invar s) (C_init s) (C_pre s) (_aw s).

Definition solve (s : AlignmentSolver) : AlignmentSolution :=
  (* Out of simplicity: non power-of-2 stride not supported. *)
  if negb (is_power_of_2 (abs (_pre_stride s))) then
    EmptyAlignmentSolution "non power-of-2 stride not supported"
  (* Out of simplicity: non power-of-2 scale not supported. *)
  else if (abs (_scale s) =? 0) || negb (is_power_of_2 (abs (_scale s))) then
    EmptyAlignmentSolution "non power-of-2 scale not supported"
  else
    let C_main_mod_aw := AlignmentSolution_mod (C_main s) (_aw s) in
    if negb (C_main_mod_aw =? 0) then
      EmptyAlignmentSolution
        "EQ(2) not satisfied (cannot align across main-loop iterations)"
    else
      let eq4a_state := EQ4.eq4a_state (eq4 s) in
      let eq4b_state := EQ4.eq4b_state (eq4 s) in
      let eq4c_state := EQ4.eq4c_state (eq4 s) in
      if EQ4.State_eqb eq4a_state EQ4.TRIVIAL &&
         EQ4.State_eqb eq4b_state EQ4.TRIVIAL &&
         EQ4.State_eqb eq4c_state EQ4.TRIVIAL then
        TrivialAlignmentSolution
      else if EQ4.State_eqb eq4a_state EQ4.EMPTY ||
              EQ4.State_eqb eq4b_state EQ4.EMPTY ||
              EQ4.State_eqb eq4c_state EQ4.EMPTY then
        EmptyAlignmentSolution
          "EQ(4a, b, c) not all non-empty: cannot align const, invar and init terms individually"
      else
        let q := div (_aw s) (abs (C_pre s)) in
        let r := AlignmentSolution_mod
                   (div (neg (C_const s)) (mul (_scale s) (_pre_stride s))) q in
        ConstrainedAlignmentSolution (_mem_ref s) q r (_invar s) (_scale s).

Definition is_Empty (sol : AlignmentSolution) : Prop :=
  match sol with EmptyAlignmentSolution _ => True | _ => False end.

(** The ints that [solve] reads are ints. *)
Definition int_fields (s : AlignmentSolver) : Prop :=
  in_range (_aw s) /\ in_range (_offset s) /\ in_range (_invar_factor s) /\
  in_range (_scale s) /\ in_range (get_int (_init_node s)) /\
  in_range (_pre_stride s) /\ in_range (_main_stride s).

(** No signed overflow (undefined in C++) in the constants of [solve]: the
    exact results are ints. *)
Definition no_overflow (s : AlignmentSolver) : Prop :=
  in_range (C_const_init s * _scale s) /\
  in_range (_offset s + C_const_init s * _scale s) /\
  in_range (- (_offset s + C_const_init s * _scale s)) /\
  in_range (Z.abs (_invar_factor s)) /\
  in_range (Z.abs (_scale s * _pre_stride s)) /\
  in_range (_scale s * _main_stride s).

(** The preconditions that [solve] asserts. *)
Definition asserted (s : AlignmentSolver) : Prop :=
  is_power_of_2 (abs (_main_stride s)) = true /\
  0 < _aw s /\ is_power_of_2 (_aw s) = true.

(** The address of the memory reference, with the induction variable
    expanded: [base + offset + invar + scale * iv] for
    [iv = init + pre_stride * pre_iter + main_stride * main_iter], in exact
    arithmetic. [invar] and [init] are the runtime values of the invariant
    (0 when there is none) and of the initial value of [iv]. *)
Definition iv_at (s : AlignmentSolver) (init pre_iter main_iter : Z) : Z :=
  init + _pre_stride s * pre_iter + _main_stride s * main_iter.
Definition adr (s : AlignmentSolver) (base invar init pre_iter main_iter : Z) : Z :=
  base + _offset s + invar + _scale s * iv_at s init pre_iter main_iter.

(** The runtime values: a constant init has its constant value, an absent
    invariant contributes nothing. *)
Definition init_value (s : AlignmentSolver) (var_init : Z) : Z :=
  if is_ConI (_init_node s) then get_int (_init_node s) else var_init.
Definition invar_value (s : AlignmentSolver) (var : Z) : Z :=
  match _invar s with None => 0 | Some _ => var end.

(** The pre-loop iteration counts that a constrained solution [q], [r]
    admits (equation (14) of [solve]): the invar term is left out when there
    is no invariant, the init term when init is a constant. *)
Definition pre_iter_of (s : AlignmentSolver) (q r m invar init : Z) : Z :=
  m * q + r
  - (match _invar s with
     | None => 0
     | Some _ => invar / (_scale s * _pre_stride s)
     end)
  - (if is_ConI (_init_node s) then 0 else init / _pre_stride s).


(** All of (4a, b, c) have the trivial solution. *)
Definition all_trivial (s : AlignmentSolver) : Prop :=
  EQ4.eq4a_state (eq4 s) = EQ4.TRIVIAL /\
  EQ4.eq4b_state (eq4 s) = EQ4.TRIVIAL /\
  EQ4.eq4c_state (eq4 s) = EQ4.TRIVIAL.


(** *** Proofs *)

Lemma abs_exact x : in_range (Z.abs x) -> abs x = Z.abs x.
Proof. intros H. unfold abs. now apply wrap_id. Qed.

Lemma in_range_abs_pow2 x :
  in_range x -> is_power_of_2 (abs x) = true -> abs x = Z.abs x.
Proof.
  intros Hx Hp. apply abs_exact.
  unfold in_range, min_jint, max_jint in *.
  destruct (Z.eq_dec x (-2147483648)) as [->|Hne]; [|lia].
  vm_compute in Hp. discriminate.
Qed.

Lemma state_of_cases e C :
  (abs (EQ4._C_pre e) >= EQ4._aw e /\
     ((AlignmentSolution_mod C (EQ4._aw e) = 0 /\ EQ4.state_of e C = EQ4.TRIVIAL) \/
      (AlignmentSolution_mod C (EQ4._aw e) <> 0 /\ EQ4.state_of e C = EQ4.EMPTY))) \/
  (abs (EQ4._C_pre e) < EQ4._aw e /\
     ((AlignmentSolution_mod C (abs (EQ4._C_pre e)) = 0 /\ EQ4.state_of e C = EQ4.CONSTRAINED) \/
      (AlignmentSolution_mod C (abs (EQ4._C_pre e)) <> 0 /\ EQ4.state_of e C = EQ4.EMPTY))).
Proof.
  unfold EQ4.state_of.
  destruct (Z.geb_spec (abs (EQ4._C_pre e)) (EQ4._aw e)) as [Hge|Hlt].
  - left. split; [lia|].
    destruct (Z.eqb_spec (AlignmentSolution_mod C (EQ4._aw e)) 0); [left|right]; auto.
  - right. split; [lia|].
    destruct (Z.eqb_spec (AlignmentSolution_mod C (abs (EQ4._C_pre e))) 0); [left|right]; auto.
Qed.

Lemma solve_constrained_inv s mr q r inv sc :
  solve s = ConstrainedAlignmentSolution mr q r inv sc ->
  is_power_of_2 (abs (_pre_stride s)) = true /\
  is_power_of_2 (abs (_scale s)) = true /\
  AlignmentSolution_mod (C_main s) (_aw s) = 0 /\
  abs (C_pre s) < _aw s /\
  AlignmentSolution_mod (C_const s) (abs (C_pre s)) = 0 /\
  AlignmentSolution_mod (C_invar s) (abs (C_pre s)) = 0 /\
  AlignmentSolution_mod (C_init s) (abs (C_pre s)) = 0 /\
  mr = _mem_ref s /\
  q = div (_aw s) (abs (C_pre s)) /\
  r = AlignmentSolution_mod (div (neg (C_const s)) (mul (_scale s) (_pre_stride s))) q /\
  inv = _invar s /\ sc = _scale s.
Proof.
  unfold solve.
  destruct (is_power_of_2 (abs (_pre_stride s))); simpl; [|discriminate].
  destruct (abs (_scale s) =? 0); simpl; [discriminate|].
  destruct (is_power_of_2 (abs (_scale s))); simpl; [|discriminate].
  destruct (Z.eqb_spec (AlignmentSolution_mod (C_main s) (_aw s)) 0) as [Hm|Hm];
    simpl; [|discriminate].
  unfold EQ4.eq4a_state, EQ4.eq4b_state, EQ4.eq4c_state.
  destruct (state_of_cases (eq4 s) (EQ4._C_const (eq4 s))) as [[Hc [[Ha ->]|[Ha ->]]]|[Hc [[Ha ->]|[Ha ->]]]];
  destruct (state_of_cases (eq4 s) (EQ4._C_invar (eq4 s))) as [[Hc' [[Hb ->]|[Hb ->]]]|[Hc' [[Hb ->]|[Hb ->]]]];
  destruct (state_of_cases (eq4 s) (EQ4._C_init (eq4 s))) as [[Hc'' [[Hd ->]|[Hd ->]]]|[Hc'' [[Hd ->]|[Hd ->]]]];
  simpl; try discriminate; try (exfalso; simpl in *; lia).
  intros H. injection H as <- <- <- <- <-. simpl in *. repeat split; auto.
Qed.

(** Exact division by a divisor. *)
Lemma quot_exact a d : d <> 0 -> a mod Z.abs d = 0 -> d * (Z.quot a d) = a.
Proof.
  intros Hd Hm.
  assert (Hdiv : (d | a)).
  { apply Z.divide_abs_l. apply Z.mod_divide; [lia|exact Hm]. }
  destruct Hdiv as [k ->]. rewrite Z.quot_mul by exact Hd. ring.
Qed.

Lemma div_exact' a d : d <> 0 -> (d | a) -> d * (a / d) = a.
Proof.
  intros Hd [k ->]. rewrite Z.div_mul by exact Hd. ring.
Qed.



Lemma quot_in_range a d : d <> 0 -> in_range a -> in_range (- a) -> in_range (Z.quot a d).
Proof.
  intros Hd Ha Hna.
  assert (Z.abs (Z.quot a d) <= Z.abs a).
  { rewrite <- Z.quot_abs by exact Hd.
    destruct (Z.eq_dec (Z.abs d) 1) as [->|Hn].
    - rewrite Z.quot_1_r. lia.
    - assert (Z.abs a ÷ Z.abs d <= Z.abs a); [|lia].
      destruct (Z.eq_dec (Z.abs a) 0) as [->|Ha0]; [rewrite Z.quot_0_l; lia|].
      apply Z.lt_le_incl, Z.quot_lt; lia. }
  unfold in_range, min_jint, max_jint in *. lia.
Qed.

(** The arithmetic of the constrained solution. *)
Lemma align_core aw D q Cc base m r :
  0 < aw -> D <> 0 -> 0 < q -> Z.abs D * q = aw ->
  Cc mod Z.abs D = 0 ->
  r = (Z.quot (- Cc) D) mod q ->
  base mod aw = 0 ->
  (base + Cc + D * (m * q + r)) mod aw = 0.
Proof.
  intros Haw HD Hq HDq HCc -> Hb.
  assert (Hk : D * Z.quot (- Cc) D = - Cc).
  { apply quot_exact; [exact HD|].
    apply Z.mod_divide; [lia|]. apply Z.divide_opp_r.
    apply Z.mod_divide; [lia|exact HCc]. }
  set (k := Z.quot (- Cc) D) in *.
  apply Z.mod_divide in Hb; [|lia]. destruct Hb as [b ->].
  apply Z.mod_divide; [lia|].
  pose proof (Z.div_mod k q ltac:(lia)) as Hkq.
  assert (Hr : k mod q = k - q * (k / q)) by lia. rewrite Hr.
  destruct (Z.abs_spec D) as [[_ HA]|[_ HA]]; rewrite HA in HDq.
  - exists (b + (m - k / q)). nia.
  - exists (b - (m - k / q)). nia.
Qed.

Lemma exact_constants s :
  no_overflow s ->
  C_const s = _offset s + C_const_init s * _scale s /\
  neg (C_const s) = - (_offset s + C_const_init s * _scale s) /\
  C_invar s = match _invar s with None => 0 | Some _ => Z.abs (_invar_factor s) end /\
  C_pre s = _scale s * _pre_stride s /\
  C_main s = _scale s * _main_stride s.
Proof.
  intros (H1 & H2 & H3 & H4 & H5 & H6).
  assert (Hc : C_const s = _offset s + C_const_init s * _scale s).
  { unfold C_const, add, mul. rewrite (wrap_id _ H1). now apply wrap_id. }
  repeat split.
  - exact Hc.
  - unfold neg. rewrite Hc. now apply wrap_id.
  - unfold C_invar. destruct (_invar s); [|reflexivity]. now apply abs_exact.
  - unfold C_pre, mul. apply wrap_id.
    unfold in_range, min_jint, max_jint in *. lia.
  - unfold C_main, mul. now apply wrap_id.
Qed.

(** What the checks of [solve] give, in exact arithmetic, when the result is
    not decided by the first two checks. *)
Lemma strides_pow2 s :
  int_fields s -> no_overflow s ->
  is_power_of_2 (abs (_pre_stride s)) = true ->
  is_power_of_2 (abs (_scale s)) = true ->
  exists a b, 0 <= a /\ 0 <= b /\
    Z.abs (_pre_stride s) = 2 ^ a /\ Z.abs (_scale s) = 2 ^ b /\
    abs (C_pre s) = 2 ^ (a + b) /\ Z.abs (C_pre s) = 2 ^ (a + b).
Proof.
  intros (_ & _ & _ & Hsc & _ & Hps & _) Hno Hp Hs.
  destruct (exact_constants s Hno) as (_ & _ & _ & Hpre & _).
  pose proof (in_range_abs_pow2 _ Hps Hp) as Ea.
  pose proof (in_range_abs_pow2 _ Hsc Hs) as Eb.
  rewrite Ea in Hp. rewrite Eb in Hs.
  apply is_power_of_2_spec in Hp. destruct Hp as (a & Ha & Hpa).
  apply is_power_of_2_spec in Hs. destruct Hs as (b & Hb & Hsb).
  exists a, b. repeat split; auto.
  - assert (E : Z.abs (C_pre s) = 2 ^ (a + b)).
    { rewrite Hpre, Z.abs_mul, Hpa, Hsb, Z.pow_add_r by lia. ring. }
    rewrite abs_exact; [exact E|].
    destruct Hno as (_ & _ & _ & _ & H5 & _). now rewrite Hpre.
  - rewrite Hpre, Z.abs_mul, Hpa, Hsb, Z.pow_add_r by lia. ring.
Qed.

Lemma constrained_q s c :
  int_fields s -> asserted s -> 0 <= c ->
  abs (C_pre s) = 2 ^ c -> abs (C_pre s) < _aw s ->
  let q := div (_aw s) (abs (C_pre s)) in
  q = _aw s / 2 ^ c /\ 2 ^ c * q = _aw s /\ 2 <= q /\ is_power_of_2 q = true.
Proof.
  intros (Haw & _) (_ & Hpos & Hp) Hc E Hlt q. subst q. rewrite E in *.
  apply is_power_of_2_spec in Hp. destruct Hp as (w & Hw & Ew).
  rewrite Ew in *.
  assert (Hcw : c < w) by (apply pow2_lt_inv; lia).
  assert (Hq : 2 ^ w / 2 ^ c = 2 ^ (w - c)).
  { rewrite (pow2_divide c w) by lia. rewrite Z.mul_comm, Z.div_mul; [reflexivity|].
    apply Z.pow_nonzero; lia. }
  assert (Hp0 : 0 < 2 ^ c) by (apply Z.pow_pos_nonneg; lia).
  assert (Hq2 : 2 <= 2 ^ (w - c)).
  { change 2 with (2 ^ 1) at 1. apply Z.pow_le_mono_r; lia. }
  assert (Hmul : 2 ^ c * 2 ^ (w - c) = 2 ^ w).
  { rewrite <- Z.pow_add_r by lia. f_equal. lia. }
  assert (Hd : div (2 ^ w) (2 ^ c) = 2 ^ (w - c)).
  { unfold div. rewrite Z.quot_div_nonneg by lia. rewrite Hq.
    apply wrap_id. unfold in_range, min_jint, max_jint in *. nia. }
  rewrite Hd, Hq. repeat split; auto.
  apply is_power_of_2_spec. exists (w - c). split; [lia|reflexivity].
Qed.

(** C1 (alignment soundness). When [solve] returns the constrained solution
    [q], [r], then for every integer [m] and all runtime values of the
    invariant and of a variable init, the pre-loop count
    [m * q + r - invar / (scale * pre_stride) - init / pre_stride] (the invar
    term only with an invariant, the init term only with a variable init)
    makes the address [base + offset + invar + scale * iv] at main-loop
    iteration 0 a multiple of [aw]. Assumed: [base % aw = 0], the
    preconditions that [solve] asserts, exact integer arithmetic (ints in
    range, no overflow), and that the runtime value of the invariant is a
    multiple of its [invar_factor], the factor that [VPointer::invar_factor]
    detected in it. *)
Theorem solve_sound s mr q r inv sc base m invar init :
  int_fields s -> no_overflow s -> asserted s ->
  solve s = ConstrainedAlignmentSolution mr q r inv sc ->
  base mod _aw s = 0 ->
  (_invar_factor s | invar_value s invar) ->
  adr s base (invar_value s invar) (init_value s init)
      (pre_iter_of s q r m invar init) 0 mod _aw s = 0.
Proof.
  intros Hint Hno Has Hsol Hbase Hfac.
  destruct (solve_constrained_inv _ _ _ _ _ _ Hsol)
    as (Hps & Hsc & _ & Hlt & H5a & H5b & H5c & _ & Hq & Hr & _ & _).
  destruct (exact_constants s Hno) as (Ec & En & Ei & Epre & _).
  destruct (strides_pow2 s Hint Hno Hps Hsc) as (a & b & Ha & Hb & Epa & Esb & EP & EP').
  destruct (constrained_q s (a + b) Hint Has ltac:(lia) EP Hlt) as (Eq & Emul & Hq2 & _).
  fold (C_pre s) in Hr. rewrite <- Hq in Eq, Emul, Hq2.
  unfold AlignmentSolution_mod in *. rewrite EP in H5a, H5b, H5c.
  assert (Hp0 : 0 < 2 ^ (a + b)) by (apply Z.pow_pos_nonneg; lia).
  assert (HD : C_pre s <> 0) by lia.
  assert (Hr' : r = Z.quot (- C_const s) (C_pre s) mod q).
  { rewrite Hr. f_equal. unfold div. rewrite En, <- Ec. apply wrap_id.
    destruct Hno as (_ & Hn2 & Hn3 & _). rewrite <- Ec in Hn2, Hn3.
    apply quot_in_range; [exact HD|exact Hn3|].
    now rewrite Z.opp_involutive. }
  pose proof (align_core (_aw s) (C_pre s) q (C_const s) base m r
                ltac:(destruct Has as (_ & ? & _); lia) HD ltac:(lia)
                ltac:(rewrite EP'; exact Emul) ltac:(rewrite EP'; exact H5a) Hr' Hbase) as Hcore.
  match goal with |- ?x mod _ = 0 =>
    replace x with (base + C_const s + C_pre s * (m * q + r)); [exact Hcore|] end.
  unfold adr, iv_at, pre_iter_of, invar_value, init_value in *.
  rewrite Ec, Epre. unfold C_const_init, C_init, C_invar in *.
  (* the invariant term *)
  assert (Hinv : match _invar s with
                 | None => 0
                 | Some _ => (_scale s * _pre_stride s) * (invar / (_scale s * _pre_stride s))
                 end = match _invar s with None => 0 | Some _ => invar end).
  { destruct (_invar s); [|reflexivity].
    apply div_exact'; [lia|].
    rewrite <- Epre. apply Z.divide_abs_l. rewrite EP'.
    apply Z.divide_trans with (Z.abs (_invar_factor s)).
    - apply Z.mod_divide; [lia|]. now rewrite <- Ei.
    - now apply Z.divide_abs_l. }
  (* the init term *)
  assert (Hini : (if is_ConI (_init_node s) then 0
                  else _scale s * (_pre_stride s * (init / _pre_stride s)))
                 = if is_ConI (_init_node s) then 0 else _scale s * init).
  { destruct (is_ConI (_init_node s)); [reflexivity|].
    f_equal. apply div_exact'; [lia|].
    (* abs(C_pre) divides scale, so the pre-loop stride is 1 or -1 *)
    assert (a = 0).
    { apply Z.mod_divide in H5c; [|lia].
      apply Z.divide_abs_r in H5c. rewrite Esb in H5c.
      apply Z.divide_pos_le in H5c; [|apply Z.pow_pos_nonneg; lia].
      apply Z.pow_le_mono_r_iff in H5c; lia. }
    subst a. apply Z.divide_abs_l. rewrite Epa. apply Z.divide_1_l. }
  destruct (_invar s), (is_ConI (_init_node s)); nia.
Qed.


Lemma State_eqb_eq a b : EQ4.State_eqb a b = true <-> a = b.
Proof. destruct a, b; simpl; split; intros; congruence. Qed.


Lemma solve_cases s :
  is_Empty (solve s) \/
  (all_trivial s /\ solve s = TrivialAlignmentSolution) \/
  (~ all_trivial s /\
   solve s = ConstrainedAlignmentSolution (_mem_ref s)
     (div (_aw s) (abs (C_pre s)))
     (AlignmentSolution_mod
        (div (neg (C_const s)) (mul (_scale s) (_pre_stride s)))
        (div (_aw s) (abs (C_pre s))))
     (_invar s) (_scale s)).
Proof.
  unfold solve, all_trivial.
  destruct (is_power_of_2 (abs (_pre_stride s))); simpl; [|tauto].
  destruct (abs (_scale s) =? 0); simpl; [tauto|].
  destruct (is_power_of_2 (abs (_scale s))); simpl; [|tauto].
  destruct (AlignmentSolution_mod (C_main s) (_aw s) =? 0); simpl; [|tauto].
  destruct (EQ4.eq4a_state (eq4 s)), (EQ4.eq4b_state (eq4 s)), (EQ4.eq4c_state (eq4 s));
    simpl; intuition congruence.
Qed.

(** The result of [solve] when it is not empty, by the states of (4a, b,
    c) as [solve] computes them: trivial when all three are trivial, and
    otherwise constrained with an exact [q] and [r]. *)
Lemma solve_not_empty_states s :
  int_fields s -> no_overflow s -> asserted s ->
  ~ is_Empty (solve s) ->
  (solve s = TrivialAlignmentSolution <-> all_trivial s) /\
  (~ all_trivial s ->
   exists q r,
     solve s = ConstrainedAlignmentSolution (_mem_ref s) q r (_invar s) (_scale s) /\
     q = _aw s / Z.abs (C_pre s) /\ Z.abs (C_pre s) * q = _aw s /\
     2 <= q /\ is_power_of_2 q = true /\
     r = (- C_const s / (_scale s * _pre_stride s)) mod q /\
     (_scale s * _pre_stride s) * (- C_const s / (_scale s * _pre_stride s)) = - C_const s /\
     0 <= r < q /\
     EQ4.eq4a_state (eq4 s) = EQ4.CONSTRAINED /\
     EQ4.eq4b_state (eq4 s) = EQ4.CONSTRAINED /\
     EQ4.eq4c_state (eq4 s) = EQ4.CONSTRAINED) /\
  C_const s = _offset s +
              (if is_ConI (_init_node s) then get_int (_init_node s) * _scale s else 0) /\
  C_invar s = (match _invar s with None => 0 | Some _ => Z.abs (_invar_factor s) end) /\
  C_init s = (if is_ConI (_init_node s) then 0 else _scale s) /\
  C_pre s = _scale s * _pre_stride s.
Proof.
  intros Hint Hno Has Hne.
  destruct (exact_constants s Hno) as (Ec & En & Ei & Epre & _).
  split; [|split; [|repeat split; auto]].
  - destruct (solve_cases s) as [H|[[Ht E]|[Hnt E]]]; [contradiction| |];
      rewrite E; split; intros H; auto; try discriminate; contradiction.
  - intros Hnt.
    destruct (solve_cases s) as [H|[[Ht E]|[_ E]]]; [contradiction|contradiction|].
    destruct (solve_constrained_inv _ _ _ _ _ _ E)
      as (Hps & Hsc & _ & Hlt & H5a & H5b & H5c & _).
    destruct (strides_pow2 s Hint Hno Hps Hsc)
      as (a & b & Ha & Hb & Epa & Esb & EP & EP').
    destruct (constrained_q s (a + b) Hint Has ltac:(lia) EP Hlt) as (Eq & Emul & Hq2 & Hqp).
    assert (Hp0 : 0 < 2 ^ (a + b)) by (apply Z.pow_pos_nonneg; lia).
    assert (HD : C_pre s <> 0) by lia.
    unfold AlignmentSolution_mod in *.
    assert (Hk : C_pre s * Z.quot (- C_const s) (C_pre s) = - C_const s).
    { apply quot_exact; [exact HD|].
      apply Z.mod_divide; [lia|]. apply Z.divide_opp_r.
      apply Z.mod_divide; [lia|]. now rewrite EP' , <- EP. }
    assert (Hdq : - C_const s / C_pre s = Z.quot (- C_const s) (C_pre s)).
    { rewrite <- Hk at 1. rewrite Z.mul_comm, Z.div_mul by exact HD. reflexivity. }
    assert (Hdiv : div (neg (C_const s)) (mul (_scale s) (_pre_stride s))
                   = - C_const s / C_pre s).
    { rewrite Hdq. fold (C_pre s). unfold div. rewrite En, <- Ec. apply wrap_id.
      destruct Hno as (_ & Hn2 & Hn3 & _). rewrite <- Ec in Hn2, Hn3.
      apply quot_in_range; [exact HD|exact Hn3|]. now rewrite Z.opp_involutive. }
    eexists _, _. split; [exact E|].
    rewrite Hdiv. rewrite <- Epre, EP', Hdq, Hk.
    repeat split; auto; try lia.
    + apply Z.mod_pos_bound; lia.
    + apply Z.mod_pos_bound; lia.
    + destruct (state_of_cases (eq4 s) (C_const s)) as [[Hc _]|[_ [[_ E']|[N _]]]];
        simpl in *; [lia|exact E'|contradiction].
    + destruct (state_of_cases (eq4 s) (C_invar s)) as [[Hc _]|[_ [[_ E']|[N _]]]];
        simpl in *; [lia|exact E'|contradiction].
    + destruct (state_of_cases (eq4 s) (C_init s)) as [[Hc _]|[_ [[_ E']|[N _]]]];
        simpl in *; [lia|exact E'|contradiction].
  - rewrite Ec. unfold C_const_init. destruct (is_ConI (_init_node s)); lia.
Qed.

(** *** The solver at work *)

(** An int array access [a[invar + i]] with a 16 byte header, vectors of 32
    bytes: scale 4, pre-loop stride 1, main-loop stride 8, init variable,
    invariant [x << 2]. *)
Definition solver_S1 : AlignmentSolver :=
  mkSolver (Opaque 1) 32 16 (Some (Opaque 2)) 4 4 (Opaque 3) 1 8.

Ltac in_ranges :=
  unfold int_fields, no_overflow, asserted, in_range, min_jint, max_jint;
  simpl; repeat split; try lia; try (vm_compute; reflexivity); try (vm_compute; discriminate).

Example solve_S1 :
  solve solver_S1 =
  ConstrainedAlignmentSolution (Opaque 1) 8 4 (Some (Opaque 2)) 4.
Proof. reflexivity. Qed.

(** Scenario S1 of the spec: constant init 0, no invariant, a header that is
    a multiple of the vector width. *)
Example solve_S1_aligned_header :
  solve (mkSolver (Opaque 1) 32 32 None 0 4 (ConI 0) 1 8) =
  ConstrainedAlignmentSolution (Opaque 1) 8 0 None 4.
Proof. reflexivity. Qed.

(** Scenario S3 of the spec: a stride of 3. *)
Example solve_S3 :
  solve (mkSolver (Opaque 1) 32 16 None 0 4 (ConI 0) 3 24) =
  EmptyAlignmentSolution "non power-of-2 stride not supported".
Proof. reflexivity. Qed.

Lemma solve_sound_witness :
  adr solver_S1 64 (invar_value solver_S1 8) (init_value solver_S1 3)
      (pre_iter_of solver_S1 8 4 1 8 3) 0 mod _aw solver_S1 = 0.
Proof.
  apply (solve_sound solver_S1 (Opaque 1) 8 4 (Some (Opaque 2)) 4 64 1 8 3).
  - in_ranges.
  - in_ranges.
  - in_ranges.
  - reflexivity.
  - reflexivity.
  - exists 2. reflexivity.
Defined.


(** *** Further properties of the solver *)

(** What the checks of [solve] have established when it returns the trivial
    solution. *)
Lemma solve_trivial_inv s :
  solve s = TrivialAlignmentSolution ->
  is_power_of_2 (abs (_pre_stride s)) = true /\
  is_power_of_2 (abs (_scale s)) = true /\
  AlignmentSolution_mod (C_main s) (_aw s) = 0 /\
  abs (C_pre s) >= _aw s /\
  AlignmentSolution_mod (C_const s) (_aw s) = 0 /\
  AlignmentSolution_mod (C_invar s) (_aw s) = 0 /\
  AlignmentSolution_mod (C_init s) (_aw s) = 0.
Proof.
  unfold solve.
  destruct (is_power_of_2 (abs (_pre_stride s))); simpl; [|discriminate].
  destruct (abs (_scale s) =? 0); simpl; [discriminate|].
  destruct (is_power_of_2 (abs (_scale s))); simpl; [|discriminate].
  destruct (Z.eqb_spec (AlignmentSolution_mod (C_main s) (_aw s)) 0) as [Hm|Hm];
    simpl; [|discriminate].
  unfold EQ4.eq4a_state, EQ4.eq4b_state, EQ4.eq4c_state.
  destruct (state_of_cases (eq4 s) (EQ4._C_const (eq4 s))) as [[Hc [[Ha ->]|[Ha ->]]]|[Hc [[Ha ->]|[Ha ->]]]];
  destruct (state_of_cases (eq4 s) (EQ4._C_invar (eq4 s))) as [[Hc' [[Hb ->]|[Hb ->]]]|[Hc' [[Hb ->]|[Hb ->]]]];
  destruct (state_of_cases (eq4 s) (EQ4._C_init (eq4 s))) as [[Hc'' [[Hd ->]|[Hd ->]]]|[Hc'' [[Hd ->]|[Hd ->]]]];
  simpl; try discriminate; try (exfalso; simpl in *; lia).
  intros _. simpl in *. repeat split; auto.
Qed.

(** The address with the constants of [solve], in exact arithmetic. *)
Lemma adr_constants s base invar init pre_iter main_iter :
  no_overflow s ->
  adr s base (invar_value s invar) (init_value s init) pre_iter main_iter =
  base + C_const s + invar_value s invar + C_init s * init
  + C_pre s * pre_iter + C_main s * main_iter.
Proof.
  intros Hno.
  destruct (exact_constants s Hno) as (Ec & _ & _ & Epre & Emain).
  rewrite Ec, Epre, Emain.
  unfold adr, iv_at, init_value, C_const_init, C_init.
  destruct (is_ConI (_init_node s)); ring.
Qed.

(** A power of two divides every power of two that is not smaller. *)
Lemma pow2_divide_le a b : 0 <= a -> 0 <= b -> 2 ^ a <= 2 ^ b -> (2 ^ a | 2 ^ b).
Proof.
  intros Ha Hb Hle.
  assert (a <= b) by (apply Z.pow_le_mono_r_iff in Hle; lia).
  exists (2 ^ (b - a)). rewrite <- Z.pow_add_r by lia. f_equal. lia.
Qed.

(** X1. When [solve] returns the trivial solution, the address is aligned
    for every pre-loop count and every main-loop iteration. *)
Theorem solve_trivial_sound s base invar init pre_iter main_iter :
  int_fields s -> no_overflow s -> asserted s ->
  solve s = TrivialAlignmentSolution ->
  base mod _aw s = 0 ->
  (_invar_factor s | invar_value s invar) ->
  adr s base (invar_value s invar) (init_value s init) pre_iter main_iter
    mod _aw s = 0.
Proof.
  intros Hint Hno Has Hsol Hbase Hfac.
  destruct (solve_trivial_inv _ Hsol) as (Hps & Hsc & Hmain & Hge & Ha & Hb & Hc).
  destruct (exact_constants s Hno) as (_ & _ & Ei & _ & _).
  destruct (strides_pow2 s Hint Hno Hps Hsc) as (a & b & Ha0 & Hb0 & _ & _ & EP & EP').
  destruct Has as (_ & Hpos & Hp).
  pose proof Hp as Hp'. apply is_power_of_2_spec in Hp'. destruct Hp' as (w & Hw & Ew).
  unfold AlignmentSolution_mod in *.
  assert (Haw : _aw s <> 0) by lia.
  apply Z.mod_divide in Hbase, Hmain, Ha, Hb, Hc; try exact Haw.
  assert (Hpre : (_aw s | C_pre s)).
  { apply Z.divide_abs_r. rewrite EP', Ew. apply pow2_divide_le; lia. }
  assert (Hinv : (_aw s | invar_value s invar)).
  { unfold invar_value in *. rewrite Ei in Hb.
    destruct (_invar s); [|apply Z.divide_0_r].
    apply Z.divide_trans with (Z.abs (_invar_factor s)); [exact Hb|].
    now apply Z.divide_abs_l. }
  rewrite adr_constants by exact Hno.
  apply Z.mod_divide; [exact Haw|].
  do 5 (apply Z.divide_add_r; [|solve [auto using Z.divide_mul_l]]).
  exact Hbase.
Qed.

(** The pre-loop counts of a constrained solution are the counts congruent
    to one of them modulo [q]. *)
Lemma pre_iter_of_iff s q r invar init pre_iter :
  q <> 0 ->
  (exists m, pre_iter = pre_iter_of s q r m invar init) <->
  (q | pre_iter - pre_iter_of s q r 0 invar init).
Proof.
  intros Hq. unfold pre_iter_of. split.
  - intros [m ->]. exists m. ring.
  - intros [m Hm]. exists m. lia.
Qed.

(** X2. The constrained solution is exact, at every main-loop iteration:
    the address is aligned if and only if the pre-loop count is one of
    [m * q + r - invar / (scale * pre_stride) - init / pre_stride]. *)
Theorem solve_constrained_exact s mr q r inv sc base invar init pre_iter main_iter :
  int_fields s -> no_overflow s -> asserted s ->
  solve s = ConstrainedAlignmentSolution mr q r inv sc ->
  base mod _aw s = 0 ->
  (_invar_factor s | invar_value s invar) ->
  (adr s base (invar_value s invar) (init_value s init) pre_iter main_iter
     mod _aw s = 0
   <-> exists m, pre_iter = pre_iter_of s q r m invar init).
Proof.
  intros Hint Hno Has Hsol Hbase Hfac.
  destruct (solve_constrained_inv _ _ _ _ _ _ Hsol)
    as (Hps & Hsc & Hmain & Hlt & H5a & H5b & H5c & _ & Hq & Hr & _ & _).
  destruct (exact_constants s Hno) as (Ec & En & Ei & Epre & _).
  destruct (strides_pow2 s Hint Hno Hps Hsc) as (a & b & Ha & Hb & Epa & Esb & EP & EP').
  destruct (constrained_q s (a + b) Hint Has ltac:(lia) EP Hlt) as (Eq & Emul & Hq2 & _).
  fold (C_pre s) in Hr. rewrite <- Hq in Eq, Emul, Hq2.
  unfold AlignmentSolution_mod in *. rewrite EP in H5a, H5b, H5c.
  assert (Hp0 : 0 < 2 ^ (a + b)) by (apply Z.pow_pos_nonneg; lia).
  assert (HD : C_pre s <> 0) by lia.
  assert (Haw : _aw s <> 0) by (destruct Has as (_ & ? & _); lia).
  set (k := Z.quot (- C_const s) (C_pre s)).
  assert (Hr' : r = k mod q).
  { rewrite Hr. f_equal. unfold div. rewrite En, <- Ec. apply wrap_id.
    destruct Hno as (_ & Hn2 & Hn3 & _). rewrite <- Ec in Hn2, Hn3.
    apply quot_in_range; [exact HD|exact Hn3|].
    now rewrite Z.opp_involutive. }
  assert (Hk : C_pre s * k = - C_const s).
  { apply quot_exact; [exact HD|]. rewrite EP'.
    apply Z.mod_divide; [lia|]. apply Z.divide_opp_r.
    apply Z.mod_divide; [lia|exact H5a]. }
  (* the invariant term *)
  assert (Hinv : invar_value s invar =
                 C_pre s * match _invar s with
                           | None => 0
                           | Some _ => invar / (_scale s * _pre_stride s)
                           end).
  { unfold invar_value in *. destruct (_invar s); [|ring].
    rewrite <- Epre. symmetry. apply div_exact'; [exact HD|].
    apply Z.divide_abs_l. rewrite EP'.
    apply Z.divide_trans with (Z.abs (_invar_factor s)).
    - apply Z.mod_divide; [lia|]. now rewrite <- Ei.
    - now apply Z.divide_abs_l. }
  (* the init term *)
  assert (Hini : C_init s * init =
                 C_pre s * (if is_ConI (_init_node s) then 0 else init / _pre_stride s)).
  { unfold C_init in *. destruct (is_ConI (_init_node s)); [ring|].
    rewrite Epre, <- Z.mul_assoc. f_equal. symmetry. apply div_exact'; [lia|].
    assert (a = 0).
    { apply Z.mod_divide in H5c; [|lia].
      apply Z.divide_abs_r in H5c. rewrite Esb in H5c.
      apply Z.divide_pos_le in H5c; [|apply Z.pow_pos_nonneg; lia].
      apply Z.pow_le_mono_r_iff in H5c; lia. }
    subst a. apply Z.divide_abs_l. rewrite Epa. apply Z.divide_1_l. }
  apply Z.mod_divide in Hbase, Hmain; try exact Haw.
  rewrite pre_iter_of_iff by lia.
  rewrite adr_constants by exact Hno.
  rewrite Hinv, Hini.
  set (I := match _invar s with None => 0 | Some _ => invar / (_scale s * _pre_stride s) end).
  set (J := if is_ConI (_init_node s) then 0 else init / _pre_stride s).
  assert (Eform : base + C_const s + C_pre s * I + C_pre s * J + C_pre s * pre_iter
                  + C_main s * main_iter
                  = C_pre s * (pre_iter + I + J - k) + (base + C_main s * main_iter)) by lia.
  rewrite Eform.
  assert (Hrest : (_aw s | base + C_main s * main_iter)).
  { apply Z.divide_add_r; auto using Z.divide_mul_l. }
  assert (Hpi : pre_iter - pre_iter_of s q r 0 invar init = pre_iter + I + J - k + q * (k / q)).
  { unfold pre_iter_of. fold I J. rewrite Hr'.
    pose proof (Z.div_mod k q ltac:(lia)). lia. }
  rewrite Hpi. rewrite Z.mod_divide by exact Haw.
  set (x := pre_iter + I + J - k).
  split.
  - intros H.
    assert (H1 : (_aw s | C_pre s * x)).
    { replace (C_pre s * x) with (C_pre s * x + (base + C_main s * main_iter)
                                  - (base + C_main s * main_iter)) by ring.
      now apply Z.divide_sub_r. }
    apply Z.divide_add_r; [|apply Z.divide_factor_l].
    apply Z.divide_abs_r in H1. rewrite Z.abs_mul, EP', <- Emul in H1.
    apply Z.divide_abs_r. apply Z.mul_divide_cancel_l in H1; [exact H1|lia].
  - intros H.
    assert (H1 : (q | x)).
    { replace x with (x + q * (k / q) - q * (k / q)) by ring.
      apply Z.divide_sub_r; [exact H|apply Z.divide_factor_l]. }
    apply Z.divide_add_r; [|exact Hrest].
    apply Z.divide_abs_r. rewrite Z.abs_mul, EP', <- Emul.
    apply Z.mul_divide_mono_l. now apply Z.divide_abs_r.
Qed.

(** X3. Without an invariant and with a constant init, an empty solution of
    a supported access (strides and scale are powers of two) is exact: no
    pre-loop count aligns the address at the main-loop iterations 0 and 1. *)
Theorem solve_empty_exact s base init pre_iter :
  int_fields s -> no_overflow s -> asserted s ->
  is_power_of_2 (abs (_pre_stride s)) = true ->
  is_power_of_2 (abs (_scale s)) = true ->
  _invar s = None -> is_ConI (_init_node s) = true ->
  is_Empty (solve s) ->
  base mod _aw s = 0 ->
  ~ (adr s base 0 (init_value s init) pre_iter 0 mod _aw s = 0 /\
     adr s base 0 (init_value s init) pre_iter 1 mod _aw s = 0).
Proof.
  intros Hint Hno Has Hps Hsc Hinv Hcon Hemp Hbase [H0 H1].
  destruct (exact_constants s Hno) as (_ & _ & _ & _ & _).
  destruct (strides_pow2 s Hint Hno Hps Hsc) as (a & b & Ha & Hb & _ & Esb & EP & EP').
  pose proof Has as (_ & Hpos & Hp).
  apply is_power_of_2_spec in Hp. destruct Hp as (w & Hw & Ew).
  assert (Haw : _aw s <> 0) by lia.
  assert (Hp0 : 0 < 2 ^ (a + b)) by (apply Z.pow_pos_nonneg; lia).
  assert (E0 : invar_value s 0 = 0) by (unfold invar_value; now destruct (_invar s)).
  pose proof (adr_constants s base 0 init pre_iter 0 Hno) as A0.
  pose proof (adr_constants s base 0 init pre_iter 1 Hno) as A1.
  rewrite E0 in A0, A1. rewrite A0 in H0. rewrite A1 in H1. clear A0 A1.
  assert (Ci : C_init s = 0) by (unfold C_init; now rewrite Hcon).
  assert (Cv : C_invar s = 0) by (unfold C_invar; now rewrite Hinv).
  rewrite Ci in H0, H1.
  apply Z.mod_divide in H0, H1, Hbase; try exact Haw.
  assert (Hs0 : abs (_scale s) <> 0).
  { destruct Hint as (_ & _ & _ & Hr & _).
    rewrite (in_range_abs_pow2 _ Hr Hsc), Esb.
    apply Z.pow_nonzero; lia. }
  revert Hemp. unfold solve. rewrite Hps, Hsc. simpl.
  destruct (Z.eqb_spec (abs (_scale s)) 0) as [E|_]; [contradiction|]. simpl.
  unfold AlignmentSolution_mod.
  destruct (Z.eqb_spec (C_main s mod _aw s) 0) as [Hm|Hm]; simpl.
  - unfold EQ4.eq4a_state, EQ4.eq4b_state, EQ4.eq4c_state.
    assert (Hz : forall C, C = 0 -> EQ4.state_of (eq4 s) C <> EQ4.EMPTY).
    { intros C ->.
      destruct (state_of_cases (eq4 s) 0) as [[_ [[_ ->]|[N _]]]|[_ [[_ ->]|[N _]]]];
        try discriminate; exfalso; apply N; apply Z.mod_0_l;
        simpl; [exact Haw|rewrite EP; lia]. }
    pose proof (Hz (EQ4._C_invar (eq4 s)) Cv) as Nb.
    pose proof (Hz (EQ4._C_init (eq4 s)) Ci) as Nc.
    destruct (state_of_cases (eq4 s) (EQ4._C_const (eq4 s)))
      as [[Hc [[_ ->]|[N _]]]|[Hc [[_ ->]|[N _]]]]; simpl in *.
    + destruct (EQ4.state_of (eq4 s) (C_invar s)), (EQ4.state_of (eq4 s) (C_init s));
        simpl; auto; congruence.
    + intros _. apply N. apply Z.mod_divide; [exact Haw|].
      assert (Hpre : (_aw s | C_pre s)).
      { apply Z.divide_abs_r. rewrite EP', Ew. apply pow2_divide_le; lia. }
      replace (C_const s) with
        (base + C_const s + 0 + 0 * init + C_pre s * pre_iter + C_main s * 0
         - base - C_pre s * pre_iter) by ring.
      repeat apply Z.divide_sub_r; auto using Z.divide_mul_l.
    + destruct (EQ4.state_of (eq4 s) (C_invar s)), (EQ4.state_of (eq4 s) (C_init s));
        simpl; auto; congruence.
    + intros _. apply N. rewrite EP. apply Z.mod_divide; [lia|].
      assert (Hd : (2 ^ (a + b) | _aw s)).
      { rewrite Ew. apply pow2_divide_le; lia. }
      assert (Hpre : (2 ^ (a + b) | C_pre s)).
      { apply Z.divide_abs_r. rewrite EP'. apply Z.divide_refl. }
      replace (C_const s) with
        (base + C_const s + 0 + 0 * init + C_pre s * pre_iter + C_main s * 0
         - base - C_pre s * pre_iter) by ring.
      repeat apply Z.divide_sub_r; eauto using Z.divide_mul_l, Z.divide_trans.
  - intros _. apply Hm. apply Z.mod_divide; [exact Haw|].
    replace (C_main s) with
      ((base + C_const s + 0 + 0 * init + C_pre s * pre_iter + C_main s * 1)
       - (base + C_const s + 0 + 0 * init + C_pre s * pre_iter + C_main s * 0)) by ring.
    now apply Z.divide_sub_r.
Qed.

(** An access with the vector width of one element: long elements and
    vectors of 8 bytes, a header of 16 bytes. *)
Definition solver_trivial : AlignmentSolver :=
  mkSolver (Opaque 1) 8 16 None 0 8 (ConI 0) 1 4.

(** An int access at an odd multiple of 2 bytes, which no pre-loop count
    aligns. *)
Definition solver_empty : AlignmentSolver :=
  mkSolver (Opaque 1) 32 18 None 0 4 (ConI 0) 1 8.

Lemma solve_trivial_sound_witness :
  adr solver_trivial 64 (invar_value solver_trivial 0) (init_value solver_trivial 0) 3 5
    mod _aw solver_trivial = 0.
Proof.
  apply (solve_trivial_sound solver_trivial 64 0 0 3 5).
  - in_ranges.
  - in_ranges.
  - in_ranges.
  - reflexivity.
  - reflexivity.
  - exists 0. reflexivity.
Defined.

Lemma solve_constrained_exact_witness :
  adr solver_S1 64 (invar_value solver_S1 8) (init_value solver_S1 3) 9 2
    mod _aw solver_S1 = 0
  <-> exists m, 9 = pre_iter_of solver_S1 8 4 m 8 3.
Proof.
  apply (solve_constrained_exact solver_S1 (Opaque 1) 8 4 (Some (Opaque 2)) 4 64 8 3 9 2).
  - in_ranges.
  - in_ranges.
  - in_ranges.
  - reflexivity.
  - reflexivity.
  - exists 2. reflexivity.
Defined.

Lemma solve_empty_exact_witness :
  ~ (adr solver_empty 64 0 (init_value solver_empty 0) 5 0 mod _aw solver_empty = 0 /\
     adr solver_empty 64 0 (init_value solver_empty 0) 5 1 mod _aw solver_empty = 0).
Proof.
  apply (solve_empty_exact solver_empty 64 0 5).
  - in_ranges.
  - in_ranges.
  - in_ranges.
  - reflexivity.
  - reflexivity.
  - reflexivity.
  - reflexivity.
  - exact I.
  - reflexivity.
Defined.

(** *** The cases of the solver, over the fields of the access *)

(** The constants of the reshaped address in exact arithmetic:
    [C_const = offset + init * scale] for a constant init and [offset] for
    a variable one, [C_invar = abs(invar_factor)] with an invariant and 0
    without, [C_init = scale] for a variable init and 0 for a constant one,
    [C_pre = scale * pre_stride], [C_main = scale * main_stride]. *)
Definition exact_C_const (s : AlignmentSolver) : Z :=
  _offset s +
  (if is_ConI (_init_node s) then get_int (_init_node s) * _scale s else 0).
Definition exact_C_invar (s : AlignmentSolver) : Z :=
  match _invar s with None => 0 | Some _ => Z.abs (_invar_factor s) end.
Definition exact_C_init (s : AlignmentSolver) : Z :=
  if is_ConI (_init_node s) then 0 else _scale s.
Definition exact_C_pre (s : AlignmentSolver) : Z := _scale s * _pre_stride s.
Definition exact_C_main (s : AlignmentSolver) : Z := _scale s * _main_stride s.

(** The state of the equation of one term [C]: trivial, constrained or
    empty. *)
Definition equation_trivial (s : AlignmentSolver) (C : Z) : Prop :=
  Z.abs (exact_C_pre s) >= _aw s /\ C mod _aw s = 0.
Definition equation_constrained (s : AlignmentSolver) (C : Z) : Prop :=
  Z.abs (exact_C_pre s) < _aw s /\ C mod Z.abs (exact_C_pre s) = 0.
Definition equation_empty (s : AlignmentSolver) (C : Z) : Prop :=
  (Z.abs (exact_C_pre s) >= _aw s /\ C mod _aw s <> 0) \/
  (Z.abs (exact_C_pre s) < _aw s /\ C mod Z.abs (exact_C_pre s) <> 0).

(** Without overflow [solve] computes these constants. *)
Lemma constants_exact s :
  no_overflow s ->
  C_const s = exact_C_const s /\ C_invar s = exact_C_invar s /\
  C_init s = exact_C_init s /\ C_pre s = exact_C_pre s /\
  C_main s = exact_C_main s /\ abs (C_pre s) = Z.abs (exact_C_pre s).
Proof.
  intros Hno. destruct (exact_constants s Hno) as (Ec & _ & Ei & Epre & Emain).
  split; [|split; [exact Ei|split; [reflexivity|split; [exact Epre|split; [exact Emain|]]]]].
  - rewrite Ec. unfold exact_C_const, C_const_init.
    destruct (is_ConI (_init_node s)); reflexivity.
  - rewrite Epre. apply abs_exact. apply Hno.
Qed.

(** The states of [EQ4] are the states of the equations. *)
Lemma state_of_exact s C :
  no_overflow s ->
  (EQ4.state_of (eq4 s) C = EQ4.TRIVIAL <-> equation_trivial s C) /\
  (EQ4.state_of (eq4 s) C = EQ4.CONSTRAINED <-> equation_constrained s C) /\
  (EQ4.state_of (eq4 s) C = EQ4.EMPTY <-> equation_empty s C).
Proof.
  intros Hno. destruct (constants_exact s Hno) as (_ & _ & _ & _ & _ & Eabs).
  unfold equation_trivial, equation_constrained, equation_empty.
  rewrite <- Eabs.
  destruct (state_of_cases (eq4 s) C) as [[Hc [[Ha E]|[Ha E]]]|[Hc [[Ha E]|[Ha E]]]];
    unfold AlignmentSolution_mod in Ha; simpl in Hc, Ha; rewrite E;
    (split; [|split]); (split; intros X); try discriminate X; try reflexivity;
    try (split; [lia|assumption]);
    try (left; split; [lia|assumption]); try (right; split; [lia|assumption]);
    try (destruct X as [? ?]; exfalso; lia);
    try (destruct X as [[? ?]|[? ?]]; exfalso; (lia || contradiction)).
Qed.

(** A power of two. *)
Definition power_of_two (x : Z) : Prop := exists k, 0 <= k /\ x = 2 ^ k.




(** C2. When [solve] does not return the empty solution, it returns the
    trivial one exactly when the equations of the three terms [C_const],
    [C_invar], [C_init] are all trivial ([abs(C_pre) >= aw] and
    [C % aw = 0]), and otherwise the constrained solution of [mem_ref],
    [invar] and [scale] with [q = aw / abs(C_pre)], an exact quotient that
    is a power of two and at least 2, and
    [r = (- C_const / (scale * pre_stride)) mod q], an exact quotient too,
    so [0 <= r < q]; the three equations are then constrained
    ([abs(C_pre) < aw] and [C % abs(C_pre) = 0]). The constants are over the
    fields of the access, in exact arithmetic, and are those that [solve]
    computes. Assumed: ints in range, no overflow in the constants, and the
    preconditions that [solve] asserts. *)
Theorem solve_not_empty s :
  int_fields s -> no_overflow s -> asserted s ->
  ~ is_Empty (solve s) ->
  (solve s = TrivialAlignmentSolution <->
     equation_trivial s (exact_C_const s) /\
     equation_trivial s (exact_C_invar s) /\
     equation_trivial s (exact_C_init s)) /\
  (solve s <> TrivialAlignmentSolution ->
     solve s =
       ConstrainedAlignmentSolution (_mem_ref s)
         (_aw s / Z.abs (exact_C_pre s))
         ((- exact_C_const s / exact_C_pre s) mod (_aw s / Z.abs (exact_C_pre s)))
         (_invar s) (_scale s) /\
     Z.abs (exact_C_pre s) * (_aw s / Z.abs (exact_C_pre s)) = _aw s /\
     2 <= _aw s / Z.abs (exact_C_pre s) /\
     power_of_two (_aw s / Z.abs (exact_C_pre s)) /\
     exact_C_pre s * (- exact_C_const s / exact_C_pre s) = - exact_C_const s /\
     0 <= (- exact_C_const s / exact_C_pre s) mod (_aw s / Z.abs (exact_C_pre s))
       < _aw s / Z.abs (exact_C_pre s) /\
     equation_constrained s (exact_C_const s) /\
     equation_constrained s (exact_C_invar s) /\
     equation_constrained s (exact_C_init s)) /\
  C_const s = exact_C_const s /\ C_invar s = exact_C_invar s /\
  C_init s = exact_C_init s /\ C_pre s = exact_C_pre s.
Proof.
  intros Hint Hno Has Hne.
  destruct (constants_exact s Hno) as (Ec & Ei & En & Ep & _ & _).
  destruct (state_of_exact s (C_const s) Hno) as (Ta & Ca & _).
  destruct (state_of_exact s (C_invar s) Hno) as (Tb & Cb & _).
  destruct (state_of_exact s (C_init s) Hno) as (Tc & Cc & _).
  rewrite Ec in Ta at 2. rewrite Ec in Ca at 2.
  rewrite Ei in Tb at 2. rewrite Ei in Cb at 2.
  rewrite En in Tc at 2. rewrite En in Cc at 2.
  destruct (solve_not_empty_states s Hint Hno Has Hne) as (Htriv & Hcons & _).
  assert (Hall : all_trivial s <->
            equation_trivial s (exact_C_const s) /\
            equation_trivial s (exact_C_invar s) /\
            equation_trivial s (exact_C_init s)).
  { unfold all_trivial, EQ4.eq4a_state, EQ4.eq4b_state, EQ4.eq4c_state. simpl.
    now rewrite Ta, Tb, Tc. }
  split; [now rewrite Htriv|]. split; [|auto].
  intros Hnt.
  destruct Hcons as (q & r & E & Eq & Emul & Hq2 & Hqp & Er & Hex & Hr & Sa & Sb & Sc).
  { now rewrite <- Htriv. }
  unfold EQ4.eq4a_state, EQ4.eq4b_state, EQ4.eq4c_state in Sa, Sb, Sc. simpl in Sa, Sb, Sc.
  apply Ca in Sa. apply Cb in Sb. apply Cc in Sc.
  change (_scale s * _pre_stride s) with (exact_C_pre s) in Er, Hex.
  rewrite Ec in Er, Hex. rewrite Ep in Eq, Emul.
  apply is_power_of_2_spec in Hqp.
  subst r. subst q. auto 10.
Qed.

(** An int array access with a variable init and the invariant [x << 2]:
    C2 at work, with [q = 8] and [r = 4]. *)
Lemma solve_not_empty_witness :
  (solve solver_S1 = TrivialAlignmentSolution <->
     equation_trivial solver_S1 16 /\ equation_trivial solver_S1 4 /\
     equation_trivial solver_S1 4) /\
  (solve solver_S1 <> TrivialAlignmentSolution ->
     solve solver_S1 =
       ConstrainedAlignmentSolution (Opaque 1) 8 4 (Some (Opaque 2)) 4 /\
     4 * 8 = 32 /\ 2 <= 8 /\ power_of_two 8 /\
     4 * (-4) = -16 /\ 0 <= 4 < 8 /\
     equation_constrained solver_S1 16 /\ equation_constrained solver_S1 4 /\
     equation_constrained solver_S1 4) /\
  C_const solver_S1 = 16 /\ C_invar solver_S1 = 4 /\
  C_init solver_S1 = 4 /\ C_pre solver_S1 = 4.
Proof.
  apply (solve_not_empty solver_S1).
  - in_ranges.
  - in_ranges.
  - in_ranges.
  - simpl. exact (fun H => H).
Defined.


End Alignment.

(** ** VLoop::check_preconditions *)

Module Preconditions.
Local Open Scope Z_scope.
Import JInt.

Inductive Opcode : Type := Op_Opaque1 | Op_other (opc : nat).

Definition Opcode_eqb (a b : Opcode) : bool :=
  match a, b with
  | Op_Opaque1, Op_Opaque1 => true
  | Op_other x, Op_other y => Nat.eqb x y
  | _, _ => false
  end.

(** A node is known by its index; [CountedLoopEndNode] and
    [CountedLoopNode] carry what the helper asks of them. *)
Record CountedLoopEndNode : Type := mkEnd {
  end_idx : nat;
  end_in0 : nat;                 (* in(0), the control input *)
  limit_Opcode : Opcode          (* limit()->Opcode() *)
}.

Record CountedLoopNode : Type := mkLoop {
  cl_idx : nat;
  phi : nat;
  is_vectorized_loop : bool;
  is_unroll_only : bool;
  loopexit : CountedLoopEndNode;
  back_control_outcnt : nat;     (* back_control()->outcnt() *)
  is_main_loop : bool;
  find_pre_loop_end : option CountedLoopEndNode
}.

(** The head of the loop tree: whether it is a valid counted int loop
    ([is_valid_counted_loop(T_INT)]), and the head as a counted loop. *)
Record IdealLoopTree : Type := mkTree {
  is_valid_counted_loop : bool;
  as_CountedLoop : CountedLoopNode
}.

Record VLoop : Type := mkVLoop {
  _lpt : IdealLoopTree;
  _allow_cfg : bool;
  _cl : option CountedLoopNode;
  _iv : option nat;
  _cl_exit : option CountedLoopEndNode;
  _pre_loop_end : option CountedLoopEndNode
}.

(** Modelled from the spec: the return states are [const char*] constants
    declared in vectorization.hpp, which is not among the sources; the spec
    says that each failure mode is a distinct named reason, and the helper
    names them as below. *)
Inductive ReturnState : Type :=
| SUCCESS
| FAILURE_VECTOR_WIDTH
| FAILURE_VALID_COUNTED_LOOP
| FAILURE_ALREADY_VECTORIZED
| FAILURE_UNROLL_ONLY
| FAILURE_CONTROL_FLOW
| FAILURE_BACKEDGE
| FAILURE_PRE_LOOP_LIMIT.

Definition ReturnState_eqb (a b : ReturnState) : bool :=
  match a, b with
  | SUCCESS, SUCCESS
  | FAILURE_VECTOR_WIDTH, FAILURE_VECTOR_WIDTH
  | FAILURE_VALID_COUNTED_LOOP, FAILURE_VALID_COUNTED_LOOP
  | FAILURE_ALREADY_VECTORIZED, FAILURE_ALREADY_VECTORIZED
  | FAILURE_UNROLL_ONLY, FAILURE_UNROLL_ONLY
  | FAILURE_CONTROL_FLOW, FAILURE_CONTROL_FLOW
  | FAILURE_BACKEDGE, FAILURE_BACKEDGE
  | FAILURE_PRE_LOOP_LIMIT, FAILURE_PRE_LOOP_LIMIT => true
  | _, _ => false
  end.

Definition set_cl (v : VLoop) (cl : CountedLoopNode) : VLoop :=
  mkVLoop (_lpt v) (_allow_cfg v) (Some cl) (Some (phi cl)) (_cl_exit v) (_pre_loop_end v).
Definition set_cl_exit (v : VLoop) (e : CountedLoopEndNode) : VLoop :=
  mkVLoop (_lpt v) (_allow_cfg v) (_cl v) (_iv v) (Some e) (_pre_loop_end v).
Definition set_pre_loop_end (v : VLoop) (e : CountedLoopEndNode) : VLoop :=
  mkVLoop (_lpt v) (_allow_cfg v) (_cl v) (_iv v) (_cl_exit v) (Some e).

(** [check_preconditions_helper], for the platform's
    [Matcher::vector_width_in_bytes(T_BYTE)]: the return state and the
    [VLoop] with the fields the helper has set. *)
Definition check_preconditions_helper (vector_width : Z) (v : VLoop)
  : ReturnState * VLoop :=
  (* Only accept vector width that is power of 2 *)
  if (vector_width <? 2) || negb (is_power_of_2 vector_width) then
    (FAILURE_VECTOR_WIDTH, v)
  (* Only accept valid counted loops (int) *)
  else if negb (is_valid_counted_loop (_lpt v)) then
    (FAILURE_VALID_COUNTED_LOOP, v)
  else
    let cl := as_CountedLoop (_lpt v) in
    let v := set_cl v cl in
    if is_vectorized_loop cl then (FAILURE_ALREADY_VECTORIZED, v)
    else if is_unroll_only cl then (FAILURE_UNROLL_ONLY, v)
    else
      (* Check for control flow in the body *)
      let cl_exit := loopexit cl in
      let v := set_cl_exit v cl_exit in
      let has_cfg := negb (Nat.eqb (end_in0 cl_exit) (cl_idx cl)) in
      if has_cfg && negb (_allow_cfg v) then (FAILURE_CONTROL_FLOW, v)
      (* Make sure the are no extra control users of the loop backedge *)
      else if negb (Nat.eqb (back_control_outcnt cl) 1) then (FAILURE_BACKEDGE, v)
      else if is_main_loop cl then
        match find_pre_loop_end cl with
        | None => (FAILURE_PRE_LOOP_LIMIT, v)
        | Some pre_end =>
            if negb (Opcode_eqb (limit_Opcode pre_end) Op_Opaque1)
            then (FAILURE_PRE_LOOP_LIMIT, v)
            else (SUCCESS, set_pre_loop_end v pre_end)
        end
      else (SUCCESS, v).

Definition check_preconditions (vector_width : Z) (v : VLoop) : bool * VLoop :=
  let (return_state, v') := check_preconditions_helper vector_width v in
  if ReturnState_eqb return_state SUCCESS then (true, v') else (false, v').

(** The seven conditions of the spec, in the order of the helper, each with
    the reason that is given when it is the first that does not hold. *)
Definition width_ok (vector_width : Z) : Prop :=
  2 <= vector_width /\ exists k, 0 <= k /\ vector_width = 2 ^ k.
Definition counted_ok (v : VLoop) : Prop :=
  is_valid_counted_loop (_lpt v) = true.
Definition not_vectorized (v : VLoop) : Prop :=
  is_vectorized_loop (as_CountedLoop (_lpt v)) = false.
Definition not_unroll_only (v : VLoop) : Prop :=
  is_unroll_only (as_CountedLoop (_lpt v)) = false.
Definition has_cfg (v : VLoop) : Prop :=
  end_in0 (loopexit (as_CountedLoop (_lpt v))) <> cl_idx (as_CountedLoop (_lpt v)).
Definition cfg_ok (v : VLoop) : Prop := has_cfg v -> _allow_cfg v = true.
Definition backedge_ok (v : VLoop) : Prop :=
  back_control_outcnt (as_CountedLoop (_lpt v)) = 1%nat.
Definition pre_loop_limit_ok (v : VLoop) : Prop :=
  is_main_loop (as_CountedLoop (_lpt v)) = true ->
  exists pre_end,
    find_pre_loop_end (as_CountedLoop (_lpt v)) = Some pre_end /\
    limit_Opcode pre_end = Op_Opaque1.

Definition failure_reasons : list ReturnState :=
  [FAILURE_VECTOR_WIDTH; FAILURE_VALID_COUNTED_LOOP; FAILURE_ALREADY_VECTORIZED;
   FAILURE_UNROLL_ONLY; FAILURE_CONTROL_FLOW; FAILURE_BACKEDGE;
   FAILURE_PRE_LOOP_LIMIT].

(** *** Proofs *)

Lemma width_ok_iff vw :
  width_ok vw <-> (vw <? 2) || negb (is_power_of_2 vw) = false.
Proof.
  unfold width_ok. rewrite orb_false_iff, negb_false_iff, Z.ltb_ge, is_power_of_2_spec.
  tauto.
Qed.

Lemma cfg_ok_iff v :
  cfg_ok v <->
  negb (Nat.eqb (end_in0 (loopexit (as_CountedLoop (_lpt v))))
                (cl_idx (as_CountedLoop (_lpt v)))) && negb (_allow_cfg v) = false.
Proof.
  unfold cfg_ok, has_cfg.
  destruct (Nat.eqb_spec (end_in0 (loopexit (as_CountedLoop (_lpt v))))
                         (cl_idx (as_CountedLoop (_lpt v)))) as [E|E];
    destruct (_allow_cfg v); simpl; intuition congruence.
Qed.

Lemma backedge_ok_iff v :
  backedge_ok v <->
  negb (Nat.eqb (back_control_outcnt (as_CountedLoop (_lpt v))) 1) = false.
Proof.
  unfold backedge_ok. rewrite negb_false_iff. symmetry. apply Nat.eqb_eq.
Qed.

Lemma Opcode_eqb_eq a b : Opcode_eqb a b = true <-> a = b.
Proof.
  destruct a, b; simpl; try (split; congruence).
  rewrite Nat.eqb_eq. split; congruence.
Qed.

Lemma pre_loop_limit_ok_iff v :
  pre_loop_limit_ok v <->
  (if is_main_loop (as_CountedLoop (_lpt v)) then
     match find_pre_loop_end (as_CountedLoop (_lpt v)) with
     | None => false
     | Some pre_end => Opcode_eqb (limit_Opcode pre_end) Op_Opaque1
     end
   else true) = true.
Proof.
  unfold pre_loop_limit_ok.
  destruct (is_main_loop (as_CountedLoop (_lpt v))); [|intuition congruence].
  destruct (find_pre_loop_end (as_CountedLoop (_lpt v))) as [e|].
  - rewrite Opcode_eqb_eq. split.
    + intros H. destruct (H eq_refl) as (e' & [= <-] & E). exact E.
    + intros E _. eauto.
  - split; [|discriminate]. intros H. destruct (H eq_refl) as (e' & [=] & _).
Qed.

(** C6. [check_preconditions] returns true exactly when the seven
    conditions hold: the byte-vector width is a power of two and at least 2,
    the loop is a valid counted int loop, not yet vectorized, not marked
    unroll-only, has no control flow in its body unless the caller allows
    it, its backedge has one control user, and, for a main loop, a pre-loop
    end with an Opaque1 limit exists. On failure the helper returns the
    reason of the first condition that does not hold, and the reasons
    differ from each other and from success. *)
Theorem check_preconditions_spec vw v :
  (fst (check_preconditions vw v) = true <->
     width_ok vw /\ counted_ok v /\ not_vectorized v /\ not_unroll_only v /\
     cfg_ok v /\ backedge_ok v /\ pre_loop_limit_ok v) /\
  (fst (check_preconditions vw v) = true <->
     fst (check_preconditions_helper vw v) = SUCCESS) /\
  (fst (check_preconditions_helper vw v) = FAILURE_VECTOR_WIDTH <->
     ~ width_ok vw) /\
  (fst (check_preconditions_helper vw v) = FAILURE_VALID_COUNTED_LOOP <->
     width_ok vw /\ ~ counted_ok v) /\
  (fst (check_preconditions_helper vw v) = FAILURE_ALREADY_VECTORIZED <->
     width_ok vw /\ counted_ok v /\ ~ not_vectorized v) /\
  (fst (check_preconditions_helper vw v) = FAILURE_UNROLL_ONLY <->
     width_ok vw /\ counted_ok v /\ not_vectorized v /\ ~ not_unroll_only v) /\
  (fst (check_preconditions_helper vw v) = FAILURE_CONTROL_FLOW <->
     width_ok vw /\ counted_ok v /\ not_vectorized v /\ not_unroll_only v /\
     ~ cfg_ok v) /\
  (fst (check_preconditions_helper vw v) = FAILURE_BACKEDGE <->
     width_ok vw /\ counted_ok v /\ not_vectorized v /\ not_unroll_only v /\
     cfg_ok v /\ ~ backedge_ok v) /\
  (fst (check_preconditions_helper vw v) = FAILURE_PRE_LOOP_LIMIT <->
     width_ok vw /\ counted_ok v /\ not_vectorized v /\ not_unroll_only v /\
     cfg_ok v /\ backedge_ok v /\ ~ pre_loop_limit_ok v) /\
  List.NoDup (SUCCESS :: failure_reasons).
Proof.
  rewrite width_ok_iff, cfg_ok_iff, backedge_ok_iff, pre_loop_limit_ok_iff.
  unfold counted_ok, not_vectorized, not_unroll_only.
  unfold check_preconditions, check_preconditions_helper.
  assert (Hnd : List.NoDup (SUCCESS :: failure_reasons)).
  { unfold failure_reasons.
    repeat (apply List.NoDup_cons; [simpl; intuition discriminate|]).
    apply List.NoDup_nil. }
  destruct ((vw <? 2) || negb (is_power_of_2 vw));
  destruct (is_valid_counted_loop (_lpt v));
  destruct (is_vectorized_loop (as_CountedLoop (_lpt v)));
  destruct (is_unroll_only (as_CountedLoop (_lpt v)));
  simpl;
  try (repeat split; try exact Hnd; intuition congruence).
  destruct (negb (Nat.eqb (end_in0 (loopexit (as_CountedLoop (_lpt v))))
                (cl_idx (as_CountedLoop (_lpt v)))) && negb (_allow_cfg v));
  destruct (negb (Nat.eqb (back_control_outcnt (as_CountedLoop (_lpt v))) 1));
  simpl;
  try (repeat split; try exact Hnd; intuition congruence).
  destruct (is_main_loop (as_CountedLoop (_lpt v)));
  [destruct (find_pre_loop_end (as_CountedLoop (_lpt v))) as [e|];
   [destruct (Opcode_eqb (limit_Opcode e) Op_Opaque1)|]|];
  simpl; repeat split; try exact Hnd; intuition congruence.
Qed.

(** A main loop that passes, and the same loop without the opaque limit. *)
Definition pre_end_ok : CountedLoopEndNode := mkEnd 40 30 Op_Opaque1.
Definition main_loop (pre : option CountedLoopEndNode) : VLoop :=
  mkVLoop (mkTree true (mkLoop 100 101 false false (mkEnd 110 100 (Op_other 7)) 1 true pre))
          false None None None None.

Example check_main_loop :
  check_preconditions 32 (main_loop (Some pre_end_ok)) =
  (true, mkVLoop (_lpt (main_loop (Some pre_end_ok))) false
           (Some (as_CountedLoop (_lpt (main_loop (Some pre_end_ok)))))
           (Some 101%nat) (Some (mkEnd 110 100 (Op_other 7))) (Some pre_end_ok)).
Proof. reflexivity. Qed.

Example check_main_loop_no_opaque :
  fst (check_preconditions_helper 32 (main_loop (Some (mkEnd 40 30 (Op_other 3)))))
  = FAILURE_PRE_LOOP_LIMIT.
Proof. reflexivity. Qed.

Example check_width_24 :
  fst (check_preconditions_helper 24 (main_loop (Some pre_end_ok))) = FAILURE_VECTOR_WIDTH.
Proof. reflexivity. Qed.


(** *** Further properties of the helper *)

(** X4. [check_preconditions] only writes the fields [_cl], [_iv],
    [_cl_exit] and [_pre_loop_end]. After a success they are set: the loop
    head as a counted loop, its phi, its loop exit, and for a main loop the
    end of the pre-loop, whose limit is an Opaque1 (for another loop
    [_pre_loop_end] is left as it was). A second run on the result changes
    nothing and returns the same. *)
Theorem check_preconditions_fields vw v :
  _lpt (snd (check_preconditions vw v)) = _lpt v /\
  _allow_cfg (snd (check_preconditions vw v)) = _allow_cfg v /\
  (fst (check_preconditions vw v) = true ->
   _cl (snd (check_preconditions vw v)) = Some (as_CountedLoop (_lpt v)) /\
   _iv (snd (check_preconditions vw v)) = Some (phi (as_CountedLoop (_lpt v))) /\
   _cl_exit (snd (check_preconditions vw v)) = Some (loopexit (as_CountedLoop (_lpt v))) /\
   (is_main_loop (as_CountedLoop (_lpt v)) = true ->
    exists pre_end,
      _pre_loop_end (snd (check_preconditions vw v)) = Some pre_end /\
      find_pre_loop_end (as_CountedLoop (_lpt v)) = Some pre_end /\
      limit_Opcode pre_end = Op_Opaque1) /\
   (is_main_loop (as_CountedLoop (_lpt v)) = false ->
    _pre_loop_end (snd (check_preconditions vw v)) = _pre_loop_end v)) /\
  check_preconditions vw (snd (check_preconditions vw v)) = check_preconditions vw v.
Proof.
  unfold check_preconditions, check_preconditions_helper.
  destruct ((vw <? 2) || negb (is_power_of_2 vw)) eqn:E1; simpl.
  { rewrite ?E1. simpl. repeat split; auto; discriminate. }
  destruct (is_valid_counted_loop (_lpt v)) eqn:E2; simpl.
  2: { rewrite ?E1, ?E2. simpl. repeat split; auto; discriminate. }
  destruct (is_vectorized_loop (as_CountedLoop (_lpt v))) eqn:E3; simpl.
  { rewrite ?E1, ?E2, ?E3. simpl. repeat split; auto; discriminate. }
  destruct (is_unroll_only (as_CountedLoop (_lpt v))) eqn:E4; simpl.
  { rewrite ?E1, ?E2, ?E3, ?E4. simpl. repeat split; auto; discriminate. }
  destruct (negb (Nat.eqb (end_in0 (loopexit (as_CountedLoop (_lpt v))))
                          (cl_idx (as_CountedLoop (_lpt v)))) && negb (_allow_cfg v)) eqn:E5;
    simpl.
  { rewrite ?E1, ?E2, ?E3, ?E4, ?E5. simpl. repeat split; auto; discriminate. }
  destruct (negb (Nat.eqb (back_control_outcnt (as_CountedLoop (_lpt v))) 1)) eqn:E6; simpl.
  { rewrite ?E1, ?E2, ?E3, ?E4, ?E5, ?E6. simpl. repeat split; auto; discriminate. }
  destruct (is_main_loop (as_CountedLoop (_lpt v))) eqn:E7; simpl.
  - destruct (find_pre_loop_end (as_CountedLoop (_lpt v))) as [e|] eqn:E8; simpl.
    + destruct (Opcode_eqb (limit_Opcode e) Op_Opaque1) eqn:E9; simpl.
      * rewrite ?E1, ?E2, ?E3, ?E4, ?E5, ?E6, ?E7, ?E8. simpl. rewrite ?E9. simpl.
        repeat split; auto; try discriminate.
        intros _. exists e. repeat split; auto. now apply Opcode_eqb_eq.
      * rewrite ?E1, ?E2, ?E3, ?E4, ?E5, ?E6, ?E7, ?E8. simpl. rewrite ?E9. simpl.
        repeat split; auto; discriminate.
    + rewrite ?E1, ?E2, ?E3, ?E4, ?E5, ?E6, ?E7, ?E8. simpl. repeat split; auto; discriminate.
  - rewrite ?E1, ?E2, ?E3, ?E4, ?E5, ?E6, ?E7. simpl. repeat split; auto; discriminate.
Qed.

End Preconditions.

(** ** VPointer: the address pattern matcher *)

Module Pointer.
Local Open Scope Z_scope.
Import JInt.

Inductive BasicType : Type := T_INT | T_LONG.

Definition BasicType_eqb (a b : BasicType) : bool :=
  match a, b with T_INT, T_INT | T_LONG, T_LONG => true | _, _ => false end.

(** The IR nodes that the matcher tells apart by [Opcode()], with their
    inputs [in(1)], [in(2)] ([in(Base)], [in(Address)], [in(Offset)] for an
    AddP). [Iv] is the induction variable phi of the loop, [Other] any node
    of another opcode, with the basic type of its value. Nodes are hash
    consed by the value numbering of the compiler, so a node is its term. *)
Inductive Node : Type :=
| Iv
| Top
| ConI (value : Z)
| ConL (value : Z)
| AddI (in1 in2 : Node)
| AddL (in1 in2 : Node)
| SubI (in1 in2 : Node)
| SubL (in1 in2 : Node)
| MulI (in1 in2 : Node)
| LShiftI (in1 in2 : Node)
| LShiftL (in1 in2 : Node)
| ConvI2L (in1 : Node)
| CastII (in1 : Node)
| AddP (base address offset : Node)
| Other (idx : nat) (bt : BasicType).

Fixpoint Node_eqb (a b : Node) : bool :=
  match a, b with
  | Iv, Iv | Top, Top => true
  | ConI x, ConI y | ConL x, ConL y => x =? y
  | AddI a1 a2, AddI b1 b2 | AddL a1 a2, AddL b1 b2
  | SubI a1 a2, SubI b1 b2 | SubL a1 a2, SubL b1 b2
  | MulI a1 a2, MulI b1 b2
  | LShiftI a1 a2, LShiftI b1 b2 | LShiftL a1 a2, LShiftL b1 b2 =>
      Node_eqb a1 b1 && Node_eqb a2 b2
  | ConvI2L a1, ConvI2L b1 | CastII a1, CastII b1 => Node_eqb a1 b1
  | AddP a1 a2 a3, AddP b1 b2 b3 =>
      Node_eqb a1 b1 && Node_eqb a2 b2 && Node_eqb a3 b3
  | Other i s, Other j t => Nat.eqb i j && BasicType_eqb s t
  | _, _ => false
  end.

Definition is_Con (n : Node) : bool :=
  match n with ConI _ | ConL _ => true | _ => false end.
Definition is_AddP (n : Node) : bool :=
  match n with AddP _ _ _ => true | _ => false end.
Definition is_top (n : Node) : bool :=
  match n with Top => true | _ => false end.

(** [get_int] of an int constant (the compiler stops on any other node; in
    a typed graph the constant inputs of MulI, LShiftI, AddI, SubI and the
    shift count of LShiftL are int constants). *)
Definition get_int (n : Node) : Z :=
  match n with ConI v => v | _ => 0 end.

(** [bottom_type()->basic_type()], for the nodes with an int or long value. *)
Definition basic_type (n : Node) : BasicType :=
  match n with
  | ConL _ | AddL _ _ | SubL _ _ | LShiftL _ _ | ConvI2L _ => T_LONG
  | Other _ bt => bt
  | _ => T_INT
  end.

(** The nodes that the matcher creates. *)
Definition zerocon (bt : BasicType) : Node :=
  match bt with T_INT => ConI 0 | T_LONG => ConL 0 end.
Definition SubNode_make (a b : Node) (bt : BasicType) : Node :=
  match bt with T_INT => SubI a b | T_LONG => SubL a b end.
Definition AddNode_make (a b : Node) (bt : BasicType) : Node :=
  match bt with T_INT => AddI a b | T_LONG => AddL a b end.
Definition LShiftNode_make (a b : Node) (bt : BasicType) : Node :=
  match bt with T_INT => LShiftI a b | T_LONG => LShiftL a b end.

(** The shared stack of the analyze-only mode: [push(n, i)]. *)
Definition Node_Stack : Type := list (Node * nat).

(** The fields of a [VPointer] that the matcher reads and writes. *)
Record VPointer : Type := mkVPointer {
  _base : option Node;
  _adr : option Node;
  _scale : Z;
  _offset : Z;
  _invar : option Node;
  _analyze_only : bool;
  _stack_idx : nat
}.

Definition set_scale (p : VPointer) (scale : Z) : VPointer :=
  mkVPointer (_base p) (_adr p) scale (_offset p) (_invar p)
             (_analyze_only p) (_stack_idx p).
Definition set_offset (p : VPointer) (offset : Z) : VPointer :=
  mkVPointer (_base p) (_adr p) (_scale p) offset (_invar p)
             (_analyze_only p) (_stack_idx p).
Definition set_invar (p : VPointer) (invar : Node) : VPointer :=
  mkVPointer (_base p) (_adr p) (_scale p) (_offset p) (Some invar)
             (_analyze_only p) (_stack_idx p).
Definition set_base_adr (p : VPointer) (base adr : Node) : VPointer :=
  mkVPointer (Some base) (Some adr) (_scale p) (_offset p) (_invar p)
             (_analyze_only p) (_stack_idx p).

(** [VPointer(VPointer* p)]: the temporary object for a subtree. It shares
    the stack of [p] and starts at the stack index of [p]. *)
Definition VPointer_tmp (p : VPointer) : VPointer :=
  mkVPointer None None 0 0 None (_analyze_only p) (_stack_idx p).

(** Modelled from the spec: [has_iv] is declared in vectorization.hpp, which
    is not among the sources; by the spec a scale of 0 means that no
    induction-variable term is present. *)
Definition has_iv (p : VPointer) : bool := negb (_scale p =? 0).

(** Biggest detectable factor of the invariant. *)
Definition invar_factor (p : VPointer) : Z :=
  match _invar p with
  | None => 0
  | Some (LShiftI _ in2) | Some (LShiftL _ in2) =>
      if is_Con in2 then shl 1 (get_int in2)
      else 1   (* All our best-effort has failed. *)
  | Some _ => 1
  end.

(** What a matcher call leaves: its result, the object, the shared stack. *)
Definition Res : Type := bool * VPointer * Node_Stack.

Section Matcher.

(** The oracles of the loop: membership of the control of a node in the
    loop, whether the loop is a main loop, and whether the control of a node
    dominates the head of the pre-loop. *)
Variable is_loop_member : Node -> bool.
Variable is_main_loop : bool.
Variable dominates_pre_loop_head : Node -> bool.

Definition invariant (n : Node) : bool :=
  let is_not_member := negb (is_loop_member n) in
  if is_not_member then
    if is_main_loop then dominates_pre_loop_head n else is_not_member
  else is_not_member.

(** [_nstack->push(n, _stack_idx++)] in analyze-only mode, for a loop member. *)
Definition push_if_analyzed (n : Node) (p : VPointer) (ns : Node_Stack)
  : VPointer * Node_Stack :=
  if _analyze_only p && is_loop_member n then
    (mkVPointer (_base p) (_adr p) (_scale p) (_offset p) (_invar p)
                (_analyze_only p) (S (_stack_idx p)),
     ns ++ [(n, _stack_idx p)])
  else (p, ns).

(** [register_if_new]: the node itself, or the equal node that the value
    numbering already has; these are one term. *)
Definition register_if_new (n : Node) : Node := n.

Definition maybe_negate_invar (negate : bool) (invar : Node) : Node :=
  if negate then
    let bt := basic_type invar in
    let zero := zerocon bt in
    register_if_new (SubNode_make zero invar bt)
  else invar.

Definition maybe_add_to_invar (new_invar : Node) (negate : bool) (p : VPointer)
  : VPointer :=
  let new_invar := maybe_negate_invar negate new_invar in
  match _invar p with
  | None => set_invar p new_invar
  | Some current_invar =>
      let new_invar_bt := basic_type new_invar in
      let invar_bt := basic_type current_invar in
      let bt := if BasicType_eqb new_invar_bt T_LONG || BasicType_eqb invar_bt T_LONG
                then T_LONG else T_INT in
      let '(current_invar, new_invar) :=
        if negb (BasicType_eqb invar_bt bt) then
          (register_if_new (ConvI2L current_invar), new_invar)
        else if negb (BasicType_eqb new_invar_bt bt) then
          (current_invar, register_if_new (ConvI2L new_invar))
        else (current_invar, new_invar) in
      set_invar p (register_if_new (AddNode_make current_invar new_invar bt))
  end.

(** [_offset += negate ? -k : k]. *)
Definition add_offset (p : VPointer) (negate : bool) (k : Z) : VPointer :=
  set_offset p (add (_offset p) (if negate then neg k else k)).

(** Match: offset is (k [+/- invariant]). *)
Definition offset_plus_k (n : Node) (negate : bool) (p : VPointer) (ns : Node_Stack)
  : Res :=
  match n with
  | ConI k => (true, add_offset p negate k, ns)
  | ConL k =>
      (* Okay if value fits into an int *)
      if (min_jint <=? k) && (k <=? max_jint)
      then (true, add_offset p negate k, ns)
      else (false, p, ns)
  | _ =>
      let '(p, ns) := push_if_analyzed n p ns in
      let after_AddI :=
        match n with
        | AddI in1 in2 =>
            if is_Con in2 && invariant in1 then
              let p := maybe_add_to_invar in1 negate p in
              Some (add_offset p negate (get_int in2))
            else if is_Con in1 && invariant in2 then
              let p := add_offset p negate (get_int in1) in
              Some (maybe_add_to_invar in2 negate p)
            else None
        | _ => None
        end in
      match after_AddI with
      | Some p => (true, p, ns)
      | None =>
          let after_SubI :=
            match n with
            | SubI in1 in2 =>
                if is_Con in2 && invariant in1 then
                  let p := maybe_add_to_invar in1 negate p in
                  Some (add_offset p (negb negate) (get_int in2))
                else if is_Con in1 && invariant in2 then
                  let p := add_offset p negate (get_int in1) in
                  Some (maybe_add_to_invar in2 (negb negate) p)
                else None
            | _ => None
            end in
          match after_SubI with
          | Some p => (true, p, ns)
          | None =>
              if negb (is_loop_member n) then
                (* Skip ConvI2L and CastII nodes *)
                let n := match n with ConvI2L in1 => in1 | _ => n end in
                let n := match n with CastII in1 => in1 | _ => n end in
                if invariant n then (true, maybe_add_to_invar n negate p, ns)
                else (false, p, ns)
              else (false, p, ns)
          end
      end
  end.

(** Match: k*iv where k is a constant that's not zero. The recursion of
    [scaled_iv] into [scaled_iv_plus_offset] is the argument [rec]. *)
Definition scaled_iv_with (rec : Node -> VPointer -> Node_Stack -> Res)
    (n : Node) (p : VPointer) (ns : Node_Stack) : Res :=
  if negb (_scale p =? 0) then (false, p, ns)   (* already found a scale *)
  else
    match n with
    | Iv => (true, set_scale p 1, ns)
    | _ =>
        let '(p, ns) := push_if_analyzed n p ns in
        match n with
        | MulI in1 in2 =>
            if Node_eqb in1 Iv && is_Con in2 then
              (true, set_scale p (get_int in2), ns)
            else if Node_eqb in2 Iv && is_Con in1 then
              (true, set_scale p (get_int in1), ns)
            else (false, p, ns)
        | LShiftI in1 in2 =>
            if Node_eqb in1 Iv && is_Con in2 then
              (true, set_scale p (shl 1 (get_int in2)), ns)
            else (false, p, ns)
        | ConvI2L in1 | CastII in1 =>
            let '(ok, p, ns) := rec in1 p ns in
            if ok then (true, p, ns) else (false, p, ns)
        | LShiftL in1 in2 =>
            if is_Con in2 then
              if negb (has_iv p) then
                (* a temporary object for this expression subtree *)
                let '(ok, tmp, ns) := rec in1 (VPointer_tmp p) ns in
                if ok then
                  let scale := get_int in2 in
                  let p := set_scale p (shl (_scale tmp) scale) in
                  let p := set_offset p (add (_offset p) (shl (_offset tmp) scale)) in
                  let p :=
                    match _invar tmp with
                    | Some tmp_invar =>
                        let bt := basic_type tmp_invar in
                        maybe_add_to_invar
                          (register_if_new (LShiftNode_make tmp_invar in2 bt)) false p
                    | None => p
                    end in
                  (true, p, ns)
                else (false, p, ns)
              else (false, p, ns)
            else (false, p, ns)
        | _ => (false, p, ns)
        end
    end.

(** Match: k*iv + offset. *)
Fixpoint scaled_iv_plus_offset (n : Node) (p : VPointer) (ns : Node_Stack)
  {struct n} : Res :=
  let '(ok, p, ns) := scaled_iv_with scaled_iv_plus_offset n p ns in
  if ok then (true, p, ns)
  else
    let '(ok, p, ns) := offset_plus_k n false p ns in
    if ok then (true, p, ns)
    else
      match n with
      | AddI in1 in2 =>
          let '(ok, p, ns) := offset_plus_k in2 false p ns in
          let '(ok, p, ns) :=
            if ok then scaled_iv_plus_offset in1 p ns else (false, p, ns) in
          if ok then (true, p, ns)
          else
            let '(ok, p, ns) := offset_plus_k in1 false p ns in
            let '(ok, p, ns) :=
              if ok then scaled_iv_plus_offset in2 p ns else (false, p, ns) in
            if ok then (true, p, ns) else (false, p, ns)
      | SubI in1 in2 | SubL in1 in2 =>
          let '(ok, p, ns) := offset_plus_k in2 true p ns in
          let '(ok, p, ns) :=
            if ok then scaled_iv_plus_offset in1 p ns else (false, p, ns) in
          if ok then (true, p, ns)
          else
            let '(ok, p, ns) := offset_plus_k in1 false p ns in
            let '(ok, p, ns) :=
              if ok then scaled_iv_plus_offset in2 p ns else (false, p, ns) in
            if ok then (true, set_scale p (mul (_scale p) (-1)), ns)
            else (false, p, ns)
      | _ => (false, p, ns)
      end.

Definition scaled_iv : Node -> VPointer -> Node_Stack -> Res :=
  scaled_iv_with scaled_iv_plus_offset.

(** The constructor [VPointer(mem, vloop, nstack, analyze_only)], from the
    address input of [mem]. The loop over the AddP layers: the result is the
    address at which it stops, or nothing when a layer is too complex. *)
Variable misaligned_vectors_ok : bool.

Fixpoint ctor_loop (base adr : Node) (p : VPointer) (ns : Node_Stack)
  {struct adr} : option Node * VPointer * Node_Stack :=
  match adr with
  | AddP _ address offset =>
      let '(ok, p, ns) := scaled_iv_plus_offset offset p ns in
      if negb ok then (None, p, ns)
      else
        let adr := address in
        if Node_eqb base adr || negb (is_AddP adr) then
          (Some adr, p, ns)    (* stop looking at addp's *)
        else ctor_loop base adr p ns
  | _ => (Some adr, p, ns)
  end.

Definition VPointer_new (mem_Address : Node) (nstack : Node_Stack)
    (analyze_only : bool) : VPointer * Node_Stack :=
  let p := mkVPointer None None 0 0 None analyze_only 0 in
  let adr := mem_Address in
  match adr with
  | AddP base _ _ =>
      (* The base address should be loop invariant *)
      if is_loop_member base then (p, nstack)
      (* unsafe references require misaligned vector access support *)
      else if is_top base && negb misaligned_vectors_ok then (p, nstack)
      else
        let '(stop, p, ns) := ctor_loop base adr p nstack in
        match stop with
        | None => (p, ns)
        | Some adr =>
            if is_loop_member adr then (p, ns)
            else if negb (is_top base) && negb (Node_eqb adr base) then (p, ns)
            else (set_base_adr p base adr, ns)
        end
  | _ => (p, nstack)
  end.

(** A constructed pointer is usable when its address is set (what the
    assertions of the constructor call [valid()]). *)
Definition valid (p : VPointer) : bool :=
  match _adr p with Some _ => true | None => false end.

(** Once a scale is recorded, the matcher only ever changes its sign. *)
Definition same_term (p p' : VPointer) : Prop :=
  in_range (_scale p') /\ Z.abs (_scale p') = Z.abs (_scale p).

(** The object that the LShiftL form of [scaled_iv] leaves, from the object
    [p] it started with and the temporary object [tmp] of the subtree. *)
Definition after_LShiftL (p tmp : VPointer) (c : Node) : VPointer :=
  let q := set_offset (set_scale p (shl (_scale tmp) (get_int c)))
                      (add (_offset p) (shl (_offset tmp) (get_int c))) in
  match _invar tmp with
  | Some tmp_invar =>
      maybe_add_to_invar (LShiftNode_make tmp_invar c (basic_type tmp_invar)) false q
  | None => q
  end.

(** *** Proofs *)


Lemma scale_push n p ns : _scale (fst (push_if_analyzed n p ns)) = _scale p.
Proof.
  unfold push_if_analyzed.
  destruct (_analyze_only p && is_loop_member n); reflexivity.
Qed.


Lemma scale_maybe_add_to_invar x negate p :
  _scale (maybe_add_to_invar x negate p) = _scale p.
Proof.
  unfold maybe_add_to_invar. destruct (_invar p); [|reflexivity].
  destruct (negb _); [reflexivity|]. destruct (negb _); reflexivity.
Qed.

Lemma scale_add_offset p negate k : _scale (add_offset p negate k) = _scale p.
Proof. reflexivity. Qed.

Lemma offset_plus_k_scale n negate p ns :
  _scale (snd (fst (offset_plus_k n negate p ns))) = _scale p.
Proof.
  unfold offset_plus_k.
  pose proof (scale_push n p ns) as Hpush.
  destruct (push_if_analyzed n p ns) as [pa nsa]. simpl in Hpush.
  destruct n; simpl;
    try reflexivity;
    repeat match goal with
    | |- context [if ?b then _ else _] => destruct b; simpl
    end;
    rewrite ?scale_maybe_add_to_invar, ?scale_add_offset, ?scale_maybe_add_to_invar;
    try (exact Hpush); try reflexivity.
Qed.





Lemma same_term_nonzero p p' : _scale p <> 0 -> same_term p p' -> _scale p' <> 0.
Proof. intros H [_ E]. lia. Qed.

Lemma scaled_iv_plus_offset_eq n p ns :
  scaled_iv_plus_offset n p ns =
  let '(ok, p, ns) := scaled_iv n p ns in
  if ok then (true, p, ns)
  else
    let '(ok, p, ns) := offset_plus_k n false p ns in
    if ok then (true, p, ns)
    else
      match n with
      | AddI in1 in2 =>
          let '(ok, p, ns) := offset_plus_k in2 false p ns in
          let '(ok, p, ns) :=
            if ok then scaled_iv_plus_offset in1 p ns else (false, p, ns) in
          if ok then (true, p, ns)
          else
            let '(ok, p, ns) := offset_plus_k in1 false p ns in
            let '(ok, p, ns) :=
              if ok then scaled_iv_plus_offset in2 p ns else (false, p, ns) in
            if ok then (true, p, ns) else (false, p, ns)
      | SubI in1 in2 | SubL in1 in2 =>
          let '(ok, p, ns) := offset_plus_k in2 true p ns in
          let '(ok, p, ns) :=
            if ok then scaled_iv_plus_offset in1 p ns else (false, p, ns) in
          if ok then (true, p, ns)
          else
            let '(ok, p, ns) := offset_plus_k in1 false p ns in
            let '(ok, p, ns) :=
              if ok then scaled_iv_plus_offset in2 p ns else (false, p, ns) in
            if ok then (true, set_scale p (mul (_scale p) (-1)), ns)
            else (false, p, ns)
      | _ => (false, p, ns)
      end.
Proof. destruct n; reflexivity. Qed.

Lemma same_term_trans p q r : same_term p q -> same_term q r -> same_term p r.
Proof. intros [_ E1] [H E2]. split; [exact H|congruence]. Qed.

Lemma same_term_k m negate p ns :
  in_range (_scale p) ->
  same_term p (snd (fst (offset_plus_k m negate p ns))).
Proof. intros H. split; rewrite offset_plus_k_scale; auto. Qed.


(** One alternative of an AddI or a SubI: [offset_plus_k(a) &&
    scaled_iv_plus_offset(b)]. *)
Lemma same_term_alternative a negate b p ns :
  (forall p ns, in_range (_scale p) -> _scale p <> 0 ->
      same_term p (snd (fst (scaled_iv_plus_offset b p ns)))) ->
  in_range (_scale p) -> _scale p <> 0 ->
  same_term p
    (snd (fst (let '(ok, p, ns) := offset_plus_k a negate p ns in
               if ok then scaled_iv_plus_offset b p ns else (false, p, ns)))).
Proof.
  intros IH Hr Hnz.
  pose proof (same_term_k a negate p ns Hr) as Hk.
  destruct (offset_plus_k a negate p ns) as [[ok p1] ns1]. simpl in Hk.
  destruct ok; [|exact Hk].
  apply same_term_trans with p1; [exact Hk|].
  apply IH; [apply Hk|].
  now apply (same_term_nonzero p).
Qed.





Lemma offset_maybe_add_to_invar x negate p :
  _offset (maybe_add_to_invar x negate p) = _offset p.
Proof.
  unfold maybe_add_to_invar. destruct (_invar p); [|reflexivity].
  destruct (negb _); [reflexivity|]. destruct (negb _); reflexivity.
Qed.





(** *** Further properties: what every matcher call preserves *)

Lemma BasicType_eqb_eq a b : BasicType_eqb a b = true <-> a = b.
Proof. destruct a, b; simpl; split; congruence. Qed.

Lemma Node_eqb_eq a : forall b, Node_eqb a b = true <-> a = b.
Proof.
  induction a; intros b; destruct b; simpl; try (split; congruence);
    rewrite ?andb_true_iff, ?Z.eqb_eq, ?Nat.eqb_eq, ?BasicType_eqb_eq,
      ?IHa, ?IHa1, ?IHa2, ?IHa3;
    split; try (intros [[? ?] ?]; congruence); try (intros [? ?]; congruence);
    try (intros [= -> -> ->]; auto); try (intros [= -> ->]; auto); congruence.
Qed.

(** The objects that differ in the scale, the offset and the invariant
    only. *)
Definition same_ctl (p p' : VPointer) : Prop :=
  _base p' = _base p /\ _adr p' = _adr p /\
  _analyze_only p' = _analyze_only p /\ _stack_idx p' = _stack_idx p.

Lemma same_ctl_refl p : same_ctl p p.
Proof. repeat split. Qed.

Lemma same_ctl_trans p q r : same_ctl p q -> same_ctl q r -> same_ctl p r.
Proof. intros (?&?&?&?) (?&?&?&?). repeat split; congruence. Qed.

Lemma same_ctl_invar x negate p : same_ctl p (maybe_add_to_invar x negate p).
Proof.
  unfold maybe_add_to_invar. destruct (_invar p); [|repeat split].
  destruct (negb _); [repeat split|]. destruct (negb _); repeat split.
Qed.

Lemma same_ctl_add_offset p negate k : same_ctl p (add_offset p negate k).
Proof. repeat split. Qed.

Lemma same_ctl_set_scale p s : same_ctl p (set_scale p s).
Proof. repeat split. Qed.

Lemma same_ctl_after_LShiftL p tmp c : same_ctl p (after_LShiftL p tmp c).
Proof.
  unfold after_LShiftL. destruct (_invar tmp); [|repeat split].
  eapply same_ctl_trans; [|apply same_ctl_invar]. repeat split.
Qed.

Section Preserved.

(** A relation between the object and the stack before and after a call
    that holds across a push on the stack and across a change of the scale,
    the offset and the invariant, and that the match of a subtree in a
    temporary object passes on to the object itself. *)
Variable R : VPointer -> Node_Stack -> VPointer -> Node_Stack -> Prop.
Hypothesis R_trans : forall p ns p1 ns1 p2 ns2,
  R p ns p1 ns1 -> R p1 ns1 p2 ns2 -> R p ns p2 ns2.
Hypothesis R_push : forall n p ns,
  R p ns (fst (push_if_analyzed n p ns)) (snd (push_if_analyzed n p ns)).
Hypothesis R_fields : forall p p' ns, same_ctl p p' -> R p ns p' ns.
Hypothesis R_tmp : forall p ns tmp ns',
  R (VPointer_tmp p) ns tmp ns' -> R p ns p ns'.

Lemma R_refl p ns : R p ns p ns.
Proof. apply R_fields, same_ctl_refl. Qed.

Lemma R_push_fields n p ns p' :
  same_ctl (fst (push_if_analyzed n p ns)) p' ->
  R p ns p' (snd (push_if_analyzed n p ns)).
Proof. intros H. eapply R_trans; [apply R_push|apply R_fields, H]. Qed.

Lemma preserved_offset_plus_k n negate p ns :
  R p ns (snd (fst (offset_plus_k n negate p ns))) (snd (offset_plus_k n negate p ns)).
Proof.
  unfold offset_plus_k.
  pose proof (R_push_fields n p ns) as Hpush.
  destruct (push_if_analyzed n p ns) as [pa nsa]. simpl in Hpush.
  destruct n; simpl;
    repeat match goal with
    | |- context [if ?b then _ else _] => destruct b; simpl
    end;
    first [ apply R_fields; solve [eauto using same_ctl_refl, same_ctl_add_offset]
          | apply Hpush;
            solve [eauto using same_ctl_refl, same_ctl_trans, same_ctl_invar,
                     same_ctl_add_offset] ].
Qed.

Lemma preserved_scaled_iv_with rec n p ns :
  (forall in1 q ms,
     (n = ConvI2L in1 \/ n = CastII in1 \/ exists in2, n = LShiftL in1 in2) ->
     R q ms (snd (fst (rec in1 q ms))) (snd (rec in1 q ms))) ->
  R p ns (snd (fst (scaled_iv_with rec n p ns))) (snd (scaled_iv_with rec n p ns)).
Proof.
  intros Hrec. unfold scaled_iv_with.
  destruct (negb (_scale p =? 0)); [apply R_refl|].
  pose proof (R_push_fields n p ns) as Hpush.
  pose proof (R_push n p ns) as Hpush0.
  destruct (push_if_analyzed n p ns) as [pa nsa]. simpl in Hpush, Hpush0.
  destruct n; simpl;
    try (apply R_fields; solve [eauto using same_ctl_refl, same_ctl_set_scale]);
    try (apply Hpush; apply same_ctl_refl).
  - (* MulI *)
    repeat match goal with
    | |- context [if ?b then _ else _] => destruct b; simpl
    end; apply Hpush; solve [eauto using same_ctl_refl, same_ctl_set_scale].
  - (* LShiftI *)
    repeat match goal with
    | |- context [if ?b then _ else _] => destruct b; simpl
    end; apply Hpush; solve [eauto using same_ctl_refl, same_ctl_set_scale].
  - (* LShiftL *)
    destruct (is_Con n2); simpl; [|apply Hpush, same_ctl_refl].
    destruct (negb (has_iv pa)); simpl; [|apply Hpush, same_ctl_refl].
    pose proof (Hrec n1 (VPointer_tmp pa) nsa ltac:(right; right; eauto)) as Ht.
    destruct (rec n1 (VPointer_tmp pa) nsa) as [[ok tmp] ns1]. simpl in Ht.
    apply R_tmp in Ht.
    destruct ok; simpl.
    + eapply R_trans; [exact Hpush0|]. eapply R_trans; [exact Ht|].
      apply R_fields. apply (same_ctl_after_LShiftL pa tmp n2).
    + eapply R_trans; [exact Hpush0|exact Ht].
  - (* ConvI2L *)
    pose proof (Hrec n pa nsa ltac:(left; reflexivity)) as Ht.
    destruct (rec n pa nsa) as [[[|] p1] ns1]; simpl in *;
      eapply R_trans; eauto.
  - (* CastII *)
    pose proof (Hrec n pa nsa ltac:(right; left; reflexivity)) as Ht.
    destruct (rec n pa nsa) as [[[|] p1] ns1]; simpl in *;
      eapply R_trans; eauto.
Qed.

Ltac solve_rec :=
  let in1 := fresh "in1" in let q := fresh "q" in let ms := fresh "ms" in
  let Hin := fresh "Hin" in
  intros in1 q ms Hin;
  destruct Hin as [Hin|[Hin|[? Hin]]];
  try discriminate Hin; inversion Hin; subst; auto.

Lemma preserved_scaled_iv_plus_offset n : forall p ns,
  R p ns (snd (fst (scaled_iv_plus_offset n p ns))) (snd (scaled_iv_plus_offset n p ns)).
Proof.
  induction n; intros p ns;
    rewrite scaled_iv_plus_offset_eq;
    match goal with
    | |- context [scaled_iv ?m p ns] =>
        pose proof (preserved_scaled_iv_with scaled_iv_plus_offset m p ns) as Hcur;
        change (scaled_iv_with scaled_iv_plus_offset) with scaled_iv in Hcur
    end.
  all: match type of Hcur with ?A -> _ => assert (Hrec : A) by solve_rec end.
  all: specialize (Hcur Hrec); clear Hrec.
  all: match goal with
       | |- context [scaled_iv ?m ?q ?ms] =>
           destruct (scaled_iv m q ms) as [[[|] ?p] ?ns]; simpl in Hcur; cbv iota beta
       end;
    try exact Hcur;
    repeat first
      [ match goal with
        | Hc : R _ _ ?pc ?nsc |- context [offset_plus_k ?m ?neg ?pc ?nsc] =>
            let H := fresh in
            pose proof (preserved_offset_plus_k m neg pc nsc) as H;
            destruct (offset_plus_k m neg pc nsc) as [[[|] ?p] ?ns]; simpl in H;
            apply (R_trans _ _ _ _ _ _ Hc) in H; clear Hc; rename H into Hcur;
            cbv iota beta
        end
      | match goal with
        | Hc : R _ _ ?pc ?nsc,
          IH : forall p ns, R p ns (snd (fst (scaled_iv_plus_offset ?m p ns))) _
          |- context [scaled_iv_plus_offset ?m ?pc ?nsc] =>
            let H := fresh in
            pose proof (IH pc nsc) as H;
            destruct (scaled_iv_plus_offset m pc nsc) as [[[|] ?p] ?ns]; simpl in H;
            apply (R_trans _ _ _ _ _ _ Hc) in H; clear Hc; rename H into Hcur;
            cbv iota beta
        end ];
    simpl; try exact Hcur.
  all: (eapply R_trans; [exact Hcur|]); apply R_fields, same_ctl_set_scale.
Qed.

Lemma preserved_ctor_loop base adr : forall p ns,
  R p ns (snd (fst (ctor_loop base adr p ns))) (snd (ctor_loop base adr p ns)).
Proof.
  induction adr; intros p ns; simpl; try apply R_refl.
  pose proof (preserved_scaled_iv_plus_offset adr3 p ns) as H.
  destruct (scaled_iv_plus_offset adr3 p ns) as [[[|] p1] ns1]; simpl in *; [|exact H].
  destruct (Node_eqb base adr2 || negb (is_AddP adr2)); [exact H|].
  eapply R_trans; [exact H|apply IHadr2].
Qed.

End Preserved.

Lemma ctor_loop_stop base adr : forall p ns stop p' ns',
  ctor_loop base adr p ns = (Some stop, p', ns') ->
  is_AddP adr = true -> stop = base \/ is_AddP stop = false.
Proof.
  induction adr; intros p ns stop p' ns' H Ha; try discriminate.
  simpl in H.
  destruct (scaled_iv_plus_offset adr3 p ns) as [[[|] p1] ns1]; simpl in H; [|discriminate].
  destruct (Node_eqb base adr2) eqn:Eb; simpl in H.
  - injection H as <- <- <-. left. symmetry. now apply Node_eqb_eq.
  - destruct (is_AddP adr2) eqn:Ea; simpl in H.
    + eapply IHadr2; eauto.
    + injection H as <- <- <-. now right.
Qed.

(** The walk over the AddP layers leaves the base and the address of the
    object as they are. *)
Lemma ctor_loop_base base adr p ns :
  _base (snd (fst (ctor_loop base adr p ns))) = _base p /\
  _adr (snd (fst (ctor_loop base adr p ns))) = _adr p.
Proof.
  apply (preserved_ctor_loop
           (fun p _ p' _ => _base p' = _base p /\ _adr p' = _adr p)).
  - intros ? ? ? ? ? ? [? ?] [? ?]. split; congruence.
  - intros n q ms. unfold push_if_analyzed.
    destruct (_analyze_only q && is_loop_member n); split; reflexivity.
  - intros q q' ms (? & ? & _). auto.
  - intros. auto.
Qed.

(** X5. The constructor leaves a valid pointer only for an address that is
    an AddP with a base outside the loop (and not top, unless the platform
    supports misaligned vectors); the address at which the walk over the
    AddP layers has stopped is outside the loop too, is no AddP unless it
    is the base, and is the base unless the base is top. An invalid pointer
    has neither base nor address. *)
Theorem VPointer_new_valid mem_Address nstack analyze_only p ns :
  VPointer_new mem_Address nstack analyze_only = (p, ns) ->
  (valid p = true ->
   exists base address offset adr,
     mem_Address = AddP base address offset /\
     is_loop_member base = false /\
     (is_top base = true -> misaligned_vectors_ok = true) /\
     _base p = Some base /\ _adr p = Some adr /\
     is_loop_member adr = false /\
     (is_top base = false -> adr = base) /\
     (adr = base \/ is_AddP adr = false)) /\
  (valid p = false -> _base p = None /\ _adr p = None).
Proof.
  unfold VPointer_new.
  assert (Hnone : forall q : VPointer, _base q = None -> _adr q = None ->
            (valid q = true ->
             exists base address offset adr,
               mem_Address = AddP base address offset /\
               is_loop_member base = false /\
               (is_top base = true -> misaligned_vectors_ok = true) /\
               _base q = Some base /\ _adr q = Some adr /\
               is_loop_member adr = false /\
               (is_top base = false -> adr = base) /\
               (adr = base \/ is_AddP adr = false)) /\
            (valid q = false -> _base q = None /\ _adr q = None)).
  { intros q H1 H2. unfold valid. rewrite H2. split; [discriminate|auto]. }
  destruct mem_Address as [| | | | | | | | | | | | |base address offset|];
    try (intros [= <- <-]; now apply Hnone).
  destruct (is_loop_member base) eqn:Hb; [intros [= <- <-]; now apply Hnone|].
  destruct (is_top base && negb misaligned_vectors_ok) eqn:Ht;
    [intros [= <- <-]; now apply Hnone|].
  set (p0 := mkVPointer None None 0 0 None analyze_only 0).
  pose proof (ctor_loop_stop base (AddP base address offset) p0 nstack) as Hstop.
  pose proof (ctor_loop_base base (AddP base address offset) p0 nstack) as Hinv.
  destruct (ctor_loop base (AddP base address offset) p0 nstack)
    as [[[stop|] p1] ns1]; simpl in Hinv; destruct Hinv as [Hi1 Hi2];
    [|intros [= <- <-]; now apply Hnone].
  specialize (Hstop _ _ _ eq_refl eq_refl).
  destruct (is_loop_member stop) eqn:Hm; [intros [= <- <-]; now apply Hnone|].
  destruct (negb (is_top base) && negb (Node_eqb stop base)) eqn:Hd;
    [intros [= <- <-]; now apply Hnone|].
  intros [= <- <-]. split; [|discriminate]. intros _.
  exists base, address, offset, stop. repeat split; auto.
  - intros Et. rewrite Et in Ht. simpl in Ht. now apply negb_false_iff in Ht.
  - intros Et. rewrite Et in Hd. simpl in Hd. apply negb_false_iff in Hd.
    now apply Node_eqb_eq.
Qed.

(** What a call does to the shared stack: it appends loop members, and
    nothing unless the object is in analyze-only mode, which it stays in
    or out of. *)
Definition stack_grows (p : VPointer) (ns : Node_Stack) (p' : VPointer)
    (ns' : Node_Stack) : Prop :=
  _analyze_only p' = _analyze_only p /\
  exists l, ns' = ns ++ l /\
    Forall (fun e => is_loop_member (fst e) = true) l /\
    (_analyze_only p = false -> l = [] /\ _stack_idx p' = _stack_idx p).

Lemma stack_grows_trans p ns p1 ns1 p2 ns2 :
  stack_grows p ns p1 ns1 -> stack_grows p1 ns1 p2 ns2 -> stack_grows p ns p2 ns2.
Proof.
  intros (E1 & l1 & -> & F1 & H1) (E2 & l2 & -> & F2 & H2).
  split; [congruence|]. exists (l1 ++ l2). split; [now rewrite app_assoc|].
  split; [now apply Forall_app|].
  intros Ha. destruct (H1 Ha) as [-> Ei]. rewrite E1 in H2.
  destruct (H2 Ha) as [-> Ei']. split; [reflexivity|congruence].
Qed.

Lemma stack_grows_push n p ns :
  stack_grows p ns (fst (push_if_analyzed n p ns)) (snd (push_if_analyzed n p ns)).
Proof.
  unfold push_if_analyzed.
  destruct (_analyze_only p && is_loop_member n) eqn:E; simpl.
  - apply andb_true_iff in E. destruct E as [Ea Em].
    split; [reflexivity|]. exists [(n, _stack_idx p)].
    split; [reflexivity|]. split; [repeat constructor; exact Em|].
    intros Hf. rewrite Ea in Hf. discriminate.
  - split; [reflexivity|]. exists []. rewrite app_nil_r. repeat split; auto.
Qed.

Lemma stack_grows_fields p p' ns : same_ctl p p' -> stack_grows p ns p' ns.
Proof.
  intros (_ & _ & Ea & Ei). split; [exact Ea|].
  exists []. rewrite app_nil_r. repeat split; auto.
Qed.

Lemma stack_grows_tmp p ns tmp ns' :
  stack_grows (VPointer_tmp p) ns tmp ns' -> stack_grows p ns p ns'.
Proof.
  intros (_ & l & -> & F & H). split; [reflexivity|].
  exists l. repeat split; auto. now apply H.
Qed.

(** X6. The matcher and the constructor only ever append to the shared
    node stack, and what they append are loop members; outside the
    analyze-only mode they leave the stack and the stack index alone. *)
Theorem matcher_stack_discipline :
  (forall n p ns,
     stack_grows p ns (snd (fst (scaled_iv_plus_offset n p ns)))
                 (snd (scaled_iv_plus_offset n p ns))) /\
  (forall n negate p ns,
     stack_grows p ns (snd (fst (offset_plus_k n negate p ns)))
                 (snd (offset_plus_k n negate p ns))) /\
  (forall mem_Address nstack analyze_only,
     exists l,
       snd (VPointer_new mem_Address nstack analyze_only) = nstack ++ l /\
       Forall (fun e => is_loop_member (fst e) = true) l /\
       (analyze_only = false -> l = [])).
Proof.
  pose proof stack_grows_trans as Ht. pose proof stack_grows_push as Hp.
  pose proof stack_grows_fields as Hf. pose proof stack_grows_tmp as Hm.
  split; [|split].
  - intros n p ns. now apply (preserved_scaled_iv_plus_offset stack_grows).
  - intros n negate p ns. now apply (preserved_offset_plus_k stack_grows).
  - intros mem_Address nstack analyze_only.
    assert (Hnil : exists l : Node_Stack, nstack = nstack ++ l /\
              Forall (fun e => is_loop_member (fst e) = true) l /\
              (analyze_only = false -> l = [])).
    { exists []. rewrite app_nil_r. auto. }
    unfold VPointer_new.
    destruct mem_Address as [| | | | | | | | | | | | |base address offset|]; simpl;
      try exact Hnil.
    destruct (is_loop_member base); simpl; [exact Hnil|].
    destruct (is_top base && negb misaligned_vectors_ok); simpl; [exact Hnil|].
    set (p0 := mkVPointer None None 0 0 None analyze_only 0).
    pose proof (preserved_ctor_loop stack_grows Ht Hp Hf Hm base
                  (AddP base address offset) p0 nstack) as (_ & l & El & Fl & Hl).
    change (ctor_loop base (AddP base address offset) p0 nstack)
      with (let '(ok, p1, ns1) := scaled_iv_plus_offset offset p0 nstack in
            if negb ok then (None, p1, ns1)
            else if Node_eqb base address || negb (is_AddP address)
                 then (Some address, p1, ns1)
                 else ctor_loop base address p1 ns1) in *.
    assert (Hres : exists l : Node_Stack,
              snd (ctor_loop base (AddP base address offset) p0 nstack) = nstack ++ l /\
              Forall (fun e => is_loop_member (fst e) = true) l /\
              (analyze_only = false -> l = [])).
    { exists l. repeat split; auto. intros Ha. now apply Hl. }
    simpl in Hres.
    destruct (let '(ok, p1, ns1) := scaled_iv_plus_offset offset p0 nstack in
              if negb ok then (None, p1, ns1)
              else if Node_eqb base address || negb (is_AddP address)
                   then (Some address, p1, ns1)
                   else ctor_loop base address p1 ns1) as [[[stop|] p1] ns1];
      simpl in *; [|exact Hres].
    destruct (is_loop_member stop); simpl; [exact Hres|].
    destruct (negb (is_top base) && negb (Node_eqb stop base)); exact Hres.
Qed.
(** *** Further properties: the meaning of what is matched *)

(** The value of a node at run time, for a value of the induction variable
    and values of the other leaves. The opcodes compute in Java's int and
    long arithmetic: results wrap around, an int shift uses the low 5 bits
    of its count and a long shift the low 6 bits. *)
Definition wrap_long (z : Z) : Z :=
  (z + 9223372036854775808) mod 18446744073709551616 - 9223372036854775808.

Fixpoint eval (iv : Z) (leaf : nat -> Z) (n : Node) : Z :=
  match n with
  | Iv => iv
  | Top => 0
  | ConI v | ConL v => v
  | AddI a b => wrap (eval iv leaf a + eval iv leaf b)
  | AddL a b => wrap_long (eval iv leaf a + eval iv leaf b)
  | SubI a b => wrap (eval iv leaf a - eval iv leaf b)
  | SubL a b => wrap_long (eval iv leaf a - eval iv leaf b)
  | MulI a b => wrap (eval iv leaf a * eval iv leaf b)
  | LShiftI a b => wrap (eval iv leaf a * 2 ^ Z.land (eval iv leaf b) 31)
  | LShiftL a b => wrap_long (eval iv leaf a * 2 ^ Z.land (eval iv leaf b) 63)
  | ConvI2L a | CastII a => eval iv leaf a
  | AddP _ address offset => wrap_long (eval iv leaf address + eval iv leaf offset)
  | Other idx _ => leaf idx
  end.

(** The value of the invariant of an object (0 without one), and the value
    of the form [scale * iv + offset + invar] that the object stands for. *)
Definition invar_value (iv : Z) (leaf : nat -> Z) (p : VPointer) : Z :=
  match _invar p with Some i => eval iv leaf i | None => 0 end.
Definition form_value (iv : Z) (leaf : nat -> Z) (p : VPointer) : Z :=
  _scale p * iv + _offset p + invar_value iv leaf p.

(** Equality modulo [2^32]: of the low 32 bits. *)
Definition eqm (a b : Z) : Prop := a mod 4294967296 = b mod 4294967296.

#[local] Instance eqm_equiv : Equivalence eqm.
Proof.
  split; unfold eqm.
  - intros x. reflexivity.
  - intros x y H. now symmetry.
  - intros x y z H1 H2. congruence.
Qed.

#[local] Instance eqm_add : Proper (eqm ==> eqm ==> eqm) Z.add.
Proof.
  intros a a' Ha b b' Hb. unfold eqm in *.
  rewrite (Z.add_mod a), (Z.add_mod a') by lia. now rewrite Ha, Hb.
Qed.

#[local] Instance eqm_sub : Proper (eqm ==> eqm ==> eqm) Z.sub.
Proof.
  intros a a' Ha b b' Hb. unfold eqm in *.
  rewrite (Zminus_mod a), (Zminus_mod a'). now rewrite Ha, Hb.
Qed.

#[local] Instance eqm_mul : Proper (eqm ==> eqm ==> eqm) Z.mul.
Proof.
  intros a a' Ha b b' Hb. unfold eqm in *.
  rewrite (Z.mul_mod a), (Z.mul_mod a') by lia. now rewrite Ha, Hb.
Qed.

#[local] Instance eqm_opp : Proper (eqm ==> eqm) Z.opp.
Proof.
  intros a a' Ha. replace (- a) with (0 - a) by ring. replace (- a') with (0 - a') by ring.
  apply eqm_sub; [reflexivity|exact Ha].
Qed.

Lemma eqm_wrap z : eqm (wrap z) z.
Proof.
  unfold eqm, wrap.
  rewrite Zminus_mod, Z.mod_mod by lia.
  rewrite <- Zminus_mod. f_equal. ring.
Qed.

Lemma eqm_wrap_long z : eqm (wrap_long z) z.
Proof.
  unfold eqm, wrap_long.
  pose proof (Z.div_mod (z + 9223372036854775808) 18446744073709551616 ltac:(lia)) as H.
  replace ((z + 9223372036854775808) mod 18446744073709551616 - 9223372036854775808)
    with (z + (- ((z + 9223372036854775808) / 18446744073709551616) * 4294967296) * 4294967296)
    by lia.
  apply Z.mod_add. lia.
Qed.

Lemma eqm_eq a b : a = b -> eqm a b.
Proof. intros ->. reflexivity. Qed.

Lemma eqm_add_jint a b : eqm (add a b) (a + b).
Proof. apply eqm_wrap. Qed.

Lemma eqm_neg a : eqm (neg a) (- a).
Proof. apply eqm_wrap. Qed.

Lemma eqm_shl a c : eqm (shl a c) (a * 2 ^ Z.land c 31).
Proof.
  unfold shl. rewrite eqm_wrap, Z.shiftl_mul_pow2; [reflexivity|].
  apply Z.land_nonneg. right. lia.
Qed.

(** What the invariant of an object is worth after an aggregation. *)
Lemma invar_value_add iv leaf x negate p :
  eqm (invar_value iv leaf (maybe_add_to_invar x negate p))
      (invar_value iv leaf p + (if negate then - eval iv leaf x else eval iv leaf x)).
Proof.
  assert (Hneg : eqm (eval iv leaf (maybe_negate_invar negate x))
                     (if negate then - eval iv leaf x else eval iv leaf x)).
  { unfold maybe_negate_invar, register_if_new.
    destruct negate; [|reflexivity].
    destruct (basic_type x); simpl; rewrite ?eqm_wrap, ?eqm_wrap_long;
      apply eqm_eq; ring. }
  unfold maybe_add_to_invar, invar_value.
  destruct (_invar p) as [cur|]; simpl; [|now rewrite Hneg].
  rewrite <- Hneg. unfold register_if_new.
  destruct (basic_type (maybe_negate_invar negate x)), (basic_type cur); simpl;
    rewrite ?eqm_wrap, ?eqm_wrap_long; reflexivity.
Qed.

Lemma form_value_push iv leaf n p ns :
  form_value iv leaf (fst (push_if_analyzed n p ns)) = form_value iv leaf p.
Proof.
  unfold push_if_analyzed. destruct (_analyze_only p && is_loop_member n); reflexivity.
Qed.

Lemma form_value_add iv leaf x negate p :
  eqm (form_value iv leaf (maybe_add_to_invar x negate p))
      (form_value iv leaf p + (if negate then - eval iv leaf x else eval iv leaf x)).
Proof.
  unfold form_value.
  rewrite scale_maybe_add_to_invar, offset_maybe_add_to_invar, invar_value_add.
  apply eqm_eq. ring.
Qed.

Lemma form_value_offset iv leaf p negate k :
  eqm (form_value iv leaf (add_offset p negate k))
      (form_value iv leaf p + (if negate then - k else k)).
Proof.
  unfold form_value, add_offset, invar_value. simpl.
  rewrite eqm_add_jint. destruct negate; rewrite ?eqm_neg; apply eqm_eq; ring.
Qed.

(** In a typed graph the inputs of an int operation are ints, so that a
    constant among them is an int constant; a constant count of a long shift
    is an int constant too, here below 32 (the matcher shifts ints by it). *)
Definition int_input (n : Node) : Prop :=
  match n with ConL _ => False | _ => True end.

Fixpoint typed (n : Node) : Prop :=
  match n with
  | AddI a b | SubI a b | MulI a b | LShiftI a b =>
      int_input a /\ int_input b /\ typed a /\ typed b
  | LShiftL a b =>
      typed a /\ match b with ConI c => 0 <= c < 32 | ConL _ => False | _ => True end
  | AddL a b | SubL a b => typed a /\ typed b
  | ConvI2L a | CastII a => typed a
  | AddP _ address offset => typed address /\ typed offset
  | _ => True
  end.

Lemma get_int_eval iv leaf c :
  is_Con c = true -> int_input c -> get_int c = eval iv leaf c.
Proof. destruct c; simpl; try discriminate; [reflexivity|contradiction]. Qed.

(** X7. What [offset_plus_k] accepts it accounts for: after a successful
    call the form [scale * iv + offset + invar] of the object has grown by
    the value of the node (or shrunk by it, under [negate]), modulo [2^32];
    the scale is untouched. *)
Theorem offset_plus_k_sound iv leaf n negate p ns p' ns' :
  typed n ->
  offset_plus_k n negate p ns = (true, p', ns') ->
  eqm (form_value iv leaf p')
      (form_value iv leaf p + (if negate then - eval iv leaf n else eval iv leaf n)) /\
  _scale p' = _scale p.
Proof.
  intros Hty H. split; [|rewrite <- (offset_plus_k_scale n negate p ns), H; reflexivity].
  revert H. unfold offset_plus_k.
  pose proof (form_value_push iv leaf n p ns) as Hpush.
  destruct (push_if_analyzed n p ns) as [pa nsa]. simpl in Hpush. rewrite <- Hpush.
  assert (Hlast : forall m, eval iv leaf m = eval iv leaf n ->
            (if invariant m then (true, maybe_add_to_invar m negate pa, nsa)
             else (false, pa, nsa)) = (true, p', ns') ->
            eqm (form_value iv leaf p')
                (form_value iv leaf pa +
                 (if negate then - eval iv leaf n else eval iv leaf n))).
  { intros m Em Hm. destruct (invariant m); [|discriminate].
    injection Hm as <- <-. rewrite form_value_add, Em. reflexivity. }
  destruct n; simpl;
    try (destruct (negb (is_loop_member _)); [|discriminate]; now apply Hlast).
  - (* ConI *) intros [= <- <-]. rewrite Hpush. apply form_value_offset.
  - (* ConL *) destruct ((min_jint <=? value) && (value <=? max_jint)); [|discriminate].
    intros [= <- <-]. rewrite Hpush. apply form_value_offset.
  - (* AddI *)
    destruct Hty as (I1 & I2 & _ & _).
    destruct (is_Con n2 && invariant n1) eqn:E1.
    { apply andb_true_iff in E1. destruct E1 as [C _].
      intros [= <- <-]. rewrite form_value_offset, form_value_add.
      rewrite (get_int_eval iv leaf n2 C I2).
      destruct negate; rewrite eqm_wrap; apply eqm_eq; ring. }
    destruct (is_Con n1 && invariant n2) eqn:E2.
    { apply andb_true_iff in E2. destruct E2 as [C _].
      intros [= <- <-]. rewrite form_value_add, form_value_offset.
      rewrite (get_int_eval iv leaf n1 C I1).
      destruct negate; rewrite eqm_wrap; apply eqm_eq; ring. }
    destruct (negb (is_loop_member _)); [|discriminate]. now apply Hlast.
  - (* SubI *)
    destruct Hty as (I1 & I2 & _ & _).
    destruct (is_Con n2 && invariant n1) eqn:E1.
    { apply andb_true_iff in E1. destruct E1 as [C _].
      intros [= <- <-]. rewrite form_value_offset, form_value_add.
      rewrite (get_int_eval iv leaf n2 C I2).
      destruct negate; simpl; rewrite eqm_wrap; apply eqm_eq; ring. }
    destruct (is_Con n1 && invariant n2) eqn:E2.
    { apply andb_true_iff in E2. destruct E2 as [C _].
      intros [= <- <-]. rewrite form_value_add, form_value_offset.
      rewrite (get_int_eval iv leaf n1 C I1).
      destruct negate; simpl; rewrite eqm_wrap; apply eqm_eq; ring. }
    destruct (negb (is_loop_member _)); [|discriminate]. now apply Hlast.
  - (* ConvI2L *)
    destruct (negb (is_loop_member _)); [|discriminate].
    destruct n; now apply Hlast.
Qed.


End Matcher.

(** *** The matcher at work *)

(** A loop whose members are the nodes computed from the induction
    variable. *)
Fixpoint uses_iv (n : Node) : bool :=
  match n with
  | Iv => true
  | Top | ConI _ | ConL _ | Other _ _ => false
  | AddI a b | AddL a b | SubI a b | SubL a b
  | MulI a b | LShiftI a b | LShiftL a b => uses_iv a || uses_iv b
  | ConvI2L a | CastII a => uses_iv a
  | AddP a b c => uses_iv a || uses_iv b || uses_iv c
  end.

(** The address of [a[i + 1]] in an int array with a header of 16 bytes:
    [AddP(a, AddP(a, a, ConvI2L(i + 1) << 2), 16)]. *)
Definition array_a : Node := Other 1 T_LONG.
Definition index_plus_1 : Node := ConvI2L (AddI Iv (ConI 1)).
Definition address_a_i_plus_1 : Node :=
  AddP array_a (AddP array_a array_a (LShiftL index_plus_1 (ConI 2))) (ConL 16).

Example VPointer_a_i_plus_1 :
  VPointer_new uses_iv false (fun _ => true) true address_a_i_plus_1 [] false
  = (mkVPointer (Some array_a) (Some array_a) 4 20 None false 0, []).
Proof. reflexivity. Qed.

(** With an invariant in the index, [a[i + x + 1]]: the invariant is
    aggregated under the shift. *)
Example VPointer_a_i_plus_x_plus_1 :
  VPointer_new uses_iv false (fun _ => true) true
    (AddP array_a
       (AddP array_a array_a
          (LShiftL (ConvI2L (AddI (AddI Iv (Other 5 T_INT)) (ConI 1))) (ConI 2)))
       (ConL 16)) [] false
  = (mkVPointer (Some array_a) (Some array_a) 4 20
       (Some (LShiftI (Other 5 T_INT) (ConI 2))) false 0, []).
Proof. reflexivity. Qed.

Example invar_factor_a_i_plus_x_plus_1 :
  invar_factor (mkVPointer (Some array_a) (Some array_a) 4 20
                  (Some (LShiftI (Other 5 T_INT) (ConI 2))) false 0) = 4.
Proof. reflexivity. Qed.

(** C7 as stated fails: in the construction of the pointer of [a[i + 1]],
    the outer AddP has contributed the offset 16 when [scaled_iv] meets
    [ConvI2L(i + 1) << 2]. The subtree has scale 1 and offset 1; the form
    is accepted, the scale is set to [1 * 2^2], but the offset is
    [16 + 1 * 2^2 = 20] and not [1 * 2^2]. *)
Definition after_header : VPointer := mkVPointer None None 0 16 None false 0.





Definition pointer_a_i_plus_1 : VPointer :=
  mkVPointer (Some array_a) (Some array_a) 4 20 None false 0.

Lemma VPointer_new_valid_witness :
  (valid pointer_a_i_plus_1 = true ->
   exists base address offset adr,
     address_a_i_plus_1 = AddP base address offset /\
     uses_iv base = false /\
     (is_top base = true -> true = true) /\
     _base pointer_a_i_plus_1 = Some base /\ _adr pointer_a_i_plus_1 = Some adr /\
     uses_iv adr = false /\
     (is_top base = false -> adr = base) /\
     (adr = base \/ is_AddP adr = false)) /\
  (valid pointer_a_i_plus_1 = false ->
   _base pointer_a_i_plus_1 = None /\ _adr pointer_a_i_plus_1 = None).
Proof.
  apply (VPointer_new_valid uses_iv false (fun _ => true) true address_a_i_plus_1
           [] false pointer_a_i_plus_1 []).
  reflexivity.
Defined.

(** [x + 3] for an invariant [x], after a header of 16 bytes: the offset
    grows by 3 and [x] becomes the invariant. *)
Definition after_x_plus_3 : VPointer :=
  mkVPointer None None 0 19 (Some (Other 5 T_INT)) false 0.

Lemma offset_plus_k_sound_witness :
  eqm (form_value 7 (fun _ => 10) after_x_plus_3)
      (form_value 7 (fun _ => 10) after_header
       + eval 7 (fun _ => 10) (AddI (Other 5 T_INT) (ConI 3))) /\
  _scale after_x_plus_3 = _scale after_header.
Proof.
  apply (offset_plus_k_sound uses_iv false (fun _ => true) 7 (fun _ => 10)
           (AddI (Other 5 T_INT) (ConI 3)) false after_header [] after_x_plus_3 []).
  - simpl. auto.
  - reflexivity.
Defined.

End Pointer.

(** ** VLoopDependenceGraph *)

Module DepGraph.
Local Open Scope Z_scope.

(** An IR node is known by its index [_idx]. *)
Definition Node : Type := nat.

(** The nodes of the dependence graph: the root and the sink, the sink of
    each slice (made by [make_node(nullptr)]), and the node of a memory
    node, which [get_node] finds in the map filled by the first loop of
    [build]. *)
Inductive DependenceNode : Type :=
| Root
| Sink
| SliceSink (slice : nat)
| Mem (node : Node).

#[global] Instance DependenceNode_eq_dec : EqDecision DependenceNode.
Proof. solve_decision. Defined.

(** [DependenceNode::node()]: null for the root and the sinks. *)
Definition node_of (d : DependenceNode) : option Node :=
  match d with Mem n => Some n | _ => None end.

(** An edge is [(pred, succ)]; the graph lists its edges, the latest first,
    so that the edges into a node are in the order of its [in_head] list. *)
Definition DependenceEdge : Type := DependenceNode * DependenceNode.
Definition Graph : Type := list DependenceEdge.

Definition make_edge (g : Graph) (dpred dsucc : DependenceNode) : Graph :=
  (dpred, dsucc) :: g.

Definition in_edges (g : Graph) (d : DependenceNode) : list DependenceEdge :=
  filter (fun e => e.2 = d) g.

Definition in_cnt (g : Graph) (d : DependenceNode) : nat := length (in_edges g d).

(** [MemNode::Address], the index of the address input. *)
Definition MemNode_Address : nat := 2.

Section Loop.

(** What the analysis asks of the IR and of the earlier passes: the kind of
    a node, its inputs [in(0) .. in(req - 1)] (null inputs are [None]),
    membership in the body of the loop, the body in reverse postorder with
    the position map of [VLoopBody], the heads and tails of the memory
    slices with [get_slice], and the comparison of the pointers of two
    memory nodes ([VPointer::cmp], [VPointer::not_equal]). *)
Variable is_Load is_Store is_Mem is_Phi : Node -> bool.
Variable inputs : Node -> list (option Node).
Variable in_body : Node -> bool.
Variable body : list Node.
Variable body_idx : Node -> nat.
Variable heads tails : list Node.
Variable get_slice : Node -> Node -> list Node.
Variable cmp : Node -> Node -> Z.
Variable not_equal : Z -> bool.

(** *** build *)

(** The inner loop of [build], [for (k = j - 1; k >= 0; k--)], entered with
    the count [j] of indices still to visit. *)
Fixpoint build_pairs (slice_nodes : list Node) (s1 : Node) (k : nat)
    (g : Graph) (sink_dependent : bool) : Graph * bool :=
  match k with
  | O => (g, sink_dependent)
  | S k =>
      match slice_nodes !! k with
      | Some s2 =>
          if is_Load s1 && is_Load s2 then
            build_pairs slice_nodes s1 k g sink_dependent
          else if negb (not_equal (cmp s1 s2)) then
            (* Possibly same address *)
            build_pairs slice_nodes s1 k (make_edge g (Mem s1) (Mem s2)) false
          else build_pairs slice_nodes s1 k g sink_dependent
      | None => build_pairs slice_nodes s1 k g sink_dependent
      end
  end.

(** The loop over the slice, [for (j = length - 1; j >= 0; j--)]. *)
Fixpoint build_slice (slice_nodes : list Node)
    (slice_head slice_sink : DependenceNode) (j : nat) (g : Graph) : Graph :=
  match j with
  | O => g
  | S j =>
      match slice_nodes !! j with
      | Some s1 =>
          (* If no dependency yet, use slice_head *)
          let g := if Nat.eqb (in_cnt g (Mem s1)) 0
                   then make_edge g slice_head (Mem s1) else g in
          let '(g, sink_dependent) := build_pairs slice_nodes s1 j g true in
          let g := if sink_dependent then make_edge g (Mem s1) slice_sink else g in
          build_slice slice_nodes slice_head slice_sink j g
      | None => build_slice slice_nodes slice_head slice_sink j g
      end
  end.

(** The loop over the memory slices, from slice [i] on. *)
Fixpoint build_slices (i : nat) (mem_slice_head mem_slice_tail : list Node)
    (g : Graph) : Graph :=
  match mem_slice_head, mem_slice_tail with
  | head :: mem_slice_head, tail :: mem_slice_tail =>
      (* Get slice in predecessor order (last is first) *)
      let slice_nodes := get_slice head tail in
      (* Make the slice dependent on the root *)
      let slice_head := Mem head in
      let g := make_edge g Root slice_head in
      (* Create a sink for the slice *)
      let slice_sink := SliceSink i in
      let g := make_edge g slice_sink Sink in
      let g := build_slice slice_nodes slice_head slice_sink (length slice_nodes) g in
      build_slices (S i) mem_slice_head mem_slice_tail g
  | _, _ => g
  end.

Definition build_edges : Graph := build_slices 0 heads tails [].

(** *** PredsIterator *)

(** The predecessors that a [PredsIterator] of [n] yields, in its order:
    the memory predecessors, then the data inputs. *)
Definition PredsIterator (g : Graph) (n : Node) : list (option Node) :=
  let dep := map (fun e => node_of e.1) (in_edges g (Mem n)) in
  if is_Store n || is_Load n then
    (* Load: only memory dependencies; Store: memory dependence and data input *)
    dep ++ drop MemNode_Address (inputs n)
  else if is_Mem n then dep
  else
    (* Data node: only has its own edges *)
    drop 1 (inputs n).

(** *** compute_max_depth *)

(** The array [_depth], read and written at the position of a node in the
    body. *)
Definition depth (d : list Z) (n : Node) : Z := default 0 (d !! body_idx n).
Definition set_depth (d : list Z) (n : Node) (v : Z) : list Z :=
  <[body_idx n := v]> d.

(** [d_in] after the loop over the predecessors of [n]. *)
Definition d_in_step (d : list Z) (d_in : Z) (pred : option Node) : Z :=
  match pred with
  | Some p => if in_body p then Z.max d_in (depth d p) else d_in
  | None => d_in
  end.
Definition max_pred_depth (g : Graph) (d : list Z) (n : Node) : Z :=
  fold_left (d_in_step d) (PredsIterator g n) 0.

(** One pass of the [for] loop over the body (the rest [ns] of it). *)
Fixpoint depth_pass (g : Graph) (ns : list Node) (d : list Z) (again : bool)
  : list Z * bool :=
  match ns with
  | [] => (d, again)
  | n :: ns =>
      if negb (is_Phi n) then
        let d_orig := depth d n in
        let d_in := max_pred_depth g d n in
        if negb (d_in + 1 =? d_orig) then
          depth_pass g ns (set_depth d n (d_in + 1)) true
        else depth_pass g ns d again
      else depth_pass g ns d again
  end.

(** The [do ... while (again)] loop, for at most [fuel] passes. *)
Fixpoint depth_loop (g : Graph) (fuel : nat) (d : list Z) : option (list Z) :=
  match fuel with
  | O => None
  | S fuel =>
      let '(d, again) := depth_pass g body d false in
      if again then depth_loop g fuel d else Some d
  end.

(** [compute_max_depth]: all depths are set to zero first. The depths are
    counted exactly: a depth is at most the number of assignments made, far
    from the limit of an int. *)
Definition compute_max_depth (g : Graph) (fuel : nat) : option (list Z) :=
  depth_loop g fuel (replicate (length body) 0).

(** [build]: the edges, and the depths if the depth loop ends within
    [fuel] passes. *)
Definition build (fuel : nat) : Graph * option (list Z) :=
  let g := build_edges in (g, compute_max_depth g fuel).

(** *** independent and mutually_independent *)

(** [Unique_Node_List::push]. *)
Definition push (worklist : list Node) (n : Node) : list Node :=
  if bool_decide (n ∈ worklist) then worklist else worklist ++ [n].

(** The loop over the predecessors of one node of the worklist: nothing
    when a searched node is found, else the worklist with the pushes. *)
Fixpoint visit_preds (d : list Z) (min_d : Z) (found : Node -> bool)
    (preds : list (option Node)) (worklist : list Node) : option (list Node) :=
  match preds with
  | [] => Some worklist
  | pred :: preds =>
      match pred with
      | Some p =>
          if in_body p && (depth d p >=? min_d) then
            if found p then None
            else visit_preds d min_d found preds (push worklist p)
          else visit_preds d min_d found preds worklist
      | None => visit_preds d min_d found preds worklist
      end
  end.

(** The loop [for (i = 0; i < worklist.size(); i++)], from index [i], for
    at most [fuel] iterations: true when the loop ends without finding a
    searched node, false when one is found. *)
Fixpoint traverse (g : Graph) (d : list Z) (min_d : Z) (found : Node -> bool)
    (fuel : nat) (i : nat) (worklist : list Node) : option bool :=
  match fuel with
  | O => None
  | S fuel =>
      match worklist !! i with
      | None => Some true
      | Some n =>
          match visit_preds d min_d found (PredsIterator g n) worklist with
          | None => Some false
          | Some worklist => traverse g d min_d found fuel (S i) worklist
          end
      end
  end.

Definition independent (g : Graph) (d : list Z) (fuel : nat) (s1 s2 : Node)
  : option bool :=
  let d1 := depth d s1 in
  let d2 := depth d s2 in
  if d1 =? d2 then
    (* Same depth: same node -> dependent, different nodes -> no path *)
    Some (negb (Nat.eqb s1 s2))
  else
    (* Traversal starting at the deeper node to find the shallower one. *)
    let deep := if d1 >? d2 then s1 else s2 in
    let shallow := if d1 >? d2 then s2 else s1 in
    let min_d := Z.min d1 d2 in
    traverse g d min_d (fun pred => Nat.eqb pred shallow) fuel 0 (push [] deep).

(** The first loop of [mutually_independent]: the least depth, the
    worklist and the set of body positions of the nodes. *)
Fixpoint start_all (d : list Z) (nodes : list Node) (min_d : Z)
    (worklist : list Node) (nodes_set : list nat) : Z * list Node * list nat :=
  match nodes with
  | [] => (min_d, worklist, nodes_set)
  | n :: nodes =>
      start_all d nodes (Z.min min_d (depth d n)) (push worklist n)
                (body_idx n :: nodes_set)
  end.

Definition mutually_independent (g : Graph) (d : list Z) (fuel : nat)
    (nodes : list Node) : option bool :=
  match nodes with
  | [] => None     (* nodes->at(0) of an empty list *)
  | n0 :: _ =>
      let '(min_d, worklist, nodes_set) := start_all d nodes (depth d n0) [] [] in
      traverse g d min_d (fun pred => bool_decide (body_idx pred ∈ nodes_set))
               fuel 0 worklist
  end.

(** *** The properties *)

(** The depth equation at a node. *)
Definition depth_ok (g : Graph) (d : list Z) (n : Node) : Prop :=
  depth d n = 1 + max_pred_depth g d n.

(** [m] is the greatest depth of an in-body predecessor of [n], or 0 when
    there is none. *)
Definition is_max_pred_depth (g : Graph) (d : list Z) (n : Node) (m : Z) : Prop :=
  (forall p, Some p ∈ PredsIterator g n -> in_body p = true -> depth d p <= m) /\
  ((exists p, Some p ∈ PredsIterator g n /\ in_body p = true /\ depth d p = m) \/
   ((forall p, Some p ∈ PredsIterator g n -> in_body p = false) /\ m = 0)).

Definition nonneg (d : list Z) : Prop := Forall (fun x => 0 <= x) d.

(** The body is ordered like the graph: the in-body predecessors of a
    non-phi node are phis or come before the node in the body. *)
Definition topological (g : Graph) : Prop :=
  forall pre n post, body = pre ++ n :: post -> is_Phi n = false ->
  forall p, Some p ∈ PredsIterator g n -> in_body p = true ->
    is_Phi p = true \/ p ∈ pre.

(** One step of the backward traversal pruned below [min_d]. *)
Definition step (g : Graph) (d : list Z) (min_d : Z) (n p : Node) : Prop :=
  Some p ∈ PredsIterator g n /\ in_body p = true /\ min_d <= depth d p.

(** The state of the traversal loop before iteration [i]. *)
Record inv (g : Graph) (d : list Z) (min_d : Z) (found : Node -> bool)
    (sources : list Node) (i : nat) (w : list Node) : Prop := {
  inv_nodup : NoDup w;
  inv_sources : forall s, s ∈ sources -> s ∈ w;
  inv_universe : forall x, x ∈ w -> x ∈ sources ++ body;
  inv_reach : forall x, x ∈ w -> exists s, s ∈ sources /\ rtc (step g d min_d) s x;
  inv_done : forall j n, (j < i)%nat -> w !! j = Some n ->
             forall p, step g d min_d n p -> found p = false /\ p ∈ w
}.

(** A worklist that holds the sources and, with a node, all the nodes that
    the traversal pushes for it, none of which is searched. *)
Definition closed (g : Graph) (d : list Z) (min_d : Z) (found : Node -> bool)
    (sources w : list Node) : Prop :=
  (forall s, s ∈ sources -> s ∈ w) /\
  (forall n, n ∈ w -> forall p, step g d min_d n p -> found p = false /\ p ∈ w).

(** *** Proofs: build *)

Lemma in_cnt_zero g d : in_cnt g d = 0%nat <-> forall e, e ∈ g -> e.2 <> d.
Proof.
  unfold in_cnt, in_edges. split.
  - intros H e He Hd. apply length_zero_iff_nil in H.
    assert (Hin : e ∈ filter (fun e => e.2 = d) g)
      by (apply list_elem_of_filter; auto).
    rewrite H in Hin. now apply elem_of_nil in Hin.
  - intros H. apply length_zero_iff_nil.
    apply elem_of_nil_inv. intros e He.
    apply list_elem_of_filter in He. destruct He as [Hd He]. exact (H e He Hd).
Qed.

Lemma in_cnt_pos g d : in_cnt g d <> 0%nat -> exists dp, (dp, d) ∈ g.
Proof.
  unfold in_cnt, in_edges. intros H.
  destruct (filter (fun e => e.2 = d) g) as [|[dp ds] l] eqn:E; [contradiction|].
  assert (Hin : (dp, ds) ∈ filter (fun e => e.2 = d) g) by (rewrite E; left).
  apply list_elem_of_filter in Hin. destruct Hin as [Hd Hin]. simpl in Hd. subst ds.
  eauto.
Qed.

Lemma build_pairs_incl slice s1 k : forall g sd e,
  e ∈ g -> e ∈ (build_pairs slice s1 k g sd).1.
Proof.
  induction k as [|k IH]; intros g sd e He; simpl; [exact He|].
  destruct (slice !! k) as [s2|]; [|now apply IH].
  destruct (is_Load s1 && is_Load s2); [now apply IH|].
  destruct (negb (not_equal (cmp s1 s2))); apply IH; [right|]; exact He.
Qed.

Lemma build_pairs_edge slice s1 k : forall g sd k' s2,
  (k' < k)%nat -> slice !! k' = Some s2 ->
  is_Load s1 && is_Load s2 = false ->
  not_equal (cmp s1 s2) = false ->
  (Mem s1, Mem s2) ∈ (build_pairs slice s1 k g sd).1.
Proof.
  induction k as [|k IH]; intros g sd k' s2 Hk Hs Hl Hc; [lia|]. simpl.
  destruct (decide (k' = k)) as [->|Hne].
  - rewrite Hs, Hl, Hc. simpl. apply build_pairs_incl. left.
  - assert (Hk' : (k' < k)%nat) by lia.
    destruct (slice !! k) as [s|]; [|eapply IH; eauto].
    destruct (is_Load s1 && is_Load s); [eapply IH; eauto|].
    destruct (negb (not_equal (cmp s1 s))); eapply IH; eauto.
Qed.

Lemma build_pairs_sink slice s1 k : forall g sd,
  (build_pairs slice s1 k g sd).2 = false ->
  sd = false \/
  exists s2, s2 ∈ slice /\ (Mem s1, Mem s2) ∈ (build_pairs slice s1 k g sd).1.
Proof.
  induction k as [|k IH]; intros g sd H; simpl in *; [now left|].
  destruct (slice !! k) as [s2|] eqn:Hs; [|now apply IH].
  destruct (is_Load s1 && is_Load s2); [now apply IH|].
  destruct (negb (not_equal (cmp s1 s2))); [|now apply IH].
  right. exists s2. split; [eapply list_elem_of_lookup_2; eauto|].
  apply build_pairs_incl. left.
Qed.

Lemma build_slice_incl slice h sk j : forall g e,
  e ∈ g -> e ∈ build_slice slice h sk j g.
Proof.
  induction j as [|j IH]; intros g e He; simpl; [exact He|].
  destruct (slice !! j) as [s1|]; [|now apply IH].
  destruct (build_pairs slice s1 j _ true) as [g1 sd] eqn:E.
  apply IH.
  assert (He1 : e ∈ g1).
  { replace g1 with (build_pairs slice s1 j
       (if Nat.eqb (in_cnt g (Mem s1)) 0 then make_edge g h (Mem s1) else g) true).1
      by (rewrite E; reflexivity).
    apply build_pairs_incl. destruct (Nat.eqb _ _); [right|]; exact He. }
  destruct sd; [right|]; exact He1.
Qed.

Lemma build_slice_spec slice h sk j : forall g j0 s1,
  (j0 < j)%nat -> slice !! j0 = Some s1 ->
  let g' := build_slice slice h sk j g in
  (forall k s2, (k < j0)%nat -> slice !! k = Some s2 ->
     is_Load s1 && is_Load s2 = false -> not_equal (cmp s1 s2) = false ->
     (Mem s1, Mem s2) ∈ g') /\
  ((forall s2, s2 ∈ slice -> (Mem s1, Mem s2) ∉ g') -> (Mem s1, sk) ∈ g') /\
  ((forall dp, (dp, Mem s1) ∈ g' -> dp = h) -> (h, Mem s1) ∈ g').
Proof.
  induction j as [|j IH]; intros g j0 s1 Hj Hs; [lia|]. simpl.
  destruct (decide (j0 = j)) as [->|Hne].
  - rewrite Hs.
    set (g0 := if Nat.eqb (in_cnt g (Mem s1)) 0 then make_edge g h (Mem s1) else g).
    pose proof (build_pairs_edge slice s1 j g0 true) as Hedge.
    pose proof (build_pairs_sink slice s1 j g0 true) as Hsink.
    pose proof (build_pairs_incl slice s1 j g0 true) as Hincl.
    destruct (build_pairs slice s1 j g0 true) as [g1 sd]. simpl in *.
    set (g2 := if sd then make_edge g1 (Mem s1) sk else g1).
    assert (H12 : forall e, e ∈ g1 -> e ∈ g2).
    { intros e He. unfold g2. destruct sd; [right|]; exact He. }
    pose proof (build_slice_incl slice h sk j g2) as Hfin.
    split; [|split].
    + intros k s2 Hk Hs2 Hl Hc. apply Hfin, H12. eapply Hedge; eauto.
    + intros Hno. apply Hfin. unfold g2. destruct sd; [left|].
      destruct (Hsink eq_refl) as [?|(s2 & Hin & He)]; [discriminate|].
      exfalso. apply (Hno s2 Hin). apply Hfin, H12, He.
    + intros Hno. apply Hfin, H12, Hincl. unfold g0.
      destruct (Nat.eqb_spec (in_cnt g (Mem s1)) 0) as [E|E]; [left|].
      destruct (in_cnt_pos _ _ E) as [dp Hdp].
      assert (dp = h) as ->; [|exact Hdp].
      apply Hno, Hfin, H12, Hincl. exact Hdp.
  - assert (Hj' : (j0 < j)%nat) by lia.
    destruct (slice !! j) as [s|]; [|now apply IH].
    destruct (build_pairs slice s j _ true) as [g1 sd].
    now apply IH.
Qed.

Lemma build_slices_incl hs : forall i ts g e,
  e ∈ g -> e ∈ build_slices i hs ts g.
Proof.
  induction hs as [|head hs IH]; intros i ts g e He; simpl; [exact He|].
  destruct ts as [|tail ts]; [exact He|].
  apply IH, build_slice_incl. right. right. exact He.
Qed.

Lemma build_slices_spec hs : forall i0 ts g i head tail j0 s1,
  hs !! i = Some head -> ts !! i = Some tail ->
  get_slice head tail !! j0 = Some s1 ->
  let slice := get_slice head tail in
  let g' := build_slices i0 hs ts g in
  (forall k s2, (k < j0)%nat -> slice !! k = Some s2 ->
     is_Load s1 && is_Load s2 = false -> not_equal (cmp s1 s2) = false ->
     (Mem s1, Mem s2) ∈ g') /\
  ((forall s2, s2 ∈ slice -> (Mem s1, Mem s2) ∉ g') ->
     (Mem s1, SliceSink (i0 + i)) ∈ g') /\
  ((forall dp, (dp, Mem s1) ∈ g' -> dp = Mem head) -> (Mem head, Mem s1) ∈ g').
Proof.
  induction hs as [|h hs IH]; intros i0 ts g i head tail j0 s1 Hh Ht Hs slice g';
    [discriminate|].
  destruct ts as [|t ts]; [discriminate|].
  destruct i as [|i]; simpl in Hh, Ht.
  - injection Hh as ->. injection Ht as ->. subst g'. simpl.
    fold slice.
    set (g0 := make_edge (make_edge g Root (Mem head)) (SliceSink i0) Sink).
    assert (Hj : (j0 < length slice)%nat) by (eapply lookup_lt_Some; eauto).
    destruct (build_slice_spec slice (Mem head) (SliceSink i0) (length slice) g0 j0 s1 Hj Hs)
      as (H1 & H2 & H3).
    pose proof (build_slices_incl hs (S i0) ts
                  (build_slice slice (Mem head) (SliceSink i0) (length slice) g0)) as Hfin.
    replace (i0 + 0)%nat with i0 by lia.
    split; [|split].
    + intros. apply Hfin. eapply H1; eauto.
    + intros Hno. apply Hfin, H2. intros s2 Hin He. exact (Hno s2 Hin (Hfin _ He)).
    + intros Hno. apply Hfin, H3. intros dp He. exact (Hno dp (Hfin _ He)).
  - subst g'. simpl. replace (i0 + S i)%nat with (S i0 + i)%nat by lia.
    now apply IH.
Qed.

(** C4. In the graph that [build] makes, for each slice and each node [s1]
    of it: every node [s2] that comes after [s1] in the loop over the slice
    (a smaller index of the slice list, which is in predecessor order, last
    first), where not both are loads and the comparison of their pointers
    is not [not_equal], has an edge from [s1]; if [s1] has no edge to a node
    of the slice, it has an edge to the sink of the slice; and if no node
    other than the head has an edge to [s1], the head of the slice has. *)
Theorem build_edges_spec i head tail j s1 :
  heads !! i = Some head -> tails !! i = Some tail ->
  get_slice head tail !! j = Some s1 ->
  (forall k s2, (k < j)%nat -> get_slice head tail !! k = Some s2 ->
     is_Load s1 && is_Load s2 = false -> not_equal (cmp s1 s2) = false ->
     (Mem s1, Mem s2) ∈ build_edges) /\
  ((forall s2, s2 ∈ get_slice head tail -> (Mem s1, Mem s2) ∉ build_edges) ->
     (Mem s1, SliceSink i) ∈ build_edges) /\
  ((forall dp, (dp, Mem s1) ∈ build_edges -> dp = Mem head) ->
     (Mem head, Mem s1) ∈ build_edges).
Proof.
  intros Hh Ht Hs.
  exact (build_slices_spec heads 0 tails [] i head tail j s1 Hh Ht Hs).
Qed.

(** *** Proofs: depth *)

Lemma depth_nonneg d n : nonneg d -> 0 <= depth d n.
Proof.
  intros H. unfold depth.
  destruct (d !! body_idx n) as [x|] eqn:E; simpl; [|lia].
  eapply (Forall_lookup_1 _ _ _ _ H E).
Qed.

Lemma d_in_step_ge d m pred : m <= d_in_step d m pred.
Proof.
  unfold d_in_step. destruct pred as [p|]; [|lia].
  destruct (in_body p); lia.
Qed.

Lemma d_in_step_in_body d m p :
  in_body p = true -> d_in_step d m (Some p) = Z.max m (depth d p).
Proof. intros H. unfold d_in_step. now rewrite H. Qed.

Lemma d_in_step_skip d m pred :
  (forall p, pred = Some p -> in_body p = false) -> d_in_step d m pred = m.
Proof.
  intros H. unfold d_in_step. destruct pred as [p|]; [|reflexivity].
  now rewrite (H p eq_refl).
Qed.

Lemma fold_d_in_ge d ps : forall m, m <= fold_left (d_in_step d) ps m.
Proof.
  induction ps as [|pred ps IH]; intros m; [simpl; lia|].
  change (m <= fold_left (d_in_step d) ps (d_in_step d m pred)).
  etransitivity; [apply (d_in_step_ge d m pred)|apply IH].
Qed.

Lemma fold_d_in_upper d ps : forall m p,
  Some p ∈ ps -> in_body p = true -> depth d p <= fold_left (d_in_step d) ps m.
Proof.
  induction ps as [|q ps IH]; intros m p Hin Hb; [now apply elem_of_nil in Hin|].
  change (depth d p <= fold_left (d_in_step d) ps (d_in_step d m q)).
  apply elem_of_cons in Hin. destruct Hin as [<-|Hin].
  - rewrite (d_in_step_in_body d m p Hb).
    etransitivity; [|apply fold_d_in_ge]. lia.
  - now apply IH.
Qed.

Lemma fold_d_in_attained d ps : forall m,
  fold_left (d_in_step d) ps m = m \/
  exists p, Some p ∈ ps /\ in_body p = true /\ depth d p = fold_left (d_in_step d) ps m.
Proof.
  induction ps as [|pred ps IH]; intros m; [now left|].
  change (fold_left (d_in_step d) (pred :: ps) m)
    with (fold_left (d_in_step d) ps (d_in_step d m pred)).
  destruct (IH (d_in_step d m pred)) as [E|(p & Hin & Hp & E)].
  - rewrite E. destruct pred as [q|]; [|now left].
    destruct (in_body q) eqn:Hb.
    + rewrite (d_in_step_in_body d m q Hb).
      destruct (Z.max_spec m (depth d q)) as [[_ ->]|[_ ->]]; [|now left].
      right. exists q. split; [left|]. auto.
    + left. apply d_in_step_skip. intros ? [= <-]. exact Hb.
  - right. exists p. split; [now right|auto].
Qed.

Lemma in_body_pred_dec (ps : list (option Node)) :
  (forall p, Some p ∈ ps -> in_body p = false) \/
  (exists p, Some p ∈ ps /\ in_body p = true).
Proof.
  induction ps as [|pred ps IH].
  - left. intros p Hin. now apply elem_of_nil in Hin.
  - destruct IH as [IH|(p & Hin & Hb)]; [|right; exists p; split; [now right|auto]].
    destruct pred as [q|].
    + destruct (in_body q) eqn:Hb.
      * right. exists q. split; [left|exact Hb].
      * left. intros p Hin. apply elem_of_cons in Hin.
        destruct Hin as [[= ->]|Hin]; auto.
    + left. intros p Hin. apply elem_of_cons in Hin.
      destruct Hin as [?|Hin]; [discriminate|auto].
Qed.

Lemma max_pred_depth_nonneg g d n : 0 <= max_pred_depth g d n.
Proof. apply fold_d_in_ge. Qed.

Lemma max_pred_depth_is_max g d n :
  nonneg d -> is_max_pred_depth g d n (max_pred_depth g d n).
Proof.
  intros Hd. split.
  - intros p Hin Hb. now apply fold_d_in_upper.
  - destruct (fold_d_in_attained d (PredsIterator g n) 0) as [E|H]; [|now left].
    fold (max_pred_depth g d n) in E.
    destruct (in_body_pred_dec (PredsIterator g n)) as [Hnone|(p & Hin & Hb)].
    + right. auto.
    + left. exists p. split; [exact Hin|]. split; [exact Hb|].
      pose proof (fold_d_in_upper d _ 0 p Hin Hb) as Hle.
      fold (max_pred_depth g d n) in Hle.
      pose proof (depth_nonneg d p Hd). lia.
Qed.

(** One pass. *)
Lemma depth_pass_again g ns : forall d, (depth_pass g ns d true).2 = true.
Proof.
  induction ns as [|n ns IH]; intros d; simpl; [reflexivity|].
  destruct (negb (is_Phi n)); [|apply IH].
  destruct (negb (_ =? _)); apply IH.
Qed.

Lemma depth_pass_stable g ns : forall d d',
  depth_pass g ns d false = (d', false) ->
  d' = d /\ forall n, n ∈ ns -> is_Phi n = false -> depth_ok g d n.
Proof.
  induction ns as [|n ns IH]; intros d d' H; simpl in H.
  - injection H as <-. split; [reflexivity|]. intros n Hn. now apply elem_of_nil in Hn.
  - destruct (is_Phi n) eqn:Hphi; simpl in H.
    + destruct (IH d d' H) as [-> Hall]. split; [reflexivity|].
      intros m Hm Hp. apply elem_of_cons in Hm. destruct Hm as [->|Hm]; [congruence|auto].
    + destruct (Z.eqb_spec (max_pred_depth g d n + 1) (depth d n)) as [E|E]; simpl in H.
      * destruct (IH d d' H) as [-> Hall]. split; [reflexivity|].
        intros m Hm Hp. apply elem_of_cons in Hm. destruct Hm as [->|Hm]; [|auto].
        unfold depth_ok. lia.
      * pose proof (depth_pass_again g ns (set_depth d n (max_pred_depth g d n + 1))) as Ha.
        rewrite H in Ha. discriminate.
Qed.

Lemma depth_loop_stable g fuel : forall d d',
  depth_loop g fuel d = Some d' ->
  depth_pass g body d' false = (d', false).
Proof.
  induction fuel as [|fuel IH]; intros d d' H; simpl in H; [discriminate|].
  destruct (depth_pass g body d false) as [d1 [|]] eqn:E.
  - now apply IH in H.
  - injection H as <-. destruct (depth_pass_stable g body d d1 E) as [-> _]. exact E.
Qed.

Lemma set_depth_nonneg d n v : nonneg d -> 0 <= v -> nonneg (set_depth d n v).
Proof.
  intros Hd Hv. unfold set_depth, nonneg.
  apply Forall_insert; auto.
Qed.

Lemma depth_pass_nonneg g ns : forall d again,
  nonneg d -> nonneg (depth_pass g ns d again).1.
Proof.
  induction ns as [|n ns IH]; intros d again Hd; simpl; [exact Hd|].
  destruct (negb (is_Phi n)); [|now apply IH].
  destruct (negb (_ =? _)); [|now apply IH].
  apply IH, set_depth_nonneg; [exact Hd|].
  pose proof (max_pred_depth_nonneg g d n). lia.
Qed.

Lemma depth_loop_nonneg g fuel : forall d d',
  nonneg d -> depth_loop g fuel d = Some d' -> nonneg d'.
Proof.
  induction fuel as [|fuel IH]; intros d d' Hd H; simpl in H; [discriminate|].
  pose proof (depth_pass_nonneg g body d false Hd) as H1.
  destruct (depth_pass g body d false) as [d1 [|]]; simpl in H1.
  - eapply IH; eauto.
  - now injection H as <-.
Qed.

Lemma compute_max_depth_nonneg g fuel d :
  compute_max_depth g fuel = Some d -> nonneg d.
Proof.
  apply depth_loop_nonneg. unfold nonneg. apply Forall_replicate. lia.
Qed.

Lemma depth_fixpoint g fuel d n :
  compute_max_depth g fuel = Some d ->
  n ∈ body -> is_Phi n = false ->
  depth d n = 1 + max_pred_depth g d n /\
  is_max_pred_depth g d n (max_pred_depth g d n).
Proof.
  intros H Hn Hp. split.
  - apply depth_loop_stable in H as Hs.
    destruct (depth_pass_stable g body d d Hs) as [_ Hall]. now apply Hall.
  - apply max_pred_depth_is_max. eapply compute_max_depth_nonneg; eauto.
Qed.

(** C5 (depth fixpoint). When [compute_max_depth] ends, the depth of every
    non-phi node [n] of the body is one more than the greatest depth of the
    in-body predecessors that the [PredsIterator] of [n] yields, taken as 0
    when there is none. *)
Theorem compute_max_depth_fixpoint g fuel d n :
  compute_max_depth g fuel = Some d ->
  n ∈ body -> is_Phi n = false ->
  exists m, is_max_pred_depth g d n m /\ depth d n = 1 + m.
Proof.
  intros H Hn Hp. exists (max_pred_depth g d n).
  destruct (depth_fixpoint g fuel d n H Hn Hp) as [E Hmax]. split; assumption.
Qed.



(** What [VLoopBody::construct] leaves: [body_idx] is the position of a
    node in the body, and the body holds all nodes that are in the body of
    the loop. *)
Hypothesis body_idx_pos : forall j n, body !! j = Some n -> body_idx n = j.
Hypothesis in_body_body : forall n, in_body n = true -> n ∈ body.

Lemma body_idx_inj n m : n ∈ body -> m ∈ body -> body_idx n = body_idx m -> n = m.
Proof.
  intros Hn Hm E.
  apply list_elem_of_lookup in Hn. destruct Hn as [i Hi].
  apply list_elem_of_lookup in Hm. destruct Hm as [j Hj].
  rewrite (body_idx_pos _ _ Hi), (body_idx_pos _ _ Hj) in E. subst j. congruence.
Qed.

Lemma depth_set_depth_ne d n v m :
  body_idx n <> body_idx m -> depth (set_depth d n v) m = depth d m.
Proof.
  intros H. unfold depth, set_depth.
  now rewrite list_lookup_insert_ne.
Qed.

(** A pass only writes the depths of the non-phi nodes it visits. *)
Lemma depth_pass_other g ns : forall d again m,
  (forall n, n ∈ ns -> is_Phi n = false -> body_idx n <> body_idx m) ->
  depth (depth_pass g ns d again).1 m = depth d m.
Proof.
  induction ns as [|n ns IH]; intros d again m H; simpl; [reflexivity|].
  assert (Hns : forall n', n' ∈ ns -> is_Phi n' = false -> body_idx n' <> body_idx m).
  { intros n' Hn'. apply H. now right. }
  destruct (is_Phi n) eqn:Hp; simpl; [now apply IH|].
  destruct (negb (_ =? _)); [|now apply IH].
  rewrite IH by exact Hns. apply depth_set_depth_ne. apply H; [left|exact Hp].
Qed.

Lemma depth_pass_phi g ns d again m :
  (forall n, n ∈ ns -> n ∈ body) -> m ∈ body -> is_Phi m = true ->
  depth (depth_pass g ns d again).1 m = depth d m.
Proof.
  intros Hns Hm Hp. apply depth_pass_other.
  intros n Hn Hnp E. apply (body_idx_inj n m (Hns n Hn) Hm) in E. congruence.
Qed.

Lemma depth_loop_phi g fuel : forall d d' m,
  depth_loop g fuel d = Some d' -> m ∈ body -> is_Phi m = true ->
  depth d' m = depth d m.
Proof.
  induction fuel as [|fuel IH]; intros d d' m H Hm Hp; simpl in H; [discriminate|].
  pose proof (depth_pass_phi g body d false m (fun _ H => H) Hm Hp) as H1.
  destruct (depth_pass g body d false) as [d1 [|]]; simpl in H1.
  - rewrite <- H1. eapply IH; eauto.
  - injection H as <-. exact H1.
Qed.

Lemma depth_replicate n k : depth (replicate k 0) n = 0.
Proof.
  unfold depth. destruct (replicate k 0 !! body_idx n) as [x|] eqn:E; [|reflexivity].
  apply lookup_replicate in E. destruct E as [-> _]. reflexivity.
Qed.

(** C10. [compute_max_depth] does not assign a depth to a phi: when it ends
    every phi of the body has depth 0, and every non-phi node of the body
    whose in-body predecessors are all phis (or that has none) has depth 1. *)
Theorem compute_max_depth_phis g fuel d :
  compute_max_depth g fuel = Some d ->
  (forall n, n ∈ body -> is_Phi n = true -> depth d n = 0) /\
  (forall n, n ∈ body -> is_Phi n = false ->
     (forall p, Some p ∈ PredsIterator g n -> in_body p = true -> is_Phi p = true) ->
     depth d n = 1).
Proof.
  intros H.
  assert (Hphi : forall n, n ∈ body -> is_Phi n = true -> depth d n = 0).
  { intros n Hn Hp. rewrite (depth_loop_phi g fuel _ d n H Hn Hp).
    apply depth_replicate. }
  split; [exact Hphi|].
  intros n Hn Hp Hpreds.
  destruct (depth_fixpoint g fuel d n H Hn Hp) as [E [_ Hmax]].
  rewrite E. destruct Hmax as [(p & Hin & Hb & Ep)|[_ ->]]; [|reflexivity].
  rewrite <- Ep, (Hphi p (in_body_body p Hb) (Hpreds p Hin Hb)). reflexivity.
Qed.

(** *** Proofs: traversal *)

Lemma elem_of_push w n x : x ∈ push w n <-> x ∈ w \/ x = n.
Proof.
  unfold push. case_bool_decide as H.
  - split; [now left|]. intros [?| ->]; auto.
  - rewrite elem_of_app, list_elem_of_singleton. reflexivity.
Qed.

Lemma NoDup_push w n : NoDup w -> NoDup (push w n).
Proof.
  intros H. unfold push. case_bool_decide as Hn; [exact H|].
  apply NoDup_app. split; [exact H|]. split; [|apply NoDup_singleton].
  intros x Hx Hx'. apply list_elem_of_singleton in Hx'. subst x. contradiction.
Qed.

Lemma lookup_push w n j x : w !! j = Some x -> push w n !! j = Some x.
Proof.
  intros H. unfold push. case_bool_decide; [exact H|]. now apply lookup_app_l_Some.
Qed.

Section Traversal.
Variable g : Graph.
Variable d : list Z.
Variable min_d : Z.
Variable found : Node -> bool.

Lemma admits_iff p :
  in_body p && (depth d p >=? min_d) = true <-> in_body p = true /\ min_d <= depth d p.
Proof. rewrite andb_true_iff, Z.geb_le. reflexivity. Qed.

Lemma visit_preds_None ps : forall w,
  visit_preds d min_d found ps w = None ->
  exists p, Some p ∈ ps /\ in_body p = true /\ min_d <= depth d p /\ found p = true.
Proof.
  induction ps as [|[q|] ps IH]; intros w H; simpl in H; [discriminate| |].
  - destruct (in_body q && (depth d q >=? min_d)) eqn:Ha.
    + apply admits_iff in Ha. destruct (found q) eqn:Hf.
      * destruct Ha as [Ha1 Ha2]. exists q. split; [left|]. repeat split; assumption.
      * destruct (IH _ H) as (p & Hin & Hp). exists p. split; [now right|exact Hp].
    + destruct (IH _ H) as (p & Hin & Hp). exists p. split; [now right|exact Hp].
  - destruct (IH _ H) as (p & Hin & Hp). exists p. split; [now right|exact Hp].
Qed.

Lemma visit_preds_Some ps : forall w w',
  visit_preds d min_d found ps w = Some w' ->
  (forall p, Some p ∈ ps -> in_body p = true -> min_d <= depth d p ->
     found p = false) /\
  (forall x, x ∈ w' <->
     x ∈ w \/ (Some x ∈ ps /\ in_body x = true /\ min_d <= depth d x)) /\
  (NoDup w -> NoDup w') /\
  (forall j x, w !! j = Some x -> w' !! j = Some x).
Proof.
  induction ps as [|[q|] ps IH]; intros w w' H; simpl in H.
  - injection H as <-. split; [|split; [|split]]; auto.
    + intros p Hp. now apply elem_of_nil in Hp.
    + intros x. split; [now left|].
      intros [?|[Hp _]]; [assumption|now apply elem_of_nil in Hp].
  - destruct (in_body q && (depth d q >=? min_d)) eqn:Ha.
    + apply admits_iff in Ha. destruct (found q) eqn:Hf; [discriminate|].
      destruct (IH _ _ H) as (H1 & H2 & H3 & H4). split; [|split; [|split]].
      * intros p Hp. apply elem_of_cons in Hp. destruct Hp as [[= ->]|Hp]; auto.
      * intros x. rewrite H2, elem_of_push, elem_of_cons. split.
        -- intros [[?| ->]|(Hp & ?)]; auto.
        -- intros [?|([[= ->]|Hp] & ?)]; auto.
      * intros Hw. apply H3, NoDup_push, Hw.
      * intros j x Hj. apply H4, lookup_push, Hj.
    + assert (Hq : ~ (in_body q = true /\ min_d <= depth d q)).
      { intros Hq. apply admits_iff in Hq. congruence. }
      destruct (IH _ _ H) as (H1 & H2 & H3 & H4). split; [|split; [|split]]; auto.
      * intros p Hp Hb Hd. apply elem_of_cons in Hp.
        destruct Hp as [[= ->]|Hp]; [|auto].
        exfalso. apply Hq. split; assumption.
      * intros x. rewrite H2, elem_of_cons. split.
        -- intros [?|(Hp & ?)]; auto.
        -- intros [?|([[= ->]|Hp] & Hx)]; [auto| |auto].
           exfalso. apply Hq. exact Hx.
  - destruct (IH _ _ H) as (H1 & H2 & H3 & H4). split; [|split; [|split]]; auto.
    + intros p Hp. apply elem_of_cons in Hp. destruct Hp as [?|Hp]; [discriminate|auto].
    + intros x. rewrite H2, elem_of_cons. split.
      * intros [?|(Hp & ?)]; auto.
      * intros [?|([?|Hp] & ?)]; [auto|discriminate|auto].
Qed.

Variable sources : list Node.

Lemma inv_length i w : inv g d min_d found sources i w -> (length w <= length sources + length body)%nat.
Proof.
  intros H. rewrite <- length_app. apply submseteq_length.
  apply NoDup_submseteq; [apply H|apply H].
Qed.

Lemma traverse_inv fuel : forall i w,
  inv g d min_d found sources i w -> (i <= length w)%nat ->
  (length sources + length body < fuel + i)%nat ->
  exists b, traverse g d min_d found fuel i w = Some b /\
    (b = false -> exists s p, s ∈ sources /\ tc (step g d min_d) s p /\ found p = true) /\
    (b = true -> exists w', closed g d min_d found sources w').
Proof.
  induction fuel as [|fuel IH]; intros i w Hinv Hi Hfuel.
  - pose proof (inv_length i w Hinv). lia.
  - simpl. destruct (w !! i) as [n|] eqn:Hn.
    + destruct (visit_preds d min_d found (PredsIterator g n) w) as [w'|] eqn:Hv.
      * destruct (visit_preds_Some _ _ _ Hv) as (H1 & H2 & H3 & H4).
        assert (Hinv' : inv g d min_d found sources (S i) w').
        { split.
          - apply H3, Hinv.
          - intros s Hs. apply H2. left. now apply Hinv.
          - intros x Hx. apply H2 in Hx. destruct Hx as [Hx|(_ & Hb & _)].
            + now apply Hinv.
            + apply elem_of_app. right. now apply in_body_body.
          - intros x Hx. apply H2 in Hx. destruct Hx as [Hx|Hx]; [now apply Hinv|].
            destruct (inv_reach _ _ _ _ _ _ _ Hinv n (list_elem_of_lookup_2 _ _ _ Hn)) as (s & Hs & Hr).
            exists s. split; [exact Hs|].
            eapply rtc_r; [exact Hr|exact Hx].
          - intros j m Hj Hm p Hp.
            destruct (decide (j = i)) as [->|Hne].
            + rewrite (H4 _ _ Hn) in Hm. injection Hm as <-.
              destruct Hp as (Hp1 & Hp2 & Hp3). split; [now apply H1|].
              apply H2. right. auto.
            + assert (Hj' : (j < i)%nat) by lia.
              assert (Hm' : w !! j = Some m).
              { destruct (w !! j) as [m'|] eqn:E.
                - rewrite (H4 _ _ E) in Hm. exact Hm.
                - apply lookup_ge_None in E. apply lookup_lt_Some in Hn. lia. }
              destruct (inv_done _ _ _ _ _ _ _ Hinv j m Hj' Hm' p Hp) as [Hf Hw].
              split; [exact Hf|]. apply H2. now left. }
        apply IH; [exact Hinv'| |lia].
        apply lookup_lt_Some in Hn.
        assert (length w <= length w')%nat; [|lia].
        destruct (decide (length w <= length w')%nat) as [?|Hlt]; [assumption|].
        exfalso.
        destruct (lookup_lt_is_Some_2 w (length w') ltac:(lia)) as [x Hx].
        pose proof (H4 _ _ Hx) as Hx'. apply lookup_lt_Some in Hx'. lia.
      * exists false. split; [reflexivity|]. split; [|discriminate]. intros _.
        destruct (visit_preds_None _ _ Hv) as (p & Hin & Hb & Hd & Hf).
        destruct (inv_reach _ _ _ _ _ _ _ Hinv n (list_elem_of_lookup_2 _ _ _ Hn)) as (s & Hs & Hr).
        exists s, p. split; [exact Hs|]. split; [|exact Hf].
        eapply tc_rtc_l; [exact Hr|]. apply tc_once. split; auto.
    + exists true. split; [reflexivity|]. split; [discriminate|]. intros _.
      exists w. split; [apply Hinv|].
      intros n Hin p Hp. apply list_elem_of_lookup in Hin. destruct Hin as [j Hj].
      apply (inv_done _ _ _ _ _ _ _ Hinv j n); [|exact Hj|exact Hp].
      apply lookup_ge_None in Hn. apply lookup_lt_Some in Hj. lia.
Qed.

Lemma closed_tc w : closed g d min_d found sources w ->
  forall n p, tc (step g d min_d) n p -> n ∈ w -> found p = false /\ p ∈ w.
Proof.
  intros [_ Hc] n p H. induction H as [n p H|n q p H _ IH]; intros Hn.
  - now apply (Hc n).
  - apply IH. now apply (Hc n Hn q).
Qed.

(** The traversal ends and finds a searched node exactly when one can be
    reached from a source in one or more steps. *)
Lemma traverse_spec fuel :
  NoDup sources ->
  (length sources + length body < fuel)%nat ->
  exists b, traverse g d min_d found fuel 0 sources = Some b /\
    (b = false <->
     exists s p, s ∈ sources /\ tc (step g d min_d) s p /\ found p = true).
Proof.
  intros Hnd Hfuel.
  assert (Hinv : inv g d min_d found sources 0 sources).
  { split; auto.
    - intros x Hx. apply elem_of_app. now left.
    - intros x Hx. exists x. split; [exact Hx|apply rtc_refl].
    - intros j n Hj. lia. }
  destruct (traverse_inv fuel 0 sources Hinv ltac:(lia) ltac:(lia)) as (b & Hb & Hf & Ht).
  exists b. split; [exact Hb|]. split; [exact Hf|].
  intros (s & p & Hs & Htc & Hfound). destruct b; [|reflexivity].
  destruct (Ht eq_refl) as (w' & Hcl).
  destruct (closed_tc w' Hcl s p Htc (proj1 Hcl s Hs)) as [Hnf _]. congruence.
Qed.
End Traversal.

(** *** Proofs: independence *)

Lemma step_mono g d m m' n p : m' <= m -> step g d m n p -> step g d m' n p.
Proof. intros H (H1 & H2 & H3). repeat split; auto. lia. Qed.

Lemma tc_step_mono g d m m' n p :
  m' <= m -> tc (step g d m) n p -> tc (step g d m') n p.
Proof.
  intros H Ht. induction Ht as [n p Hs|n q p Hs _ IH].
  - apply tc_once. eapply step_mono; eauto.
  - eapply tc_l; [eapply step_mono; eauto|exact IH].
Qed.

Lemma tc_step_target g d m n p :
  tc (step g d m) n p -> in_body p = true /\ m <= depth d p.
Proof.
  intros Ht. induction Ht as [n p Hs|n q p _ _ IH]; [|exact IH].
  destruct Hs as (_ & H2 & H3). auto.
Qed.

Section Converged.
Variable g : Graph.
Variable d : list Z.
Variable fuel0 : nat.
Hypothesis Hd : compute_max_depth g fuel0 = Some d.

Lemma pred_depth_lt n p :
  n ∈ body -> is_Phi n = false ->
  Some p ∈ PredsIterator g n -> in_body p = true -> depth d p < depth d n.
Proof.
  intros Hn Hp Hin Hb.
  destruct (depth_fixpoint g fuel0 d n Hd Hn Hp) as [E [Hub _]].
  specialize (Hub p Hin Hb). lia.
Qed.

Lemma nonphi_depth_pos n : n ∈ body -> is_Phi n = false -> 1 <= depth d n.
Proof.
  intros Hn Hp. destruct (depth_fixpoint g fuel0 d n Hd Hn Hp) as [E _].
  pose proof (max_pred_depth_nonneg g d n). lia.
Qed.

Lemma phi_depth_zero n : n ∈ body -> is_Phi n = true -> depth d n = 0.
Proof.
  intros Hn Hp. rewrite (depth_loop_phi g fuel0 _ d n Hd Hn Hp). apply depth_replicate.
Qed.

Lemma deep_not_phi n : in_body n = true -> 1 <= depth d n -> is_Phi n = false.
Proof.
  intros Hb Hdn. destruct (is_Phi n) eqn:Hp; [|reflexivity].
  rewrite (phi_depth_zero n (in_body_body n Hb) Hp) in Hdn. lia.
Qed.

(** Along a path of the pruned traversal from a non-phi node the depth
    decreases, so the path stays above the depth of its end. *)
Lemma tc_step_decreases m s t :
  1 <= m -> tc (step g d m) s t ->
  s ∈ body -> is_Phi s = false ->
  depth d t < depth d s /\ tc (step g d (depth d t)) s t.
Proof.
  intros Hm Ht. induction Ht as [s t Hs|s n t Hs Ht IH]; intros Hin Hp.
  - destruct Hs as (H1 & H2 & H3). split.
    + now apply pred_depth_lt.
    + apply tc_once. repeat split; auto. lia.
  - destruct Hs as (H1 & H2 & H3).
    destruct IH as [Hlt Htc].
    + now apply in_body_body.
    + apply deep_not_phi; [exact H2|lia].
    + pose proof (pred_depth_lt s n Hin Hp H1 H2). split; [lia|].
      eapply tc_l; [|exact Htc]. repeat split; auto. lia.
Qed.
End Converged.

Lemma push_nil n : push [] n = [n].
Proof.
  unfold push. rewrite bool_decide_eq_false_2; [reflexivity|]. apply not_elem_of_nil.
Qed.

Lemma length_push w n : (length (push w n) <= S (length w))%nat.
Proof.
  unfold push. case_bool_decide; [lia|]. rewrite length_app. simpl. lia.
Qed.

(** [independent] ends, and finds a dependence exactly when the nodes are
    the same node at the same depth, or the shallower node is reached from
    the deeper one. *)
Lemma independent_spec g d fuel s1 s2 :
  (1 + length body < fuel)%nat ->
  exists b, independent g d fuel s1 s2 = Some b /\
    (b = false <->
     (depth d s1 = depth d s2 /\ s1 = s2) \/
     (depth d s2 < depth d s1 /\ tc (step g d (depth d s2)) s1 s2) \/
     (depth d s1 < depth d s2 /\ tc (step g d (depth d s1)) s2 s1)).
Proof.
  intros Hfuel. unfold independent.
  destruct (Z.eqb_spec (depth d s1) (depth d s2)) as [E|E].
  - eexists. split; [reflexivity|].
    destruct (Nat.eqb_spec s1 s2) as [->|Hne]; simpl.
    + split; [auto|reflexivity].
    + split; [discriminate|]. intros [[_ ?]|[[? _]|[? _]]]; [contradiction|lia|lia].
  - rewrite push_nil.
    set (deep := if depth d s1 >? depth d s2 then s1 else s2).
    set (shallow := if depth d s1 >? depth d s2 then s2 else s1).
    destruct (traverse_spec g d (Z.min (depth d s1) (depth d s2))
                (fun pred => Nat.eqb pred shallow) [deep] fuel
                (NoDup_singleton deep) ltac:(simpl; lia)) as (b & Hb & Hiff).
    exists b. split; [exact Hb|]. rewrite Hiff. clear Hb Hiff.
    subst deep shallow.
    destruct (Z.gtb_spec (depth d s1) (depth d s2)) as [Hgt|Hle].
    + rewrite Z.min_r by lia. split.
      * intros (s & p & Hs & Ht & Hf). apply list_elem_of_singleton in Hs.
        apply Nat.eqb_eq in Hf. subst. right. left. split; [lia|exact Ht].
      * intros [[? _]|[[_ Ht]|[? _]]]; [contradiction| |lia].
        exists s1, s2. split; [apply list_elem_of_singleton; reflexivity|].
        split; [exact Ht|apply Nat.eqb_refl].
    + rewrite Z.min_l by lia. split.
      * intros (s & p & Hs & Ht & Hf). apply list_elem_of_singleton in Hs.
        apply Nat.eqb_eq in Hf. subst. right. right. split; [lia|exact Ht].
      * intros [[? _]|[[? _]|[_ Ht]]]; [contradiction|lia|].
        exists s2, s1. split; [apply list_elem_of_singleton; reflexivity|].
        split; [exact Ht|apply Nat.eqb_refl].
Qed.

Lemma start_all_spec d nodes : forall min_d w ns min_d' w' ns',
  start_all d nodes min_d w ns = (min_d', w', ns') ->
  min_d' <= min_d /\
  (forall n, n ∈ nodes -> min_d' <= depth d n) /\
  (min_d' = min_d \/ exists n, n ∈ nodes /\ min_d' = depth d n) /\
  (forall x, x ∈ w' <-> x ∈ w \/ x ∈ nodes) /\
  (NoDup w -> NoDup w') /\
  (length w' <= length w + length nodes)%nat /\
  (forall i, i ∈ ns' <-> i ∈ ns \/ exists n, n ∈ nodes /\ i = body_idx n).
Proof.
  induction nodes as [|n nodes IH]; intros min_d w ns min_d' w' ns' H; simpl in H.
  - injection H as <- <- <-. repeat split; auto; try lia.
    + intros n Hn. now apply elem_of_nil in Hn.
    + intros [?|Hx]; [assumption|now apply elem_of_nil in Hx].
    + intros [?|(n & Hn & _)]; [assumption|now apply elem_of_nil in Hn].
  - destruct (IH _ _ _ _ _ _ H) as (H1 & H2 & H3 & H4 & H5 & H6 & H7).
    split; [lia|]. split; [|split; [|split; [|split; [|split]]]].
    + intros x Hx. apply elem_of_cons in Hx. destruct Hx as [->|Hx]; [lia|auto].
    + destruct H3 as [->|(x & Hx & ->)].
      * destruct (Z.min_spec min_d (depth d n)) as [[_ ->]|[_ ->]]; [now left|].
        right. exists n. split; [left|reflexivity].
      * right. exists x. split; [now right|reflexivity].
    + intros x. rewrite H4, elem_of_push, elem_of_cons.
      split; [intros [[?|?]|?]; auto|intros [?|[?|?]]; auto].
    + intros Hw. apply H5, NoDup_push, Hw.
    + pose proof (length_push w n). simpl. lia.
    + intros i. rewrite H7, elem_of_cons. split.
      * intros [[->|?]|(x & Hx & ->)]; auto.
        -- right. exists n. split; [left|reflexivity].
        -- right. exists x. split; [now right|reflexivity].
      * intros [?|(x & Hx & ->)]; auto.
        apply elem_of_cons in Hx. destruct Hx as [->|Hx]; auto.
        right. exists x. auto.
Qed.

(** [mutually_independent] ends, and finds a dependence exactly when a node
    at the body position of a node of the list is reached from a node of the
    list, above the least depth [min_d] of the list. *)
Lemma mutually_independent_spec g d fuel nodes :
  nodes <> [] ->
  (length nodes + length body < fuel)%nat ->
  exists b min_d,
    mutually_independent g d fuel nodes = Some b /\
    (forall n, n ∈ nodes -> min_d <= depth d n) /\
    (exists n, n ∈ nodes /\ min_d = depth d n) /\
    (b = false <->
     exists s p t, s ∈ nodes /\ t ∈ nodes /\
       tc (step g d min_d) s p /\ body_idx p = body_idx t).
Proof.
  intros Hne Hfuel. unfold mutually_independent.
  destruct nodes as [|n0 rest]; [contradiction|].
  destruct (start_all d (n0 :: rest) (depth d n0) [] []) as [[min_d w] ns] eqn:E.
  destruct (start_all_spec _ _ _ _ _ _ _ _ E) as (H1 & H2 & H3 & H4 & H5 & H6 & H7).
  destruct (traverse_spec g d min_d (fun pred => bool_decide (body_idx pred ∈ ns)) w fuel
              (H5 (NoDup_nil_2)) ltac:(simpl in *; lia)) as (b & Hb & Hiff).
  exists b, min_d. split; [exact Hb|]. split; [exact H2|]. split.
  - destruct H3 as [->|H3]; [|exact H3]. exists n0. split; [left|reflexivity].
  - rewrite Hiff. split.
    + intros (s & p & Hs & Ht & Hf). apply bool_decide_eq_true in Hf.
      apply H7 in Hf. destruct Hf as [Hf|(t & Hin & Ei)]; [now apply elem_of_nil in Hf|].
      apply H4 in Hs. destruct Hs as [Hs|Hs]; [now apply elem_of_nil in Hs|].
      exists s, p, t. auto.
    + intros (s & p & t & Hs & Hin & Ht & Ei).
      exists s, p. split; [apply H4; now right|]. split; [exact Ht|].
      apply bool_decide_eq_true. apply H7. right. exists t. auto.
Qed.

(** C8, amended. For a list of in-body nodes that are not phis (loads and
    stores are such), with the depths that [compute_max_depth] has left and
    enough fuel for the traversals to end: [mutually_independent] returns
    true exactly when [independent] returns true for every two different
    nodes of the list. *)
Theorem mutually_independent_iff g d fuel0 fuel nodes :
  compute_max_depth g fuel0 = Some d ->
  nodes <> [] ->
  (forall s, s ∈ nodes -> in_body s = true /\ is_Phi s = false) ->
  (length nodes + length body < fuel)%nat ->
  exists b,
    mutually_independent g d fuel nodes = Some b /\
    (forall s1 s2, s1 ∈ nodes -> s2 ∈ nodes ->
       is_Some (independent g d fuel s1 s2)) /\
    (b = true <->
     forall s1 s2, s1 ∈ nodes -> s2 ∈ nodes -> s1 <> s2 ->
       independent g d fuel s1 s2 = Some true).
Proof.
  intros Hd Hne Hnodes Hfuel.
  assert (Hlen : (1 <= length nodes)%nat).
  { destruct nodes; [contradiction|simpl; lia]. }
  destruct (mutually_independent_spec g d fuel nodes Hne Hfuel)
    as (b & min_d & Hb & Hmin & (nm & Hnm & Emin) & Hiff).
  assert (Hpos : 1 <= min_d).
  { rewrite Emin. destruct (Hnodes nm Hnm) as [Hbn Hpn].
    apply (nonphi_depth_pos g d fuel0 Hd); [now apply in_body_body|exact Hpn]. }
  exists b. split; [exact Hb|]. split.
  - intros s1 s2 _ _.
    destruct (independent_spec g d fuel s1 s2 ltac:(lia)) as (b' & Hb' & _).
    rewrite Hb'. eauto.
  - split.
    + (* no node of the list is reached, so no pair is dependent *)
      intros -> s1 s2 H1 H2 Hneq.
      destruct (independent_spec g d fuel s1 s2 ltac:(lia)) as (b' & Hb' & Hiff').
      rewrite Hb'. destruct b'; [reflexivity|]. exfalso.
      assert (Hdep : exists s t, s ∈ nodes /\ t ∈ nodes /\ tc (step g d min_d) s t).
      { destruct (proj1 Hiff' eq_refl) as [[_ ?]|[[_ Ht]|[_ Ht]]]; [contradiction| |].
        - exists s1, s2. repeat split; auto.
          eapply tc_step_mono; [|exact Ht]. now apply Hmin.
        - exists s2, s1. repeat split; auto.
          eapply tc_step_mono; [|exact Ht]. now apply Hmin. }
      destruct Hdep as (s & t & Hs & Ht & Htc).
      assert (b_false : true = false); [|discriminate].
      apply Hiff. exists s, t, t. auto.
    + (* a node of the list that is reached is deeper than its source *)
      intros Hall. destruct b; [reflexivity|]. exfalso.
      destruct (proj1 Hiff eq_refl) as (s & p & t & Hs & Ht & Htc & Ei).
      destruct (Hnodes s Hs) as [Hbs Hps]. destruct (Hnodes t Ht) as [Hbt Hpt].
      assert (Hp : p = t).
      { apply body_idx_inj; [|now apply in_body_body|exact Ei].
        apply in_body_body. apply (tc_step_target _ _ _ _ _ Htc). }
      subst p.
      destruct (tc_step_decreases g d fuel0 Hd min_d s t Hpos Htc
                  (in_body_body s Hbs) Hps) as [Hlt Htc'].
      assert (Hst : s <> t) by (intros ->; lia).
      specialize (Hall s t Hs Ht Hst).
      destruct (independent_spec g d fuel s t ltac:(lia)) as (b' & Hb' & Hiff').
      rewrite Hb' in Hall. injection Hall as ->.
      assert (true = false); [|discriminate].
      apply Hiff'. right. left. split; [exact Hlt|exact Htc'].
Qed.

(** *** Proofs: the depth loop ends *)

Lemma max_pred_depth_ext g d d' n :
  (forall p, Some p ∈ PredsIterator g n -> in_body p = true -> depth d' p = depth d p) ->
  max_pred_depth g d' n = max_pred_depth g d n.
Proof.
  unfold max_pred_depth. generalize 0.
  induction (PredsIterator g n) as [|pred ps IH]; intros m H; [reflexivity|].
  simpl. rewrite IH by (intros p Hp; apply H; now right). f_equal.
  unfold d_in_step. destruct pred as [p|]; [|reflexivity].
  destruct (in_body p) eqn:Hb; [|reflexivity]. rewrite (H p); [reflexivity|left|exact Hb].
Qed.

Lemma depth_pass_fix g ns : forall d again,
  (forall n, n ∈ ns -> is_Phi n = false -> depth_ok g d n) ->
  depth_pass g ns d again = (d, again).
Proof.
  induction ns as [|n ns IH]; intros d again H; simpl; [reflexivity|].
  assert (Hns : forall m, m ∈ ns -> is_Phi m = false -> depth_ok g d m).
  { intros m Hm. apply H. now right. }
  destruct (is_Phi n) eqn:Hp; simpl; [now apply IH|].
  pose proof (H n ltac:(left) Hp) as Hok. unfold depth_ok in Hok.
  destruct (Z.eqb_spec (max_pred_depth g d n + 1) (depth d n)) as [E|E]; simpl; [now apply IH|].
  lia.
Qed.

Lemma body_NoDup : NoDup body.
Proof.
  apply NoDup_alt. intros i j x Hi Hj.
  rewrite <- (body_idx_pos _ _ Hi). now apply body_idx_pos.
Qed.

Lemma body_idx_ne n m : n ∈ body -> m ∈ body -> n <> m -> body_idx n <> body_idx m.
Proof. intros Hn Hm Hne E. apply Hne. now apply body_idx_inj. Qed.

Section Ordered.
Variable g : Graph.
Hypothesis body_ordered : topological g.

(** The in-body predecessors of a node of [pre] are not [n] when [n] comes
    after [pre] in the body. *)
Lemma pred_before pre n post m p :
  body = pre ++ n :: post -> (m ∈ pre \/ m = n) -> is_Phi m = false -> is_Phi n = false ->
  Some p ∈ PredsIterator g m -> in_body p = true -> p <> n.
Proof.
  intros Hbody Hm Hpm Hpn Hin Hb ->.
  pose proof body_NoDup as Hnd. rewrite Hbody in Hnd.
  apply NoDup_app in Hnd. destruct Hnd as (_ & Hdisj & Hnd').
  destruct Hm as [Hm| ->].
  - apply list_elem_of_split in Hm. destruct Hm as (pre1 & pre2 & ->).
    destruct (body_ordered pre1 m (pre2 ++ n :: post)
                ltac:(rewrite Hbody, <- app_assoc; reflexivity) Hpm n Hin Hb)
      as [Hphi|Hpre]; [congruence|].
    apply (Hdisj n); [|left]. apply elem_of_app. now left.
  - destruct (body_ordered pre n post Hbody Hpn n Hin Hb) as [Hphi|Hpre]; [congruence|].
    apply (Hdisj n Hpre). left.
Qed.

Lemma depth_pass_ordered post : forall pre d again,
  body = pre ++ post -> length d = length body ->
  (forall m, m ∈ pre -> is_Phi m = false -> depth_ok g d m) ->
  forall m, m ∈ body -> is_Phi m = false ->
    depth_ok g (depth_pass g post d again).1 m.
Proof.
  induction post as [|n post IH]; intros pre d again Hbody Hlen Hpre m Hm Hpm; simpl.
  - apply Hpre; [|exact Hpm]. rewrite Hbody, app_nil_r in Hm. exact Hm.
  - assert (Hbody' : body = (pre ++ [n]) ++ post) by (rewrite <- app_assoc; exact Hbody).
    assert (Hn : n ∈ body) by (rewrite Hbody; apply elem_of_app; right; left).
    destruct (is_Phi n) eqn:Hpn; simpl.
    + apply (IH (pre ++ [n])); auto.
      intros k Hk Hpk. apply elem_of_app in Hk. destruct Hk as [Hk|Hk]; [auto|].
      apply list_elem_of_singleton in Hk. congruence.
    + set (v := max_pred_depth g d n + 1).
      assert (Hstep : forall d1, (d1 = d /\ v = depth d n) \/ d1 = set_depth d n v ->
                forall k, k ∈ pre ++ [n] -> is_Phi k = false -> depth_ok g d1 k).
      { intros d1 Hd1 k Hk Hpk.
        assert (Hkin : k ∈ pre \/ k = n).
        { apply elem_of_app in Hk. destruct Hk as [Hk|Hk]; [now left|].
          right. now apply list_elem_of_singleton in Hk. }
        destruct Hd1 as [[-> Ev]| ->].
        - destruct Hkin as [Hk'| ->]; [now apply Hpre|]. unfold depth_ok. subst v. lia.
        - assert (Hext : max_pred_depth g (set_depth d n v) k = max_pred_depth g d k).
          { apply max_pred_depth_ext. intros p Hin Hb.
            apply depth_set_depth_ne. apply body_idx_ne; [exact Hn|now apply in_body_body|].
            intros <-. now apply (pred_before pre n post k n Hbody Hkin Hpk Hpn Hin Hb). }
          unfold depth_ok. rewrite Hext.
          destruct Hkin as [Hk'| ->].
          + rewrite depth_set_depth_ne; [now apply Hpre|].
            apply body_idx_ne; [exact Hn| |].
            * rewrite Hbody. apply elem_of_app. now left.
            * intros <-. pose proof body_NoDup as Hnd. rewrite Hbody in Hnd.
              apply NoDup_app in Hnd. destruct Hnd as (_ & Hdisj & _).
              apply (Hdisj n Hk'). left.
          + unfold depth, set_depth. rewrite list_lookup_insert_eq; [simpl; subst v; lia|].
            rewrite Hlen. apply list_elem_of_lookup in Hn. destruct Hn as [j Hj].
            rewrite (body_idx_pos _ _ Hj). eapply lookup_lt_Some; eauto. }
      destruct (Z.eqb_spec v (depth d n)) as [E|E]; simpl.
      * apply (IH (pre ++ [n])); auto.
      * apply (IH (pre ++ [n])); auto.
        unfold set_depth. now rewrite length_insert.
Qed.

(** With the body in the order of the graph the loop ends after its second
    pass at the latest. *)
Lemma compute_max_depth_ends : exists d, compute_max_depth g 2 = Some d.
Proof.
  unfold compute_max_depth. simpl.
  set (d0 := replicate (length body) 0).
  pose proof (depth_pass_ordered body [] d0 false eq_refl
                ltac:(apply length_replicate)
                ltac:(intros m Hm; now apply elem_of_nil in Hm)) as H1.
  destruct (depth_pass g body d0 false) as [d1 again1]. simpl in H1.
  destruct again1; [|eauto].
  rewrite (depth_pass_fix g body d1 false H1). eauto.
Qed.
End Ordered.

(** *** Further properties: build adds no other edge *)

(** The edges that [build] makes for the slice [i]: root to head, the sink
    of the slice to the sink, head to a node of the slice, a node of the slice
    to the sink of the slice, and a node of the slice to a node that comes
    before it in the slice list, the two not both loads, their pointers not
    known to differ. *)
Definition slice_edge (i : nat) (head tail : Node) (e : DependenceEdge) : Prop :=
  e = (Root, Mem head) \/ e = (SliceSink i, Sink) \/
  exists j s1, get_slice head tail !! j = Some s1 /\
    (e = (Mem head, Mem s1) \/ e = (Mem s1, SliceSink i) \/
     exists k s2, (k < j)%nat /\ get_slice head tail !! k = Some s2 /\
       is_Load s1 && is_Load s2 = false /\ not_equal (cmp s1 s2) = false /\
       e = (Mem s1, Mem s2)).

Lemma build_pairs_only slice s1 k : forall g sd e,
  e ∈ (build_pairs slice s1 k g sd).1 ->
  e ∈ g \/ exists k' s2, (k' < k)%nat /\ slice !! k' = Some s2 /\
    is_Load s1 && is_Load s2 = false /\ not_equal (cmp s1 s2) = false /\
    e = (Mem s1, Mem s2).
Proof.
  induction k as [|k IH]; intros g sd e He; simpl in He; [now left|].
  assert (Hw : forall g' sd', e ∈ (build_pairs slice s1 k g' sd').1 ->
             (e ∈ g' -> e ∈ g \/ exists k' s2, (k' < S k)%nat /\ slice !! k' = Some s2 /\
                is_Load s1 && is_Load s2 = false /\ not_equal (cmp s1 s2) = false /\
                e = (Mem s1, Mem s2)) ->
             e ∈ g \/ exists k' s2, (k' < S k)%nat /\ slice !! k' = Some s2 /\
                is_Load s1 && is_Load s2 = false /\ not_equal (cmp s1 s2) = false /\
                e = (Mem s1, Mem s2)).
  { intros g' sd' H Hg'. destruct (IH _ _ _ H) as [H1|(k' & s2 & Hk & H2)]; [auto|].
    right. exists k', s2. split; [lia|exact H2]. }
  destruct (slice !! k) as [s2|] eqn:Es; [|eapply Hw; eauto].
  destruct (is_Load s1 && is_Load s2) eqn:El; [eapply Hw; eauto|].
  destruct (not_equal (cmp s1 s2)) eqn:Ec; simpl in He; [eapply Hw; eauto|].
  eapply Hw; [exact He|]. unfold make_edge. intros H.
  apply elem_of_cons in H. destruct H as [->|H]; [|now left].
  right. exists k, s2. repeat split; auto.
Qed.

Lemma build_slice_only i head tail j : forall g e,
  (j <= length (get_slice head tail))%nat ->
  e ∈ build_slice (get_slice head tail) (Mem head) (SliceSink i) j g ->
  e ∈ g \/ slice_edge i head tail e.
Proof.
  induction j as [|j IH]; intros g e Hj He; simpl in He; [now left|].
  destruct (get_slice head tail !! j) as [s1|] eqn:Es; [|apply IH; [lia|exact He]].
  set (g1 := if Nat.eqb (in_cnt g (Mem s1)) 0
             then make_edge g (Mem head) (Mem s1) else g) in He.
  destruct (build_pairs (get_slice head tail) s1 j g1 true) as [g2 sd] eqn:Ep.
  set (g3 := if sd then make_edge g2 (Mem s1) (SliceSink i) else g2) in He.
  destruct (IH g3 e ltac:(lia) He) as [H3|H3]; [|now right].
  assert (H2 : e ∈ g2 \/ slice_edge i head tail e).
  { subst g3. destruct sd; [|now left]. unfold make_edge in H3.
    apply elem_of_cons in H3. destruct H3 as [->|H3]; [|now left].
    right. right. right. exists j, s1. split; [exact Es|]. right. now left. }
  destruct H2 as [H2|H2]; [|now right].
  pose proof (build_pairs_only (get_slice head tail) s1 j g1 true e) as Hp.
  rewrite Ep in Hp. destruct (Hp H2) as [H1|(k & s2 & Hk & Hs2 & Hl & Hc & ->)].
  - subst g1. destruct (Nat.eqb (in_cnt g (Mem s1)) 0); [|now left].
    unfold make_edge in H1. apply elem_of_cons in H1. destruct H1 as [->|H1]; [|now left].
    right. right. right. exists j, s1. split; [exact Es|]. now left.
  - right. right. right. exists j, s1. split; [exact Es|]. right. right.
    exists k, s2. auto.
Qed.

Lemma build_slices_only hs : forall i0 ts g e,
  e ∈ build_slices i0 hs ts g ->
  e ∈ g \/ exists i head tail, hs !! i = Some head /\ ts !! i = Some tail /\
    slice_edge (i0 + i) head tail e.
Proof.
  induction hs as [|head hs IH]; intros i0 ts g e He; simpl in He; [now left|].
  destruct ts as [|tail ts]; [now left|].
  destruct (IH _ _ _ _ He) as [H|(i & h & t & Hh & Ht & Hs)].
  - apply build_slice_only in H; [|lia].
    destruct H as [H|H].
    + unfold make_edge in H. apply elem_of_cons in H. destruct H as [->|H].
      * right. exists 0%nat, head, tail. rewrite Nat.add_0_r.
        repeat split; auto. right. now left.
      * apply elem_of_cons in H. destruct H as [->|H]; [|now left].
        right. exists 0%nat, head, tail. rewrite Nat.add_0_r.
        repeat split; auto. now left.
    + right. exists 0%nat, head, tail. rewrite Nat.add_0_r. auto.
  - right. exists (S i), h, t. repeat split; auto.
    replace (i0 + S i)%nat with (S i0 + i)%nat by lia. exact Hs.
Qed.

(** X9. [build] makes no other edges than those of its slices: an edge of
    the graph is root to a slice head, a slice sink to the sink, a slice
    head to a node of its slice, a node to the sink of its slice, or a node
    to a node before it in the list of the same slice, the two not both
    loads and their pointers not known to differ. So no edge joins two
    loads, and none joins nodes of which no slice holds both. *)
Theorem build_edges_only e :
  e ∈ build_edges ->
  exists i head tail, heads !! i = Some head /\ tails !! i = Some tail /\
    slice_edge i head tail e.
Proof.
  intros He. apply build_slices_only in He.
  destruct He as [He|He]; [now apply elem_of_nil in He|exact He].
Qed.
(** *** Further properties: what independence means *)

(** One step of a dependence path inside an iteration: to an in-body
    predecessor that is not a phi. *)
Definition dep_step (g : Graph) (n p : Node) : Prop :=
  Some p ∈ PredsIterator g n /\ in_body p = true /\ is_Phi p = false.

Lemma tc_dep_step_pruned g d fuel0 s t :
  compute_max_depth g fuel0 = Some d ->
  tc (dep_step g) s t -> tc (step g d 1) s t.
Proof.
  intros Hd Ht. induction Ht as [s t (H1 & H2 & H3)|s n t (H1 & H2 & H3) _ IH].
  - apply tc_once. repeat split; auto.
    apply (nonphi_depth_pos g d fuel0 Hd); [now apply in_body_body|exact H3].
  - eapply tc_l; [|exact IH]. repeat split; auto.
    apply (nonphi_depth_pos g d fuel0 Hd); [now apply in_body_body|exact H3].
Qed.

Lemma tc_pruned_dep_step g d fuel0 m s t :
  compute_max_depth g fuel0 = Some d -> 1 <= m ->
  tc (step g d m) s t -> tc (dep_step g) s t.
Proof.
  intros Hd Hm Ht. induction Ht as [s t (H1 & H2 & H3)|s n t (H1 & H2 & H3) _ IH].
  - apply tc_once. repeat split; auto.
    apply (deep_not_phi g d fuel0 Hd); [exact H2|lia].
  - eapply tc_l; [|exact IH]. repeat split; auto.
    apply (deep_not_phi g d fuel0 Hd); [exact H2|lia].
Qed.

(** X10. With the depths that [compute_max_depth] has left, [independent]
    decides dependence inside an iteration: for two in-body nodes that are
    not phis it ends, and returns true exactly when the nodes differ and
    neither is reached from the other along predecessors that are in the
    body and not phis. The pruning below the smaller depth loses no path. *)
Theorem independent_correct g d fuel0 fuel s1 s2 :
  compute_max_depth g fuel0 = Some d ->
  in_body s1 = true -> is_Phi s1 = false ->
  in_body s2 = true -> is_Phi s2 = false ->
  (1 + length body < fuel)%nat ->
  exists b, independent g d fuel s1 s2 = Some b /\
    (b = true <->
     s1 <> s2 /\ ~ tc (dep_step g) s1 s2 /\ ~ tc (dep_step g) s2 s1).
Proof.
  intros Hd Hb1 Hp1 Hb2 Hp2 Hfuel.
  destruct (independent_spec g d fuel s1 s2 Hfuel) as (b & Hb & Hiff).
  exists b. split; [exact Hb|].
  pose proof (nonphi_depth_pos g d fuel0 Hd s1 (in_body_body s1 Hb1) Hp1) as Hd1.
  pose proof (nonphi_depth_pos g d fuel0 Hd s2 (in_body_body s2 Hb2) Hp2) as Hd2.
  assert (Hdown : forall s t, in_body s = true -> is_Phi s = false ->
            tc (dep_step g) s t ->
            depth d t < depth d s /\ tc (step g d (depth d t)) s t).
  { intros s t Hbs Hps Ht.
    exact (tc_step_decreases g d fuel0 Hd 1 s t ltac:(lia)
             (tc_dep_step_pruned g d fuel0 s t Hd Ht) (in_body_body s Hbs) Hps). }
  split.
  - intros ->. split; [|split].
    + intros ->. assert (true = false); [|discriminate]. apply Hiff. now left.
    + intros Ht. destruct (Hdown s1 s2 Hb1 Hp1 Ht) as [Hlt Htc].
      assert (true = false); [|discriminate]. apply Hiff. right. left. auto.
    + intros Ht. destruct (Hdown s2 s1 Hb2 Hp2 Ht) as [Hlt Htc].
      assert (true = false); [|discriminate]. apply Hiff. right. right. auto.
  - intros (Hne & Hn12 & Hn21). destruct b; [reflexivity|]. exfalso.
    destruct (proj1 Hiff eq_refl) as [[_ E]|[[_ Ht]|[_ Ht]]].
    + contradiction.
    + apply Hn12. exact (tc_pruned_dep_step g d fuel0 _ s1 s2 Hd Hd2 Ht).
    + apply Hn21. exact (tc_pruned_dep_step g d fuel0 _ s2 s1 Hd Hd1 Ht).
Qed.

(** X11. A list of nodes stays mutually independent when nodes are left out
    of it, repeated or reordered: if [mutually_independent] returns true for
    a list, it returns true for every non-empty list of nodes of that list. *)
Theorem mutually_independent_sublist g d fuel nodes nodes' :
  nodes' <> [] ->
  (forall n, n ∈ nodes' -> n ∈ nodes) ->
  (length nodes + length body < fuel)%nat ->
  (length nodes' + length body < fuel)%nat ->
  mutually_independent g d fuel nodes = Some true ->
  mutually_independent g d fuel nodes' = Some true.
Proof.
  intros Hne Hsub Hfuel Hfuel' Hall.
  assert (Hne0 : nodes <> []).
  { destruct nodes' as [|n ?]; [contradiction|].
    intros ->. specialize (Hsub n ltac:(left)). now apply elem_of_nil in Hsub. }
  destruct (mutually_independent_spec g d fuel nodes Hne0 Hfuel)
    as (b & min_d & Hb & Hmin & _ & Hiff).
  rewrite Hb in Hall. injection Hall as ->.
  destruct (mutually_independent_spec g d fuel nodes' Hne Hfuel')
    as (b' & min_d' & Hb' & _ & (nm & Hnm & Emin) & Hiff').
  rewrite Hb'. destruct b'; [reflexivity|]. exfalso.
  destruct (proj1 Hiff' eq_refl) as (s & p & t & Hs & Ht & Htc & Ei).
  assert (true = false); [|discriminate].
  apply Hiff. exists s, p, t. repeat split; auto.
  eapply tc_step_mono; [|exact Htc]. rewrite Emin. apply Hmin. auto.
Qed.
(** *** Further properties: the depth loop ends *)

Lemma depth_loop_more g fuel : forall d d' fuel',
  depth_loop g fuel d = Some d' -> (fuel <= fuel')%nat ->
  depth_loop g fuel' d = Some d'.
Proof.
  induction fuel as [|fuel IH]; intros d d' fuel' H Hle; simpl in H; [discriminate|].
  destruct fuel' as [|fuel']; [lia|]. simpl.
  destruct (depth_pass g body d false) as [d1 again].
  destruct again; [|exact H]. apply (IH _ _ _ H). lia.
Qed.

Lemma length_depth_pass g ns : forall d again,
  length (depth_pass g ns d again).1 = length d.
Proof.
  induction ns as [|n ns IH]; intros d again; simpl; [reflexivity|].
  destruct (negb (is_Phi n)); [|apply IH].
  destruct (negb (max_pred_depth g d n + 1 =? depth d n)); rewrite IH; [|reflexivity].
  unfold set_depth. apply length_insert.
Qed.

Section Ranked.
Variable g : Graph.
Variable rank : Node -> nat.

(** The nodes are ranked along the graph: an in-body predecessor of a
    non-phi node of the body is a phi or has a smaller rank. Such a ranking
    exists exactly when no dependence cycle avoids the phis. *)
Definition ranked : Prop :=
  forall n, n ∈ body -> is_Phi n = false ->
  forall p, Some p ∈ PredsIterator g n -> in_body p = true -> is_Phi p = false ->
    (rank p < rank n)%nat.

Hypothesis Hrank : ranked.

Lemma ranked_pred_ne m n p :
  m ∈ body -> is_Phi m = false -> is_Phi n = false -> (rank m <= rank n)%nat ->
  Some p ∈ PredsIterator g m -> in_body p = true -> p <> n.
Proof.
  intros Hm Hpm Hpn Hle Hin Hb ->.
  pose proof (Hrank m Hm Hpm n Hin Hb Hpn). lia.
Qed.

Lemma depth_pass_ranked k post : forall pre d again,
  body = pre ++ post -> length d = length body ->
  (forall m, m ∈ body -> is_Phi m = false -> (rank m < k)%nat -> depth_ok g d m) ->
  (forall m, m ∈ pre -> is_Phi m = false -> rank m = k -> depth_ok g d m) ->
  forall m, m ∈ body -> is_Phi m = false -> (rank m <= k)%nat ->
    depth_ok g (depth_pass g post d again).1 m.
Proof.
  induction post as [|n post IH]; intros pre d again Hbody Hlen Hlow Hpre m Hm Hpm Hr; simpl.
  - destruct (Nat.eq_dec (rank m) k) as [E|E].
    + apply Hpre; auto. rewrite Hbody, app_nil_r in Hm. exact Hm.
    + apply Hlow; auto. lia.
  - assert (Hbody' : body = (pre ++ [n]) ++ post) by (rewrite <- app_assoc; exact Hbody).
    assert (Hn : n ∈ body) by (rewrite Hbody; apply elem_of_app; right; left).
    assert (Hpre_in : forall x, x ∈ pre -> x ∈ body).
    { intros x Hx. rewrite Hbody. apply elem_of_app. now left. }
    assert (Hpre_ne : forall x, x ∈ pre -> x <> n).
    { intros x Hx ->. pose proof body_NoDup as Hnd. rewrite Hbody in Hnd.
      apply NoDup_app in Hnd. destruct Hnd as (_ & Hdisj & _).
      apply (Hdisj n Hx). left. }
    destruct (is_Phi n) eqn:Hpn; simpl.
    + apply (IH (pre ++ [n])); auto.
      intros x Hx Hpx. apply elem_of_app in Hx. destruct Hx as [Hx|Hx]; [auto|].
      apply list_elem_of_singleton in Hx. congruence.
    + set (v := max_pred_depth g d n + 1).
      destruct (Z.eqb_spec v (depth d n)) as [E|E]; simpl.
      * apply (IH (pre ++ [n])); auto.
        intros x Hx Hpx Hrx. apply elem_of_app in Hx. destruct Hx as [Hx|Hx]; [auto|].
        apply list_elem_of_singleton in Hx. subst x. unfold depth_ok. subst v. lia.
      * (* the depth of [n] changes, so its rank is not below [k] *)
        assert (Hkn : (k <= rank n)%nat).
        { destruct (Nat.le_gt_cases k (rank n)) as [?|Hlt]; [assumption|].
          exfalso. apply E. pose proof (Hlow n Hn Hpn Hlt) as Hok.
          unfold depth_ok in Hok. subst v. lia. }
        assert (Hkeep : forall x, x ∈ body -> is_Phi x = false ->
                  (rank x <= rank n)%nat -> x <> n -> depth_ok g d x ->
                  depth_ok g (set_depth d n v) x).
        { intros x Hx Hpx Hrx Hne Hok. unfold depth_ok.
          rewrite depth_set_depth_ne by (apply body_idx_ne; auto).
          rewrite (max_pred_depth_ext g d (set_depth d n v) x); [exact Hok|].
          intros p Hin Hb. apply depth_set_depth_ne.
          apply body_idx_ne; [exact Hn|now apply in_body_body|].
          intros <-. now apply (ranked_pred_ne x n n Hx Hpx Hpn Hrx Hin Hb). }
        apply (IH (pre ++ [n])); auto.
        -- unfold set_depth. now rewrite length_insert.
        -- intros x Hx Hpx Hrx. apply Hkeep; auto; [lia|intros ->; lia].
        -- intros x Hx Hpx Hrx. apply elem_of_app in Hx. destruct Hx as [Hx|Hx].
           ++ apply Hkeep; auto. lia.
           ++ apply list_elem_of_singleton in Hx. subst x. unfold depth_ok.
              rewrite (max_pred_depth_ext g d (set_depth d n v) n).
              ** unfold depth, set_depth. rewrite list_lookup_insert_eq; [simpl; subst v; lia|].
                 rewrite Hlen. apply list_elem_of_lookup in Hn. destruct Hn as [j Hj].
                 rewrite (body_idx_pos _ _ Hj). eapply lookup_lt_Some; eauto.
              ** intros p Hin Hb. apply depth_set_depth_ne.
                 apply body_idx_ne; [exact Hn|now apply in_body_body|].
                 intros <-. now apply (ranked_pred_ne n n n Hn Hpn Hpn (Nat.le_refl _) Hin Hb).
Qed.

Lemma depth_loop_ranked fuel : forall k d,
  length d = length body ->
  (forall m, m ∈ body -> is_Phi m = false -> (rank m < k)%nat -> depth_ok g d m) ->
  (forall m, m ∈ body -> (rank m < k + fuel)%nat) ->
  exists d', depth_loop g (S fuel) d = Some d'.
Proof.
  induction fuel as [|fuel IH]; intros k d Hlen Hlow Hbound.
  - simpl. rewrite (depth_pass_fix g body d false); [eauto|].
    intros n Hn Hp. apply Hlow; auto. specialize (Hbound n Hn). lia.
  - change (depth_loop g (S (S fuel)) d)
      with (let '(d1, again) := depth_pass g body d false in
            if again then depth_loop g (S fuel) d1 else Some d1).
    pose proof (depth_pass_ranked k body [] d false eq_refl Hlen Hlow
                  ltac:(intros m Hm; now apply elem_of_nil in Hm)) as H1.
    pose proof (length_depth_pass g body d false) as Hl1.
    destruct (depth_pass g body d false) as [d1 again]. simpl in H1, Hl1.
    destruct again; [|eauto].
    apply (IH (S k)).
    + congruence.
    + intros m Hm Hp Hr. apply H1; auto. lia.
    + intros m Hm. specialize (Hbound m Hm). lia.
Qed.

(** X12. The depth loop ends when no dependence cycle avoids the phis: if
    the nodes can be ranked so that every in-body predecessor of a non-phi
    node of the body is a phi or has a smaller rank, with all ranks below
    [k], the loop ends within [k + 1] passes (and more fuel gives the same
    depths). *)
Theorem compute_max_depth_terminates k fuel :
  (forall m, m ∈ body -> (rank m < k)%nat) ->
  (k < fuel)%nat ->
  exists d, compute_max_depth g (S k) = Some d /\ compute_max_depth g fuel = Some d.
Proof.
  intros Hbound Hfuel. unfold compute_max_depth.
  destruct (depth_loop_ranked k 0 (replicate (length body) 0)) as [d Hd].
  - apply length_replicate.
  - intros m _ _ Hr. lia.
  - exact Hbound.
  - exists d. split; [exact Hd|]. apply (depth_loop_more g (S k)); [exact Hd|lia].
Qed.
End Ranked.

(** X13. With the body in the order of the graph (every in-body predecessor
    of a non-phi node is a phi or comes before the node in the body), the
    first pass of [compute_max_depth] leaves the final depths: the loop ends
    after its second pass at the latest. *)
Theorem compute_max_depth_two_passes g fuel :
  topological g -> (2 <= fuel)%nat ->
  exists d, compute_max_depth g 2 = Some d /\ compute_max_depth g fuel = Some d.
Proof.
  intros Hord Hfuel. destruct (compute_max_depth_ends g Hord) as [d Hd].
  exists d. split; [exact Hd|].
  unfold compute_max_depth in *. now apply (depth_loop_more g 2).
Qed.


(** A ranking by the position in the body is the order of the graph. *)
Lemma ranked_topological g : ranked g body_idx -> topological g.
Proof.
  intros Hr pre n post Hbody Hpn p Hin Hb.
  destruct (is_Phi p) eqn:Hpp; [now left|right].
  assert (Hn : n ∈ body) by (rewrite Hbody; apply elem_of_app; right; left).
  pose proof (Hr n Hn Hpn p Hin Hb Hpp) as Hlt.
  assert (En : body_idx n = length pre).
  { apply body_idx_pos. rewrite Hbody. now apply list_lookup_middle. }
  pose proof (in_body_body p Hb) as Hp.
  apply list_elem_of_lookup in Hp. destruct Hp as [j Hj].
  rewrite (body_idx_pos _ _ Hj), En in Hlt.
  rewrite Hbody, lookup_app_l in Hj by exact Hlt.
  apply list_elem_of_lookup. eauto.
Qed.

End Loop.

(** ** VLoopMemorySlices *)

Section Slices.

(** What the analysis of the memory slices asks of the IR: whether a node
    is a phi, a memory phi, a load; membership in the body; the outputs
    [fast_outs] and the inputs [in(i)] of a node. *)
Variable is_Phi is_memory_phi is_Load : Node -> bool.
Variable in_body : Node -> bool.
Variable outs : Node -> list Node.
Variable inputs : Node -> list (option Node).

Definition LoopNode_EntryControl : nat := 1.
Definition LoopNode_LoopBackControl : nat := 2.
Definition MemNode_Memory : nat := 1.

(** [n->in(i)]. *)
Definition in_ (n : Node) (i : nat) : option Node := default None (inputs n !! i).

(** The phis of [cl] that start a memory slice: in-body memory phis whose
    input from the backedge differs from the input from the entry. *)
Definition slice_head (out : Node) : bool :=
  is_Phi out && in_body out && is_memory_phi out &&
  negb (bool_decide (in_ out LoopNode_LoopBackControl = in_ out LoopNode_EntryControl)).

(** [analyze], over the outputs of [cl] that are left: the heads and the
    tails. The tail [phi_tail->as_Mem()] of a null [phi_tail] is undefined. *)
Fixpoint analyze_outs (cl_outs : list Node) (heads tails : list Node)
  : option (list Node * list Node) :=
  match cl_outs with
  | [] => Some (heads, tails)
  | out :: cl_outs =>
      if is_Phi out && in_body out && is_memory_phi out then
        let phi_tail := in_ out LoopNode_LoopBackControl in
        if negb (bool_decide (phi_tail = in_ out LoopNode_EntryControl)) then
          match phi_tail with
          | Some t => analyze_outs cl_outs (heads ++ [out]) (tails ++ [t])
          | None => None
          end
        else analyze_outs cl_outs heads tails
      else analyze_outs cl_outs heads tails
  end.

Definition analyze (cl : Node) : option (list Node * list Node) :=
  analyze_outs (outs cl) [] [].

(** The loads below [n] that [get_slice] pushes. *)
Definition push_loads (n : Node) (slice : list Node) : list Node :=
  fold_left (fun slice out =>
               if is_Load out then
                 if in_body out then slice ++ [out] else slice
               else slice)
            (outs n) slice.

(** The loop [while (true)] of [get_slice], at the node [n], for at most
    [fuel] iterations. *)
Fixpoint get_slice_loop (fuel : nat) (head n : Node) (slice : list Node)
  : option (list Node) :=
  match fuel with
  | O => None
  | S fuel =>
      let slice := push_loads n slice in
      if Nat.eqb n head then Some slice
      else
        let slice := slice ++ [n] in
        match in_ n MemNode_Memory with
        | Some m => get_slice_loop fuel head m slice
        | None => None
        end
  end.

Definition get_slice (fuel : nat) (head tail : Node) : option (list Node) :=
  get_slice_loop fuel head tail [].

(** The in-body loads among the outputs of a node. *)
Definition loads (n : Node) : list Node :=
  filter (fun out => is_Load out && in_body out = true) (outs n).

(** The memory chain from [n] up to [head]: [n], its memory input, and so
    on, as far as the node whose memory input is [head]. *)
Inductive mem_chain (head : Node) : Node -> list Node -> Prop :=
| mem_chain_head : mem_chain head head []
| mem_chain_step n m chain :
    n <> head -> in_ n MemNode_Memory = Some m -> mem_chain head m chain ->
    mem_chain head n (n :: chain).

(** *** Proofs *)

Lemma push_loads_app n slice : push_loads n slice = slice ++ loads n.
Proof.
  unfold push_loads, loads. revert slice.
  induction (outs n) as [|out l IH]; intros slice; simpl.
  - now rewrite app_nil_r.
  - rewrite IH. rewrite filter_cons.
    destruct (is_Load out), (in_body out); simpl;
      try (destruct (decide _) as [?|N]; [|exfalso; now apply N]);
      try (destruct (decide _) as [E|?]; [discriminate E|]);
      try reflexivity; now rewrite <- app_assoc.
Qed.

Lemma analyze_outs_spec cl_outs : forall heads tails,
  match analyze_outs cl_outs heads tails with
  | Some (heads', tails') =>
      heads' = heads ++ filter (fun o => slice_head o = true) cl_outs /\
      exists ts, tails' = tails ++ ts /\
        Forall2 (fun h t => in_ h LoopNode_LoopBackControl = Some t)
                (filter (fun o => slice_head o = true) cl_outs) ts
  | None =>
      exists h, h ∈ cl_outs /\ slice_head h = true /\
        in_ h LoopNode_LoopBackControl = None
  end.
Proof.
  induction cl_outs as [|out l IH]; intros heads tails; simpl.
  - rewrite app_nil_r. split; [reflexivity|]. exists []. rewrite app_nil_r. auto.
  - rewrite filter_cons.
    assert (Hskip : slice_head out <> true ->
              match analyze_outs l heads tails with
              | Some (heads', tails') =>
                  heads' = heads ++ filter (fun o => slice_head o = true) l /\
                  exists ts, tails' = tails ++ ts /\
                    Forall2 (fun h t => in_ h LoopNode_LoopBackControl = Some t)
                            (filter (fun o => slice_head o = true) l) ts
              | None =>
                  exists h, h ∈ out :: l /\ slice_head h = true /\
                    in_ h LoopNode_LoopBackControl = None
              end).
    { intros _. specialize (IH heads tails).
      destruct (analyze_outs l heads tails) as [[h' t']|]; [exact IH|].
      destruct IH as (h & Hh & Hs). exists h. split; [now right|exact Hs]. }
    destruct (decide (slice_head out = true)) as [Hs|Hs].
    + pose proof Hs as Hs'. unfold slice_head in Hs'.
      apply andb_true_iff in Hs'. destruct Hs' as [E Eb]. rewrite E, Eb.
      destruct (in_ out LoopNode_LoopBackControl) as [t|] eqn:Et.
      * specialize (IH (heads ++ [out]) (tails ++ [t])).
        destruct (analyze_outs l (heads ++ [out]) (tails ++ [t])) as [[h' t']|].
        -- destruct IH as (-> & ts & -> & HF). split; [now rewrite <- app_assoc|].
           exists (t :: ts). split; [now rewrite <- app_assoc|]. now constructor.
        -- destruct IH as (h & Hh & Hs2). exists h. split; [now right|exact Hs2].
      * exists out. split; [left|]. split; [exact Hs|exact Et].
    + destruct (is_Phi out && in_body out && is_memory_phi out) eqn:E; [|now apply Hskip].
      destruct (negb (bool_decide (in_ out LoopNode_LoopBackControl =
                                   in_ out LoopNode_EntryControl))) eqn:Eb;
        [|now apply Hskip].
      exfalso. apply Hs. unfold slice_head. now rewrite E, Eb.
Qed.

(** X14. [analyze] pairs the slice heads with their tails: the heads are
    the outputs of [cl] that are in-body memory phis with a backedge input
    other than their entry input, in the order of the outputs; there are as
    many tails as heads, and the tail at a position is the backedge input of
    the head at that position. It is undefined only when such a phi has a
    null backedge input. *)
Theorem analyze_spec cl :
  match analyze cl with
  | Some (heads, tails) =>
      heads = filter (fun o => slice_head o = true) (outs cl) /\
      length tails = length heads /\
      forall i h, heads !! i = Some h ->
        exists t, tails !! i = Some t /\ in_ h LoopNode_LoopBackControl = Some t /\
          in_ h LoopNode_LoopBackControl <> in_ h LoopNode_EntryControl /\
          is_Phi h = true /\ in_body h = true /\ is_memory_phi h = true
  | None =>
      exists h, h ∈ outs cl /\ slice_head h = true /\
        in_ h LoopNode_LoopBackControl = None
  end.
Proof.
  unfold analyze. pose proof (analyze_outs_spec (outs cl) [] []) as H.
  destruct (analyze_outs (outs cl) [] []) as [[heads tails]|]; [|exact H].
  destruct H as (-> & ts & -> & HF). simpl.
  split; [reflexivity|]. split; [symmetry; eapply Forall2_length; eauto|].
  intros i h Hi.
  destruct (Forall2_lookup_l _ _ _ _ _ HF Hi) as (t & Ht & Hin).
  exists t. split; [exact Ht|]. split; [exact Hin|].
  apply list_elem_of_lookup_2 in Hi. apply list_elem_of_filter in Hi.
  destruct Hi as [Hs _]. unfold slice_head in Hs.
  apply andb_true_iff in Hs. destruct Hs as [Hs Hne].
  apply andb_true_iff in Hs. destruct Hs as [Hs Hm].
  apply andb_true_iff in Hs. destruct Hs as [Hp Hb].
  apply negb_true_iff, bool_decide_eq_false in Hne. auto.
Qed.

Lemma get_slice_loop_chain head : forall chain n fuel slice,
  mem_chain head n chain -> (length chain < fuel)%nat ->
  get_slice_loop fuel head n slice =
  Some (slice ++ concat (map (fun c => loads c ++ [c]) chain) ++ loads head).
Proof.
  induction chain as [|c chain IH]; intros n fuel slice Hc Hf;
    inversion Hc; subst; (destruct fuel as [|fuel]; [simpl in Hf; lia|]); simpl.
  - rewrite Nat.eqb_refl, push_loads_app. reflexivity.
  - destruct (Nat.eqb_spec c head) as [E|_]; [contradiction|].
    match goal with H : in_ c _ = Some _ |- _ => rewrite H end.
    erewrite IH; [|eassumption|simpl in Hf; lia].
    rewrite push_loads_app. f_equal. now rewrite <- !app_assoc.
Qed.

Lemma get_slice_loop_returns head fuel : forall n slice s,
  get_slice_loop fuel head n slice = Some s -> exists chain, mem_chain head n chain.
Proof.
  induction fuel as [|fuel IH]; intros n slice s H; simpl in H; [discriminate|].
  destruct (Nat.eqb_spec n head) as [->|Hne]; [exists []; constructor|].
  destruct (in_ n MemNode_Memory) as [m|] eqn:Em; [|discriminate].
  destruct (IH _ _ _ H) as [chain Hc]. exists (n :: chain). econstructor; eauto.
Qed.

(** X15. [get_slice] walks the memory chain from the tail up to the head:
    when the chain of memory inputs from [tail] reaches [head], the slice
    is, for each node of the chain from the tail on, the in-body loads
    among its outputs and then the node itself, and at the end the in-body
    loads of the head; the head itself is not in the list. It returns only
    when the chain reaches the head. *)
Theorem get_slice_spec fuel head tail :
  (forall chain, mem_chain head tail chain -> (length chain < fuel)%nat ->
     get_slice fuel head tail =
     Some (concat (map (fun c => loads c ++ [c]) chain) ++ loads head)) /\
  (forall s, get_slice fuel head tail = Some s ->
     exists chain, mem_chain head tail chain).
Proof.
  split.
  - intros chain Hc Hf. unfold get_slice.
    now rewrite (get_slice_loop_chain head chain tail fuel [] Hc Hf).
  - intros s. apply get_slice_loop_returns.
Qed.

End Slices.

(** *** A loop with two slices

    [for (i = ...) { a[i] = a[i] + 1; c[i] = 7; }]: the loop head 10, the
    induction variable phi 11, the memory phis 12 (slice of [a]) and 18
    (slice of [c]), the addresses 17 and 21, the load 13, the add 14, the
    stores 15 and 19, and the increment 16. *)
Definition ex_body : list Node := [10; 11; 12; 18; 17; 21; 13; 14; 15; 19; 16]%nat.

Definition ex_inputs (n : Node) : list (option Node) :=
  match n with
  | 10 => [None; Some 1; Some 30]
  | 11 => [Some 10; Some 2; Some 16]
  | 12 => [Some 10; Some 3; Some 15]
  | 18 => [Some 10; Some 3; Some 19]
  | 17 => [None; Some 4; Some 4; Some 11]
  | 21 => [None; Some 5; Some 5; Some 11]
  | 13 => [None; Some 12; Some 17]
  | 14 => [None; Some 13; Some 6]
  | 15 => [Some 10; Some 12; Some 17; Some 14]
  | 19 => [Some 10; Some 18; Some 21; Some 7]
  | 16 => [None; Some 11; Some 6]
  | _ => []
  end%nat.

Definition ex_body_idx (n : Node) : nat :=
  match n with
  | 10 => 0 | 11 => 1 | 12 => 2 | 18 => 3 | 17 => 4 | 21 => 5
  | 13 => 6 | 14 => 7 | 15 => 8 | 19 => 9 | 16 => 10 | _ => 0
  end%nat.

Definition one_of (l : list Node) (n : Node) : bool := bool_decide (n ∈ l).

Definition ex_is_Load : Node -> bool := one_of [13%nat].
Definition ex_is_Store : Node -> bool := one_of [15; 19]%nat.
Definition ex_is_Mem : Node -> bool := one_of [13; 15; 19]%nat.
Definition ex_is_Phi : Node -> bool := one_of [11; 12; 18]%nat.
Definition ex_in_body : Node -> bool := one_of ex_body.
Definition ex_heads : list Node := [12; 18]%nat.
Definition ex_tails : list Node := [15; 19]%nat.

(** What [get_slice] gives for the two slices: the store and the load of
    [a], last first, and the store of [c]. *)
Definition ex_get_slice (head tail : Node) : list Node :=
  match head with 12 => [15; 13] | 18 => [19] | _ => [] end%nat.

(** All pointers of a slice compare as possibly equal. *)
Definition ex_cmp (s1 s2 : Node) : Z := 4.
Definition ex_not_equal (c : Z) : bool := c <=? 3.

Definition ex_graph : Graph :=
  build_edges ex_is_Load ex_heads ex_tails ex_get_slice ex_cmp ex_not_equal.

Definition ex_depth : list Z := [1; 0; 0; 0; 1; 1; 2; 3; 4; 2; 1].

Example ex_build :
  build ex_is_Load ex_is_Store ex_is_Mem ex_is_Phi ex_inputs ex_in_body ex_body
        ex_body_idx ex_heads ex_tails ex_get_slice ex_cmp ex_not_equal 3
  = ([(Mem 19%nat, SliceSink 1); (Mem 18%nat, Mem 19%nat); (SliceSink 1, Sink);
      (Root, Mem 18%nat); (Mem 15%nat, SliceSink 0); (Mem 13%nat, Mem 15%nat);
      (Mem 12%nat, Mem 13%nat); (SliceSink 0, Sink); (Root, Mem 12%nat)],
     Some ex_depth).
Proof. vm_compute. reflexivity. Qed.

Lemma ex_depth_computed :
  compute_max_depth ex_is_Load ex_is_Store ex_is_Mem ex_is_Phi ex_inputs
    ex_in_body ex_body ex_body_idx ex_graph 3 = Some ex_depth.
Proof. vm_compute. reflexivity. Qed.

(** The body of the example is in the order of its graph. *)
Example ex_depth_loop_ends :
  compute_max_depth ex_is_Load ex_is_Store ex_is_Mem ex_is_Phi ex_inputs
    ex_in_body ex_body ex_body_idx ex_graph 2 = Some ex_depth.
Proof. vm_compute. reflexivity. Qed.

(** The outputs of the nodes of the example, and its slices as [analyze] and
    [get_slice] compute them. *)
Definition ex_outs (n : Node) : list Node :=
  match n with
  | 10 => [11; 12; 18; 15; 19]
  | 11 => [17; 21; 16]
  | 12 => [13; 15]
  | 18 => [19]
  | 17 => [13; 15]
  | 21 => [19]
  | 13 => [14]
  | 14 => [15]
  | 15 => [12]
  | 19 => [18]
  | 16 => [11]
  | _ => []
  end%nat.

Example ex_slices :
  analyze ex_is_Phi (one_of [12; 18]%nat) ex_in_body ex_outs ex_inputs 10%nat
    = Some (ex_heads, ex_tails) /\
  get_slice ex_is_Load ex_in_body ex_outs ex_inputs 3 12%nat 15%nat
    = Some (ex_get_slice 12%nat 15%nat) /\
  get_slice ex_is_Load ex_in_body ex_outs ex_inputs 3 18%nat 19%nat
    = Some (ex_get_slice 18%nat 19%nat).
Proof. vm_compute. auto. Qed.


Lemma ex_body_idx_pos j n : ex_body !! j = Some n -> ex_body_idx n = j.
Proof.
  intros H. do 11 (destruct j as [|j]; [injection H as <-; reflexivity|]).
  discriminate.
Qed.

Lemma ex_in_body_body n : ex_in_body n = true -> n ∈ ex_body.
Proof. intros H. unfold ex_in_body, one_of in H. now apply bool_decide_eq_true in H. Qed.

Lemma ex_elem_of (n : Node) (l : list Node) : one_of l n = true -> n ∈ l.
Proof. intros H. unfold one_of in H. now apply bool_decide_eq_true in H. Qed.

Lemma build_edges_spec_witness :
  (forall k s2, (k < 1)%nat -> ex_get_slice 12%nat 15%nat !! k = Some s2 ->
     ex_is_Load 13%nat && ex_is_Load s2 = false ->
     ex_not_equal (ex_cmp 13%nat s2) = false ->
     (Mem 13%nat, Mem s2) ∈ ex_graph) /\
  ((forall s2, s2 ∈ ex_get_slice 12%nat 15%nat -> (Mem 13%nat, Mem s2) ∉ ex_graph) ->
     (Mem 13%nat, SliceSink 0) ∈ ex_graph) /\
  ((forall dp, (dp, Mem 13%nat) ∈ ex_graph -> dp = Mem 12%nat) ->
     (Mem 12%nat, Mem 13%nat) ∈ ex_graph).
Proof.
  apply (build_edges_spec ex_is_Load ex_heads ex_tails ex_get_slice ex_cmp
           ex_not_equal 0 12%nat 15%nat 1 13%nat); reflexivity.
Defined.

Lemma compute_max_depth_fixpoint_witness :
  exists m,
    is_max_pred_depth ex_is_Load ex_is_Store ex_is_Mem ex_inputs ex_in_body
      ex_body_idx ex_graph ex_depth 15%nat m /\
    depth ex_body_idx ex_depth 15%nat = 1 + m.
Proof.
  apply (compute_max_depth_fixpoint ex_is_Load ex_is_Store ex_is_Mem ex_is_Phi
           ex_inputs ex_in_body ex_body ex_body_idx ex_graph 3 ex_depth 15%nat).
  - exact ex_depth_computed.
  - apply (ex_elem_of 15%nat ex_body). reflexivity.
  - reflexivity.
Defined.

Lemma compute_max_depth_phis_witness :
  (forall n, n ∈ ex_body -> ex_is_Phi n = true -> depth ex_body_idx ex_depth n = 0) /\
  (forall n, n ∈ ex_body -> ex_is_Phi n = false ->
     (forall p, Some p ∈ PredsIterator ex_is_Load ex_is_Store ex_is_Mem ex_inputs ex_graph n ->
        ex_in_body p = true -> ex_is_Phi p = true) ->
     depth ex_body_idx ex_depth n = 1).
Proof.
  apply (compute_max_depth_phis ex_is_Load ex_is_Store ex_is_Mem ex_is_Phi
           ex_inputs ex_in_body ex_body ex_body_idx ex_body_idx_pos ex_in_body_body
           ex_graph 3 ex_depth).
  exact ex_depth_computed.
Defined.

Lemma mutually_independent_iff_witness :
  exists b,
    mutually_independent ex_is_Load ex_is_Store ex_is_Mem ex_inputs ex_in_body
      ex_body_idx ex_graph ex_depth 14 [15; 19]%nat = Some b /\
    (forall s1 s2, s1 ∈ [15; 19]%nat -> s2 ∈ [15; 19]%nat ->
       is_Some (independent ex_is_Load ex_is_Store ex_is_Mem ex_inputs ex_in_body
                  ex_body_idx ex_graph ex_depth 14 s1 s2)) /\
    (b = true <->
     forall s1 s2, s1 ∈ [15; 19]%nat -> s2 ∈ [15; 19]%nat -> s1 <> s2 ->
       independent ex_is_Load ex_is_Store ex_is_Mem ex_inputs ex_in_body
         ex_body_idx ex_graph ex_depth 14 s1 s2 = Some true).
Proof.
  apply (mutually_independent_iff ex_is_Load ex_is_Store ex_is_Mem ex_is_Phi
           ex_inputs ex_in_body ex_body ex_body_idx ex_body_idx_pos ex_in_body_body
           ex_graph ex_depth 3 14 [15; 19]%nat).
  - exact ex_depth_computed.
  - discriminate.
  - intros s Hs. apply elem_of_cons in Hs. destruct Hs as [->|Hs]; [split; reflexivity|].
    apply list_elem_of_singleton in Hs. subst s. split; reflexivity.
  - simpl. lia.
Defined.

(** The two stores are independent; the load and the store of [a] are not. *)
Example ex_stores_independent :
  mutually_independent ex_is_Load ex_is_Store ex_is_Mem ex_inputs ex_in_body
    ex_body_idx ex_graph ex_depth 14 [15; 19]%nat = Some true /\
  mutually_independent ex_is_Load ex_is_Store ex_is_Mem ex_inputs ex_in_body
    ex_body_idx ex_graph ex_depth 14 [13; 15]%nat = Some false /\
  independent ex_is_Load ex_is_Store ex_is_Mem ex_inputs ex_in_body
    ex_body_idx ex_graph ex_depth 14 13%nat 15%nat = Some false.
Proof. vm_compute. auto. Qed.

(** C8 as stated fails for a memory phi: the memory phi 12 of the slice of
    [a] and the store 19 to [c] are in-body memory nodes of the built graph,
    [independent] holds of them in both orders, and yet
    [mutually_independent] returns false: the traversal from the phi goes
    round the backedge, through the store 15 and the load 13, back to the
    phi itself. *)
Lemma mutually_independent_phi :
  build ex_is_Load ex_is_Store ex_is_Mem ex_is_Phi ex_inputs ex_in_body ex_body
        ex_body_idx ex_heads ex_tails ex_get_slice ex_cmp ex_not_equal 3
    = (ex_graph, Some ex_depth) /\
  ex_is_Phi 12%nat = true /\ ex_in_body 12%nat = true /\ ex_in_body 19%nat = true /\
  independent ex_is_Load ex_is_Store ex_is_Mem ex_inputs ex_in_body
    ex_body_idx ex_graph ex_depth 14 12%nat 19%nat = Some true /\
  independent ex_is_Load ex_is_Store ex_is_Mem ex_inputs ex_in_body
    ex_body_idx ex_graph ex_depth 14 19%nat 12%nat = Some true /\
  mutually_independent ex_is_Load ex_is_Store ex_is_Mem ex_inputs ex_in_body
    ex_body_idx ex_graph ex_depth 14 [12; 19]%nat = Some false /\
  mutually_independent ex_is_Load ex_is_Store ex_is_Mem ex_inputs ex_in_body
    ex_body_idx ex_graph ex_depth 14 [12%nat] = Some false.
Proof. vm_compute. repeat split; reflexivity. Qed.


(** The example is ranked by the positions of its body. *)
Lemma ex_ranked :
  ranked ex_is_Load ex_is_Store ex_is_Mem ex_is_Phi ex_inputs ex_in_body ex_body
    ex_graph ex_body_idx.
Proof.
  intros n Hn Hpn p Hin Hb Hpp.
  repeat (apply elem_of_cons in Hn; destruct Hn as [->|Hn]);
    [..|now apply elem_of_nil in Hn];
    try discriminate Hpn;
    match type of Hin with _ ∈ ?l =>
      let l' := eval vm_compute in l in change l with l' in Hin end;
    repeat (apply elem_of_cons in Hin; destruct Hin as [Hin|Hin];
            [try discriminate Hin; injection Hin as ->|]);
    try (now apply elem_of_nil in Hin);
    try discriminate Hb; try discriminate Hpp;
    vm_compute; lia.
Qed.

Lemma build_edges_only_witness :
  exists i head tail, ex_heads !! i = Some head /\ ex_tails !! i = Some tail /\
    slice_edge ex_is_Load ex_get_slice ex_cmp ex_not_equal i head tail
      (Mem 13%nat, Mem 15%nat).
Proof.
  apply (build_edges_only ex_is_Load ex_heads ex_tails ex_get_slice ex_cmp ex_not_equal
           (Mem 13%nat, Mem 15%nat)).
  unfold build_edges. simpl. repeat (first [left|right]).
Defined.

Lemma independent_correct_witness :
  exists b,
    independent ex_is_Load ex_is_Store ex_is_Mem ex_inputs ex_in_body ex_body_idx
      ex_graph ex_depth 14 15%nat 19%nat = Some b /\
    (b = true <->
     15%nat <> 19%nat /\
     ~ tc (dep_step ex_is_Load ex_is_Store ex_is_Mem ex_is_Phi ex_inputs ex_in_body
             ex_graph) 15%nat 19%nat /\
     ~ tc (dep_step ex_is_Load ex_is_Store ex_is_Mem ex_is_Phi ex_inputs ex_in_body
             ex_graph) 19%nat 15%nat).
Proof.
  apply (independent_correct ex_is_Load ex_is_Store ex_is_Mem ex_is_Phi ex_inputs
           ex_in_body ex_body ex_body_idx ex_body_idx_pos ex_in_body_body
           ex_graph ex_depth 3 14 15%nat 19%nat).
  - exact ex_depth_computed.
  - reflexivity.
  - reflexivity.
  - reflexivity.
  - reflexivity.
  - simpl. lia.
Defined.

Lemma mutually_independent_sublist_witness :
  mutually_independent ex_is_Load ex_is_Store ex_is_Mem ex_inputs ex_in_body
    ex_body_idx ex_graph ex_depth 14 [19%nat] = Some true.
Proof.
  apply (mutually_independent_sublist ex_is_Load ex_is_Store ex_is_Mem ex_inputs
           ex_in_body ex_body ex_body_idx ex_in_body_body ex_graph ex_depth 14
           [15; 19]%nat [19%nat]).
  - discriminate.
  - intros n Hn. now right.
  - simpl. lia.
  - simpl. lia.
  - reflexivity.
Defined.

Lemma compute_max_depth_terminates_witness :
  exists d,
    compute_max_depth ex_is_Load ex_is_Store ex_is_Mem ex_is_Phi ex_inputs ex_in_body
      ex_body ex_body_idx ex_graph 12 = Some d /\
    compute_max_depth ex_is_Load ex_is_Store ex_is_Mem ex_is_Phi ex_inputs ex_in_body
      ex_body ex_body_idx ex_graph 20 = Some d.
Proof.
  apply (compute_max_depth_terminates ex_is_Load ex_is_Store ex_is_Mem ex_is_Phi
           ex_inputs ex_in_body ex_body ex_body_idx ex_body_idx_pos ex_in_body_body
           ex_graph ex_body_idx ex_ranked 11 20).
  - intros m Hm.
    repeat (apply elem_of_cons in Hm; destruct Hm as [->|Hm]);
      [..|now apply elem_of_nil in Hm]; simpl; lia.
  - lia.
Defined.

Lemma compute_max_depth_two_passes_witness :
  exists d,
    compute_max_depth ex_is_Load ex_is_Store ex_is_Mem ex_is_Phi ex_inputs ex_in_body
      ex_body ex_body_idx ex_graph 2 = Some d /\
    compute_max_depth ex_is_Load ex_is_Store ex_is_Mem ex_is_Phi ex_inputs ex_in_body
      ex_body ex_body_idx ex_graph 5 = Some d.
Proof.
  apply (compute_max_depth_two_passes ex_is_Load ex_is_Store ex_is_Mem ex_is_Phi
           ex_inputs ex_in_body ex_body ex_body_idx ex_body_idx_pos ex_in_body_body
           ex_graph 5).
  - apply (ranked_topological ex_is_Load ex_is_Store ex_is_Mem ex_is_Phi ex_inputs
             ex_in_body ex_body ex_body_idx ex_body_idx_pos ex_in_body_body).
    exact ex_ranked.
  - lia.
Defined.

End DepGraph.

(** ** VLoopBody::construct *)

Module LoopBody.
Local Open Scope Z_scope.

(** An IR node is known by its index [_idx]. *)
Definition Node : Type := nat.

(** The map [_body_idx], from the index of a node to its position;
    [set_body_idx(n, i)]. *)
Definition set_body_idx (body_idx : Node -> nat) (n : Node) (i : nat) : Node -> nat :=
  fun m => if Nat.eqb m n then i else body_idx m.

(** [_body.at_put_grow(i, n)]: the array grows to hold position [i], the
    new positions before [i] are null. *)
Definition at_put_grow (l : list (option Node)) (i : nat) (n : Node)
  : list (option Node) :=
  if (i <? length l)%nat then <[i := Some n]> l
  else l ++ replicate (i - length l) None ++ [Some n].

(** The state of the depth first walk: the stack (its top first), the sets
    [visited] and [post_visited] of body positions, the body under
    construction and the next position to give out. *)
Record Walk : Type := mkWalk {
  stack : list Node;
  visited : list nat;
  post_visited : list nat;
  _body : list (option Node);
  rpo_idx : Z
}.

(** What one iteration of the walk does: the loop is over, or goes on in a
    new state, or has no position left to give out. *)
Inductive Step : Type :=
| Done
| Next (w : Walk)
| NoIndex.

Inductive Result : Type :=
| FAILURE_NODE_NOT_ALLOWED
| Success (body : list Node) (body_idx : Node -> nat).

Section Construct.

(** What [construct] asks of the IR and of the loop: membership in the
    body, the kinds of nodes it refuses ([is_CFG_Proj] is
    [as_Proj()->is_CFG()]), phis, the outputs [fast_outs] of a node, the
    list [lpt->_body] and the loop head [cl]. *)
Variable in_body : Node -> bool.
Variable is_LoadStore is_MergeMem is_Proj is_CFG_Proj is_Phi : Node -> bool.
Variable outs : Node -> list Node.
Variable lpt_body : list Node.
Variable cl : Node.

Definition not_allowed (n : Node) : bool :=
  is_LoadStore n || is_MergeMem n || (is_Proj n && negb (is_CFG_Proj n)).

(** First pass over the loop body, from position [i] on: whether it bails
    out, the temporary map and the number of nodes counted. *)
Fixpoint first_pass (ns : list Node) (i : nat) (body_idx : Node -> nat)
    (body_count : nat) : bool * (Node -> nat) * nat :=
  match ns with
  | [] => (false, body_idx, body_count)
  | n :: ns =>
      if negb (in_body n) then first_pass ns (S i) body_idx body_count
      else
        (* Create a temporary map *)
        let body_idx := set_body_idx body_idx n i in
        let body_count := S body_count in
        if not_allowed n then (true, body_idx, body_count)
        else first_pass ns (S i) body_idx body_count
  end.

(** The uses of [n] that the walk pushes. *)
Definition pushed (body_idx : Node -> nat) (w : Walk) (n : Node) : list Node :=
  filter (fun use =>
            in_body use && negb (bool_decide (body_idx use ∈ visited w)) &&
            (* Don't go around backedge *)
            (negb (is_Phi use) || Nat.eqb n cl) = true)
         (outs n).

(** One iteration of [while (!stack.is_empty())]. *)
Definition walk_step (body_idx : Node -> nat) (w : Walk) : Step :=
  match stack w with
  | [] => Done
  | n :: rest =>
      if negb (bool_decide (body_idx n ∈ visited w)) then
        (* forward arc in graph *)
        Next (mkWalk (stack w) (body_idx n :: visited w) (post_visited w)
                     (_body w) (rpo_idx w))
      else if negb (bool_decide (body_idx n ∈ post_visited w)) then
        (* cross or back arc *)
        match pushed body_idx w n with
        | [] =>
            (* There were no additional uses, post visit node now *)
            if rpo_idx w <? 0 then NoIndex
            else Next (mkWalk rest (visited w) (body_idx n :: post_visited w)
                         (at_put_grow (_body w) (Z.to_nat (rpo_idx w)) n)
                         (rpo_idx w - 1))
        | uses =>
            Next (mkWalk (rev uses ++ stack w) (visited w) (post_visited w)
                         (_body w) (rpo_idx w))
        end
      else
        (* Remove post-visited node from stack *)
        Next (mkWalk rest (visited w) (post_visited w) (_body w) (rpo_idx w))
  end.

Fixpoint walk (fuel : nat) (body_idx : Node -> nat) (w : Walk) : option Walk :=
  match fuel with
  | O => None
  | S fuel =>
      match walk_step body_idx w with
      | Done => Some w
      | Next w => walk fuel body_idx w
      | NoIndex => None
      end
  end.

(** Create real map of block indices for nodes; a null entry of the body
    has no index. *)
Fixpoint final_map (body : list (option Node)) (j : nat) (body_idx : Node -> nat)
  : option (list Node * (Node -> nat)) :=
  match body with
  | [] => Some ([], body_idx)
  | Some n :: body =>
      match final_map body (S j) (set_body_idx body_idx n j) with
      | Some (ns, body_idx) => Some (n :: ns, body_idx)
      | None => None
      end
  | None :: _ => None
  end.

Definition construct (fuel : nat) : option Result :=
  let '(bailout, body_idx, body_count) := first_pass lpt_body 0 (fun _ => 0%nat) 0 in
  if bailout then Some FAILURE_NODE_NOT_ALLOWED
  else
    let w := mkWalk [cl] [body_idx cl] [] [] (Z.of_nat body_count - 1) in
    match walk fuel body_idx w with
    | None => None
    | Some w =>
        match final_map (_body w) 0 body_idx with
        | Some (body, body_idx) => Some (Success body body_idx)
        | None => None
        end
    end.

(** *** The first pass *)

Lemma first_pass_bailout ns : forall i body_idx body_count,
  fst (fst (first_pass ns i body_idx body_count)) = true <->
  exists n, n ∈ ns /\ in_body n = true /\ not_allowed n = true.
Proof.
  induction ns as [|n ns IH]; intros i body_idx body_count; simpl.
  - split; [discriminate|]. intros (n & Hn & _). now apply elem_of_nil in Hn.
  - destruct (in_body n) eqn:Hb; simpl.
    + destruct (not_allowed n) eqn:Hna; simpl.
      * split; [|reflexivity]. intros _. exists n. split; [left|auto].
      * rewrite IH. split; intros (m & Hm & H1 & H2).
        -- exists m. split; [now right|auto].
        -- apply elem_of_cons in Hm. destruct Hm as [->|Hm]; [congruence|eauto].
    + rewrite IH. split; intros (m & Hm & H1 & H2).
      * exists m. split; [now right|auto].
      * apply elem_of_cons in Hm. destruct Hm as [->|Hm]; [congruence|eauto].
Qed.

(** X16. [construct] bails out, with the reason that a node is not
    allowed, exactly when the loop body holds an in-body node that is a
    LoadStore, a MergeMem or a data projection; the walk is then not
    started. *)
Theorem construct_bailout fuel :
  construct fuel = Some FAILURE_NODE_NOT_ALLOWED <->
  exists n, n ∈ lpt_body /\ in_body n = true /\
    (is_LoadStore n = true \/ is_MergeMem n = true \/
     (is_Proj n = true /\ is_CFG_Proj n = false)).
Proof.
  assert (Hna : forall n, not_allowed n = true <->
            is_LoadStore n = true \/ is_MergeMem n = true \/
            (is_Proj n = true /\ is_CFG_Proj n = false)).
  { intros n. unfold not_allowed.
    rewrite !orb_true_iff, andb_true_iff, negb_true_iff.
    split; [intros [[?|?]|?]; auto|intros [?|[?|?]]; auto]. }
  unfold construct.
  pose proof (first_pass_bailout lpt_body 0 (fun _ => 0%nat) 0) as H.
  destruct (first_pass lpt_body 0 (fun _ => 0%nat) 0) as [[bailout body_idx] body_count].
  simpl in H. destruct bailout.
  - split; [|reflexivity]. intros _.
    destruct (proj1 H eq_refl) as (n & Hn & Hb & Hf). exists n. repeat split; auto.
    now apply Hna.
  - split.
    + intros Hc. destruct (walk fuel body_idx _) as [w|]; [|discriminate].
      destruct (final_map (_body w) 0 body_idx) as [[? ?]|]; discriminate.
    + intros (n & Hn & Hb & Hf). assert (false = true); [|discriminate].
      apply H. exists n. repeat split; auto. now apply Hna.
Qed.

(** *** The walk *)

(** The number of nodes that the first pass counts. *)
Definition body_count : nat := length (filter (fun n => in_body n = true) lpt_body).

Lemma first_pass_ok ns : forall i idx0 bc0 idx bc,
  NoDup ns ->
  first_pass ns i idx0 bc0 = (false, idx, bc) ->
  bc = (bc0 + length (filter (fun n => in_body n = true) ns))%nat /\
  (forall k n, ns !! k = Some n -> in_body n = true -> idx n = (i + k)%nat) /\
  (forall m, m ∉ ns -> idx m = idx0 m).
Proof.
  induction ns as [|n ns IH]; intros i idx0 bc0 idx bc Hnd H; simpl in H.
  - injection H as <- <-. split; [simpl; lia|]. split; [|auto].
    intros k n Hk. discriminate Hk.
  - apply NoDup_cons in Hnd. destruct Hnd as [Hn Hnd].
    rewrite filter_cons.
    destruct (in_body n) eqn:Hb; simpl in H.
    + destruct (not_allowed n); [discriminate|].
      destruct (IH _ _ _ _ _ Hnd H) as (E & Hpos & Hout).
      destruct (decide (true = true)) as [_|N]; [|exfalso; now apply N].
      split; [simpl; lia|]. split.
      * intros [|k] m Hk Hm; simpl in Hk.
        -- injection Hk as <-. rewrite (Hout n Hn). unfold set_body_idx.
           rewrite Nat.eqb_refl. lia.
        -- rewrite (Hpos k m Hk Hm). lia.
      * intros m Hm. apply not_elem_of_cons in Hm. destruct Hm as [Hne Hm].
        rewrite (Hout m Hm). unfold set_body_idx.
        destruct (Nat.eqb_spec m n); [contradiction|reflexivity].
    + destruct (IH _ _ _ _ _ Hnd H) as (E & Hpos & Hout).
      destruct (decide (false = true)) as [?|_]; [discriminate|].
      split; [exact E|]. split.
      * intros [|k] m Hk Hm; simpl in Hk.
        -- injection Hk as <-. congruence.
        -- rewrite (Hpos k m Hk Hm). lia.
      * intros m Hm. apply not_elem_of_cons in Hm. destruct Hm as [Hne Hm]. auto.
Qed.

Section Walked.

(** The loop body lists every in-body node once, the loop head is one of
    them, and [idx] is the temporary map of the first pass. *)
Hypothesis lpt_NoDup : NoDup lpt_body.
Hypothesis in_body_lpt : forall n, in_body n = true -> n ∈ lpt_body.
Hypothesis cl_in_body : in_body cl = true.
Variable idx : Node -> nat.
Hypothesis idx_pos : forall i n, lpt_body !! i = Some n -> in_body n = true -> idx n = i.

(** The arcs that the walk follows: to an in-body output, not to the loop
    head, and to a phi only from the loop head. *)
Definition edge (n u : Node) : Prop :=
  u ∈ outs n /\ in_body u = true /\ u <> cl /\ (is_Phi u = false \/ n = cl).

Lemma idx_inj n m : in_body n = true -> in_body m = true -> idx n = idx m -> n = m.
Proof.
  intros Hn Hm E.
  pose proof (in_body_lpt n Hn) as Hi. pose proof (in_body_lpt m Hm) as Hj.
  apply list_elem_of_lookup in Hi, Hj. destruct Hi as [i Hi]. destruct Hj as [j Hj].
  rewrite (idx_pos i n Hi Hn), (idx_pos j m Hj Hm) in E. subst j. congruence.
Qed.

Lemma in_body_bound (l : list Node) :
  NoDup l -> (forall n, n ∈ l -> in_body n = true) -> (length l <= body_count)%nat.
Proof.
  intros Hnd Hl. unfold body_count. apply submseteq_length.
  apply NoDup_submseteq; [exact Hnd|].
  intros n Hn. apply list_elem_of_filter. split; [now apply Hl|].
  apply in_body_lpt. now apply Hl.
Qed.

(** The state of the walk, with the list [placed] of the nodes that have
    their position in the body, the latest first. *)
Record Inv (placed : list Node) (w : Walk) : Prop := {
  inv_stack : forall n, n ∈ stack w -> in_body n = true /\ rtc edge cl n;
  inv_visited : forall i, i ∈ visited w ->
                exists n, in_body n = true /\ idx n = i /\ rtc edge cl n;
  inv_visited_nodup : NoDup (visited w);
  inv_cl : idx cl ∈ visited w;
  inv_post : post_visited w = map idx placed;
  inv_placed_nodup : NoDup placed;
  inv_placed : forall n, n ∈ placed -> in_body n = true /\ idx n ∈ visited w;
  inv_body : _body w = match placed with
                       | [] => []
                       | _ => replicate (body_count - length placed) None
                              ++ map Some placed
                       end;
  inv_rpo : rpo_idx w = Z.of_nat body_count - 1 - Z.of_nat (length placed);
  inv_gray : forall n, in_body n = true -> idx n ∈ visited w -> n ∉ placed ->
             n ∈ stack w;
  inv_closed : forall b u, b ∈ placed -> edge b u -> idx u ∈ visited w
}.

Lemma Inv_placed_bound placed w : Inv placed w -> (length placed <= body_count)%nat.
Proof.
  intros I. apply in_body_bound; [apply (inv_placed_nodup _ _ I)|].
  intros n Hn. now apply (inv_placed _ _ I).
Qed.

Lemma post_visited_placed placed w n :
  Inv placed w -> in_body n = true ->
  (idx n ∈ post_visited w <-> n ∈ placed).
Proof.
  intros I Hn. rewrite (inv_post _ _ I). split.
  - intros H. apply list_elem_of_fmap in H. destruct H as (b & E & Hb).
    assert (b = n); [|now subst].
    apply idx_inj; auto. now apply (inv_placed _ _ I).
  - intros H. apply list_elem_of_fmap. eauto.
Qed.

Lemma elem_of_rev (l : list Node) x : x ∈ rev l <-> x ∈ l.
Proof. rewrite !list_elem_of_In. symmetry. apply in_rev. Qed.

Lemma pushed_spec w n u :
  u ∈ pushed idx w n <->
  u ∈ outs n /\ in_body u = true /\ (idx u ∉ visited w) /\ (is_Phi u = false \/ n = cl).
Proof.
  unfold pushed. rewrite list_elem_of_filter, !andb_true_iff, orb_true_iff,
    !negb_true_iff, bool_decide_eq_false, Nat.eqb_eq.
  split; [intros [[[? ?] ?] ?]; auto|intros (? & ? & ? & ?); auto].
Qed.

Lemma at_put_grow_first bc n : (1 <= bc)%nat ->
  at_put_grow [] (bc - 1) n = replicate (bc - 1) None ++ [Some n].
Proof.
  intros H. unfold at_put_grow. simpl. now rewrite Nat.sub_0_r.
Qed.

Lemma at_put_grow_next k (rest : list (option Node)) n :
  at_put_grow (replicate (S k) None ++ rest) k n = replicate k None ++ Some n :: rest.
Proof.
  unfold at_put_grow.
  assert (Hlt : (k < length (replicate (S k) None ++ rest))%nat).
  { rewrite length_app, length_replicate. lia. }
  apply Nat.ltb_lt in Hlt. rewrite Hlt.
  replace (S k) with (k + 1)%nat by lia.
  rewrite replicate_add, <- app_assoc. simpl.
  rewrite insert_app_r_alt by (rewrite length_replicate; lia).
  rewrite length_replicate, Nat.sub_diag. reflexivity.
Qed.

(** The walk has a position for every node it post-visits. *)
Lemma walk_step_defined placed w : Inv placed w -> walk_step idx w <> NoIndex.
Proof.
  intros I. unfold walk_step.
  destruct (stack w) as [|n rest] eqn:Es; [discriminate|].
  destruct (negb (bool_decide (idx n ∈ visited w))) eqn:Ev; [discriminate|].
  destruct (negb (bool_decide (idx n ∈ post_visited w))) eqn:Ep; [|discriminate].
  destruct (pushed idx w n) eqn:Eu; [|discriminate].
  apply negb_false_iff, bool_decide_eq_true in Ev.
  apply negb_true_iff, bool_decide_eq_false in Ep.
  destruct (inv_stack _ _ I n) as [Hb _]; [rewrite Es; left|].
  assert (Hn : n ∉ placed) by (rewrite <- (post_visited_placed placed w n I Hb); exact Ep).
  assert (Hlen : (length (n :: placed) <= body_count)%nat).
  { apply in_body_bound.
    - apply NoDup_cons. split; [exact Hn|apply (inv_placed_nodup _ _ I)].
    - intros m Hm. apply elem_of_cons in Hm. destruct Hm as [->|Hm]; [exact Hb|].
      now apply (inv_placed _ _ I). }
  rewrite (inv_rpo _ _ I). simpl in Hlen.
  destruct (Z.ltb_spec (Z.of_nat body_count - 1 - Z.of_nat (length placed)) 0);
    [lia|discriminate].
Qed.

Lemma walk_step_inv placed w w' :
  Inv placed w -> walk_step idx w = Next w' ->
  exists placed', Inv placed' w' /\
    (placed' = placed \/
     exists n, placed' = n :: placed /\ (n ∉ placed) /\ in_body n = true /\
       (forall u, edge n u -> idx u ∈ visited w)).
Proof.
  intros I. unfold walk_step.
  destruct (stack w) as [|n rest] eqn:Es; [discriminate|].
  destruct (inv_stack _ _ I n) as [Hb Hreach]; [rewrite Es; left|].
  destruct (negb (bool_decide (idx n ∈ visited w))) eqn:Ev.
  { (* forward arc *)
    apply negb_true_iff, bool_decide_eq_false in Ev.
    intros [= <-]. exists placed. split; [|now left].
    destruct I. constructor; simpl; rewrite <- ?Es; auto.
    - intros i Hi. apply elem_of_cons in Hi. destruct Hi as [->|Hi]; eauto.
    - apply NoDup_cons. auto.
    - now right.
    - intros m Hm. destruct (inv_placed0 m Hm). split; [auto|now right].
    - intros m Hm Hv Hp. apply elem_of_cons in Hv. destruct Hv as [E|Hv]; [|auto].
      apply idx_inj in E; auto. subst m. rewrite Es. left.
    - intros b u Hbp He. right. eauto. }
  apply negb_false_iff, bool_decide_eq_true in Ev.
  destruct (negb (bool_decide (idx n ∈ post_visited w))) eqn:Ep.
  - apply negb_true_iff, bool_decide_eq_false in Ep.
    assert (Hn : n ∉ placed) by (rewrite <- (post_visited_placed placed w n I Hb); exact Ep).
    destruct (pushed idx w n) as [|u uses] eqn:Eu.
    + (* post visit *)
      assert (Hlen : (length (n :: placed) <= body_count)%nat).
      { apply in_body_bound.
        - apply NoDup_cons. split; [exact Hn|apply (inv_placed_nodup _ _ I)].
        - intros m Hm. apply elem_of_cons in Hm. destruct Hm as [->|Hm]; [exact Hb|].
          now apply (inv_placed _ _ I). }
      simpl in Hlen.
      destruct (rpo_idx w <? 0); [discriminate|].
      assert (Hclosed : forall u, edge n u -> idx u ∈ visited w).
      { intros u (Hu & Hbu & _ & Hphi).
        destruct (decide (idx u ∈ visited w)) as [?|Hnv]; [assumption|].
        assert (Hp : u ∈ pushed idx w n) by (apply pushed_spec; auto).
        rewrite Eu in Hp. now apply elem_of_nil in Hp. }
      intros [= <-]. exists (n :: placed). split.
      * destruct I. constructor; simpl; auto.
        -- intros m Hm. apply inv_stack0. rewrite Es. now right.
        -- now rewrite inv_post0.
        -- apply NoDup_cons. auto.
        -- intros m Hm. apply elem_of_cons in Hm. destruct Hm as [->|Hm]; auto.
        -- rewrite inv_body0, inv_rpo0.
           replace (Z.to_nat (Z.of_nat body_count - 1 - Z.of_nat (length placed)))
             with (body_count - 1 - length placed)%nat by lia.
           destruct placed as [|b placed'] eqn:Eplaced.
           ++ simpl. rewrite Nat.sub_0_r. apply at_put_grow_first. lia.
           ++ simpl in Hlen |- *.
              replace (body_count - S (length placed'))%nat
                with (S (body_count - 1 - S (length placed')))%nat by lia.
              rewrite at_put_grow_next. simpl. f_equal. f_equal. lia.
        -- rewrite inv_rpo0. lia.
        -- intros m Hm Hv Hp. apply not_elem_of_cons in Hp. destruct Hp as [Hne Hp].
           specialize (inv_gray0 m Hm Hv Hp). rewrite Es in inv_gray0.
           apply elem_of_cons in inv_gray0. destruct inv_gray0; [contradiction|assumption].
        -- intros b u0 Hbp He. apply elem_of_cons in Hbp.
           destruct Hbp as [->|Hbp]; [now apply Hclosed|eauto].
      * right. exists n. auto.
    + (* push the uses *)
      intros [= <-]. exists placed. split; [|now left].
      destruct I. constructor; cbn [stack visited post_visited _body rpo_idx]; auto.
      * intros m Hm. apply elem_of_app in Hm. destruct Hm as [Hm|Hm].
        -- change (rev uses ++ [u]) with (rev (u :: uses)) in Hm.
           apply (proj1 (elem_of_rev _ _)) in Hm. rewrite <- Eu in Hm.
           apply pushed_spec in Hm. destruct Hm as (Hu & Hbu & Hnv & Hphi).
           split; [exact Hbu|]. eapply rtc_r; [exact Hreach|].
           repeat split; auto. intros ->. contradiction.
        -- apply inv_stack0. now rewrite Es.
      * intros m Hm Hv Hp. apply elem_of_app. right. rewrite <- Es. auto.
  - (* Remove post-visited node from stack *)
    apply negb_false_iff, bool_decide_eq_true in Ep.
    apply (post_visited_placed placed w n I Hb) in Ep.
    intros [= <-]. exists placed. split; [|now left].
    destruct I. constructor; simpl; auto.
    + intros m Hm. apply inv_stack0. rewrite Es. now right.
    + intros m Hm Hv Hp. specialize (inv_gray0 m Hm Hv Hp). rewrite Es in inv_gray0.
      apply elem_of_cons in inv_gray0. destruct inv_gray0 as [->|?]; [contradiction|assumption].
Qed.

(** *** The walk ends *)

Lemma visited_nodes placed w :
  Inv placed w ->
  exists seen, visited w = map idx seen /\ NoDup seen /\
    forall n, n ∈ seen -> in_body n = true.
Proof.
  intros I. pose proof (inv_visited _ _ I) as Hv. pose proof (inv_visited_nodup _ _ I) as Hnd.
  revert Hv Hnd. generalize (visited w). intros l. induction l as [|i l IH]; intros Hv Hnd.
  - exists []. repeat split; [constructor|]. intros n Hn. now apply elem_of_nil in Hn.
  - apply NoDup_cons in Hnd. destruct Hnd as [Hi Hnd].
    destruct IH as (seen & -> & Hs & Hb); [intros j Hj; apply Hv; now right|exact Hnd|].
    destruct (Hv i ltac:(left)) as (n & Hn & <- & _).
    exists (n :: seen). split; [reflexivity|]. split.
    + apply NoDup_cons. split; [|exact Hs]. intros Hin. apply Hi.
      apply list_elem_of_fmap. eauto.
    + intros x Hx. apply elem_of_cons in Hx. destruct Hx as [->|Hx]; auto.
Qed.

Lemma visited_bound placed w : Inv placed w -> (length (visited w) <= body_count)%nat.
Proof.
  intros I. destruct (visited_nodes placed w I) as (seen & -> & Hnd & Hb).
  rewrite length_map. now apply in_body_bound.
Qed.

(** A bound [D] on the number of outputs of a node. The measure of a
    state: the nodes not yet visited weigh the most, then the height of the
    stack; a visited node on top of the stack weighs more than what a node
    can push. *)
Variable D : nat.
Hypothesis outs_bound : forall n, in_body n = true -> (length (outs n) <= D)%nat.

Definition top_white (w : Walk) : bool :=
  match stack w with
  | n :: _ => negb (bool_decide (idx n ∈ visited w))
  | [] => false
  end.

Definition measure (w : Walk) : nat :=
  2 * (D + 1) * (body_count - length (visited w)) + length (stack w)
  + (if top_white w then 0 else D + 1).

Lemma walk_step_measure placed w w' :
  Inv placed w -> walk_step idx w = Next w' -> (measure w' < measure w)%nat.
Proof.
  intros I Hstep.
  destruct (walk_step_inv placed w w' I Hstep) as (placed' & I' & _).
  pose proof (visited_bound _ _ I) as Hv. pose proof (visited_bound _ _ I') as Hv'.
  revert Hstep Hv'. unfold walk_step, measure, top_white.
  destruct (stack w) as [|n rest] eqn:Es; [discriminate|].
  destruct (inv_stack _ _ I n) as [Hb _]; [rewrite Es; left|].
  destruct (negb (bool_decide (idx n ∈ visited w))) eqn:Ev.
  { intros [= <-]. simpl. intros Hv'.
    destruct (negb (bool_decide (idx n ∈ idx n :: visited w))); nia. }
  destruct (negb (bool_decide (idx n ∈ post_visited w))) eqn:Ep.
  - destruct (pushed idx w n) as [|u uses] eqn:Eu.
    + destruct (rpo_idx w <? 0); [discriminate|]. intros [= <-]. simpl. intros _.
      destruct rest as [|m rest']; [simpl; lia|].
      destruct (negb (bool_decide (idx m ∈ visited w))); simpl; lia.
    + intros [= <-]. cbn [stack visited]. intros _.
      assert (Hk : (length (u :: uses) <= D)%nat).
      { rewrite <- Eu. unfold pushed. etransitivity; [apply length_filter|].
        now apply outs_bound. }
      assert (Htop : exists t l, rev uses ++ [u] = t :: l /\ t ∈ pushed idx w n).
      { change (rev uses ++ [u]) with (rev (u :: uses)). rewrite <- Eu.
        destruct (rev (pushed idx w n)) as [|t l] eqn:Er.
        - apply (f_equal (@length Node)) in Er. rewrite length_rev, Eu in Er. discriminate.
        - exists t, l. split; [reflexivity|]. apply elem_of_rev. rewrite Er. left. }
      destruct Htop as (t & l & Et & Ht). rewrite Et.
      apply pushed_spec in Ht. destruct Ht as (_ & _ & Hnv & _).
      simpl. rewrite (bool_decide_eq_false_2 _ Hnv). simpl.
      apply (f_equal (@length Node)) in Et. rewrite length_app, length_rev in Et.
      simpl in Et, Hk. rewrite length_app. simpl. lia.
  - intros [= <-]. simpl. intros _.
    destruct rest as [|m rest']; [simpl; lia|].
    destruct (negb (bool_decide (idx m ∈ visited w))); simpl; lia.
Qed.

Lemma walk_step_done w : walk_step idx w = Done -> stack w = [].
Proof.
  unfold walk_step. destruct (stack w) as [|n rest]; [reflexivity|].
  destruct (negb _); [discriminate|]. destruct (negb _); [|discriminate].
  destruct (pushed idx w n); [|discriminate]. destruct (rpo_idx w <? 0); discriminate.
Qed.

(** With enough fuel the walk ends, in a state with an empty stack that
    satisfies every invariant [J] of the steps that implies [Inv]. *)
Lemma walk_ends (J : list Node -> Walk -> Prop) :
  (forall placed w, J placed w -> Inv placed w) ->
  (forall placed w w', J placed w -> walk_step idx w = Next w' ->
     exists placed', J placed' w') ->
  forall fuel placed w, J placed w -> (measure w < fuel)%nat ->
  exists placed' w', walk fuel idx w = Some w' /\ J placed' w' /\ stack w' = [].
Proof.
  intros HJ Hstep fuel. induction fuel as [|fuel IH]; intros placed w Hw Hm; [lia|].
  simpl. destruct (walk_step idx w) as [|w1|] eqn:Es.
  - exists placed, w. split; [reflexivity|]. split; [exact Hw|]. now apply walk_step_done.
  - destruct (Hstep _ _ _ Hw Es) as [placed1 H1].
    pose proof (walk_step_measure placed w w1 (HJ _ _ Hw) Es).
    apply (IH placed1 w1 H1). lia.
  - exfalso. now apply (walk_step_defined placed w (HJ _ _ Hw)).
Qed.

Lemma Inv_init :
  Inv [] (mkWalk [cl] [idx cl] [] [] (Z.of_nat body_count - 1)).
Proof.
  constructor; simpl; auto.
  - intros n Hn. apply list_elem_of_singleton in Hn. subst n. split; [exact cl_in_body|].
    apply rtc_refl.
  - intros i Hi. apply list_elem_of_singleton in Hi. subst i. exists cl.
    split; [exact cl_in_body|]. split; [reflexivity|apply rtc_refl].
  - apply NoDup_singleton.
  - left.
  - constructor.
  - intros n Hn. now apply elem_of_nil in Hn.
  - lia.
  - intros n Hn Hv _. apply list_elem_of_singleton in Hv.
    apply idx_inj in Hv; auto. subst n. left.
  - intros b u Hb. now apply elem_of_nil in Hb.
Qed.

Lemma measure_init :
  (measure (mkWalk [cl] [idx cl] [] [] (Z.of_nat body_count - 1))
   <= 2 * (D + 1) * body_count + D + 2)%nat.
Proof. unfold measure, top_white. simpl. destruct (negb _); nia. Qed.

(** When the walk is over, the placed nodes are the nodes that the arcs
    reach from the loop head. *)
Lemma Inv_end placed w :
  Inv placed w -> stack w = [] -> forall n, n ∈ placed <-> rtc edge cl n.
Proof.
  intros I Hs.
  assert (Hblack : forall n, in_body n = true -> idx n ∈ visited w -> n ∈ placed).
  { intros n Hn Hv. destruct (decide (n ∈ placed)) as [?|Hp]; [assumption|].
    pose proof (inv_gray _ _ I n Hn Hv Hp) as H. rewrite Hs in H.
    now apply elem_of_nil in H. }
  intros n. split.
  - intros Hn. destruct (inv_placed _ _ I n Hn) as [Hb Hv].
    destruct (inv_visited _ _ I _ Hv) as (m & Hm & E & Hr).
    apply idx_inj in E; auto. now subst m.
  - intros Hr. apply rtc_nsteps in Hr. destruct Hr as [k Hr].
    revert n Hr. induction k as [|k IH]; intros n Hr.
    + inversion Hr; subst. apply Hblack; [exact cl_in_body|apply (inv_cl _ _ I)].
    + apply nsteps_inv_r in Hr. destruct Hr as (b & Hb & He).
      pose proof (IH b Hb) as Hbp.
      apply Hblack; [apply He|]. now apply (inv_closed _ _ I b n).
Qed.

Lemma final_map_spec l : forall j m,
  NoDup l ->
  exists m', final_map (map Some l) j m = Some (l, m') /\
    (forall k n, l !! k = Some n -> m' n = (j + k)%nat) /\
    (forall x, x ∉ l -> m' x = m x).
Proof.
  induction l as [|n l IH]; intros j m Hnd; simpl.
  - exists m. repeat split; auto. intros k n Hk. discriminate Hk.
  - apply NoDup_cons in Hnd. destruct Hnd as [Hn Hnd].
    destruct (IH (S j) (set_body_idx m n j) Hnd) as (m' & -> & Hpos & Hout).
    exists m'. split; [reflexivity|]. split.
    + intros [|k] x Hk; simpl in Hk.
      * injection Hk as <-. rewrite (Hout n Hn). unfold set_body_idx.
        rewrite Nat.eqb_refl. lia.
      * rewrite (Hpos k x Hk). lia.
    + intros x Hx. apply not_elem_of_cons in Hx. destruct Hx as [Hne Hx].
      rewrite (Hout x Hx). unfold set_body_idx.
      destruct (Nat.eqb_spec x n); [contradiction|reflexivity].
Qed.

(** When every in-body node is reached from the loop head, the body is
    full at the end of the walk. *)
Lemma Inv_full placed w :
  Inv placed w -> stack w = [] ->
  (forall n, in_body n = true -> rtc edge cl n) ->
  _body w = map Some placed /\ length placed = body_count /\
  forall n, n ∈ placed <-> in_body n = true.
Proof.
  intros I Hs Hall.
  pose proof (Inv_end placed w I Hs) as Hend.
  assert (Hiff : forall n, n ∈ placed <-> in_body n = true).
  { intros n. split; [intros Hn; now apply (inv_placed _ _ I)|].
    intros Hn. apply Hend. now apply Hall. }
  assert (Hlen : length placed = body_count).
  { apply Nat.le_antisymm; [now apply (Inv_placed_bound placed w)|].
    unfold body_count. apply submseteq_length. apply NoDup_submseteq.
    - apply NoDup_filter. exact lpt_NoDup.
    - intros n Hn. apply list_elem_of_filter in Hn. apply Hiff. apply Hn. }
  split; [|split; [exact Hlen|exact Hiff]].
  rewrite (inv_body _ _ I). destruct placed as [|b placed'] eqn:E.
  - exfalso. assert (Hcl : cl ∈ @nil Node) by (apply Hiff; exact cl_in_body).
    now apply elem_of_nil in Hcl.
  - rewrite Hlen, Nat.sub_diag. reflexivity.
Qed.

Lemma walk_sound (J : list Node -> Walk -> Prop) :
  (forall placed w w', J placed w -> walk_step idx w = Next w' ->
     exists placed', J placed' w') ->
  forall fuel placed w w', J placed w -> walk fuel idx w = Some w' ->
  exists placed', J placed' w' /\ stack w' = [].
Proof.
  intros Hstep fuel. induction fuel as [|fuel IH]; intros placed w w' Hw H; [discriminate|].
  simpl in H. destruct (walk_step idx w) as [|w1|] eqn:Es; [| |discriminate].
  - injection H as <-. exists placed. split; [exact Hw|]. now apply walk_step_done.
  - destruct (Hstep _ _ _ Hw Es) as [placed1 H1]. now apply (IH placed1 w1 w').
Qed.

Lemma Inv_step placed w w' :
  Inv placed w -> walk_step idx w = Next w' -> exists placed', Inv placed' w'.
Proof.
  intros I H. destruct (walk_step_inv placed w w' I H) as (placed' & I' & _). eauto.
Qed.

Lemma final_map_some l : forall j m body m',
  final_map l j m = Some (body, m') -> l = map Some body.
Proof.
  induction l as [|[n|] l IH]; intros j m body m' H; simpl in H.
  - now injection H as <- <-.
  - destruct (final_map l (S j) (set_body_idx m n j)) as [[ns m1]|] eqn:E; [|discriminate].
    injection H as <- <-. simpl. f_equal. eapply IH, E.
  - discriminate.
Qed.

(** The body and the map that the second pass makes of the end of a
    walk. *)
Lemma final_body placed w body idx' :
  Inv placed w -> stack w = [] ->
  final_map (_body w) 0 idx = Some (body, idx') ->
  body = placed /\ NoDup body /\ (forall n, n ∈ body <-> in_body n = true) /\
  (forall j n, body !! j = Some n -> idx' n = j) /\
  (forall n, in_body n = true -> rtc edge cl n) /\
  length body = body_count.
Proof.
  intros I Hs Hf.
  pose proof (Inv_end placed w I Hs) as Hend.
  assert (Hcl : cl ∈ placed) by (apply Hend, rtc_refl).
  pose proof (final_map_some _ _ _ _ _ Hf) as Hb.
  rewrite (inv_body _ _ I) in Hb.
  pose proof (Inv_placed_bound placed w I) as Hle.
  destruct placed as [|b placed'] eqn:E; [now apply elem_of_nil in Hcl|]. rewrite <- E in *.
  destruct (body_count - length placed)%nat as [|k] eqn:Ek; [|destruct body; discriminate Hb].
  simpl in Hb.
  assert (Hbp : body = placed).
  { symmetry. revert Hb. clear. generalize placed. induction body as [|x body IH];
      intros [|y l] H; simpl in H; try discriminate; [reflexivity|].
    injection H as -> H. f_equal. now apply IH. }
  assert (Hperm : placed ≡ₚ filter (fun n => in_body n = true) lpt_body).
  { apply submseteq_length_Permutation.
    - apply NoDup_submseteq; [apply (inv_placed_nodup _ _ I)|].
      intros n Hn. apply list_elem_of_filter. destruct (inv_placed _ _ I n Hn) as [Hn' _].
      split; [exact Hn'|now apply in_body_lpt].
    - fold body_count. lia. }
  assert (Hiff : forall n, n ∈ placed <-> in_body n = true).
  { intros n. rewrite Hperm, list_elem_of_filter. split; [tauto|].
    intros Hn. split; [exact Hn|now apply in_body_lpt]. }
  subst body. split; [reflexivity|]. split; [apply (inv_placed_nodup _ _ I)|].
  split; [exact Hiff|]. split.
  - destruct (final_map_spec placed 0 idx (inv_placed_nodup _ _ I)) as (m' & Hm & Hpos & _).
    rewrite (inv_body _ _ I) in Hf. rewrite E in Hf at 1. rewrite Ek in Hf. simpl in Hf.
    rewrite Hm in Hf. injection Hf as <-. intros j n Hj. now rewrite (Hpos j n Hj).
  - split; [|lia]. intros n Hn. apply Hend. now apply Hiff.
Qed.

(** *** Reverse post-order *)

(** Without a cycle of arcs the body is in reverse post-order: a node is
    placed after the nodes its arcs lead to, and a visited node of the
    stack that has no position yet reaches the nodes above its topmost
    occurrence. *)
Hypothesis acyclic : forall n, ~ tc edge n n.

Record Rpo (placed : list Node) (w : Walk) : Prop := {
  rpo_order : forall i b u, placed !! i = Some b -> edge b u ->
              exists j, (i < j)%nat /\ placed !! j = Some u;
  rpo_anc : forall i j g m, stack w !! i = Some m -> stack w !! j = Some g ->
            (i < j)%nat -> (forall k, (k < j)%nat -> stack w !! k <> Some g) ->
            idx g ∈ visited w -> g ∉ placed -> tc edge g m
}.

Lemma first_index (l : list Node) x :
  x ∈ l -> exists j, l !! j = Some x /\ forall k, (k < j)%nat -> l !! k <> Some x.
Proof.
  induction l as [|a l IH]; intros H; [now apply elem_of_nil in H|].
  destruct (decide (a = x)) as [->|Hne].
  - exists 0%nat. split; [reflexivity|]. intros k Hk. lia.
  - apply elem_of_cons in H. destruct H as [->|H]; [contradiction|].
    destruct (IH H) as (j & Hj & Hfirst). exists (S j). split; [exact Hj|].
    intros [|k] Hk; simpl; [congruence|]. apply Hfirst. lia.
Qed.

Lemma placed_same placed placed' w w' :
  Inv placed w -> Inv placed' w' -> post_visited w' = post_visited w ->
  (placed' = placed \/ exists n, placed' = n :: placed /\ (n ∉ placed) /\
     in_body n = true /\ (forall u, edge n u -> idx u ∈ visited w)) ->
  placed' = placed.
Proof.
  intros I I' E [H|(n & H & _)]; [exact H|]. exfalso.
  apply (f_equal (@length nat)) in E.
  rewrite (inv_post _ _ I), (inv_post _ _ I'), H, !length_map in E. simpl in E. lia.
Qed.

Lemma placed_new placed placed' w w' n :
  Inv placed w -> Inv placed' w' -> in_body n = true ->
  post_visited w' = idx n :: post_visited w ->
  (placed' = placed \/ exists n, placed' = n :: placed /\ (n ∉ placed) /\
     in_body n = true /\ (forall u, edge n u -> idx u ∈ visited w)) ->
  placed' = n :: placed /\ (n ∉ placed) /\ (forall u, edge n u -> idx u ∈ visited w).
Proof.
  intros I I' Hn E [H|(n' & H & Hnp & Hb & Hc)].
  - exfalso. apply (f_equal (@length nat)) in E.
    rewrite (inv_post _ _ I), (inv_post _ _ I'), H in E. simpl in E.
    rewrite !length_map in E. lia.
  - rewrite (inv_post _ _ I), (inv_post _ _ I'), H in E. simpl in E.
    injection E as E. apply idx_inj in E; auto. subst n'. auto.
Qed.

Lemma walk_step_rpo placed w w' :
  Inv placed w /\ Rpo placed w -> walk_step idx w = Next w' ->
  exists placed', Inv placed' w' /\ Rpo placed' w'.
Proof.
  intros [I R] Hstep.
  destruct (walk_step_inv placed w w' I Hstep) as (placed' & I' & Hcase).
  exists placed'. split; [exact I'|].
  revert Hstep. unfold walk_step.
  destruct (stack w) as [|n rest] eqn:Es; [discriminate|].
  destruct (inv_stack _ _ I n) as [Hb Hreach]; [rewrite Es; left|].
  destruct (negb (bool_decide (idx n ∈ visited w))) eqn:Ev.
  { (* forward arc *)
    apply negb_true_iff, bool_decide_eq_false in Ev.
    intros [= E]. subst w'.
    assert (placed' = placed) by (eapply placed_same; eauto). subst placed'.
    destruct R as [Ro Ra]. rewrite Es in Ra. constructor; [exact Ro|]. simpl.
    intros i j g m Hi Hj Hij Hfirst Hv Hp.
    apply elem_of_cons in Hv. destruct Hv as [E|Hv]; [|now apply (Ra i j g m)].
    assert (Hbg : in_body g = true).
    { apply (inv_stack _ _ I g). rewrite Es. apply list_elem_of_lookup. eauto. }
    apply idx_inj in E; auto. subst g.
    exfalso. apply (Hfirst 0%nat); [lia|reflexivity]. }
  apply negb_false_iff, bool_decide_eq_true in Ev.
  destruct (negb (bool_decide (idx n ∈ post_visited w))) eqn:Ep.
  - apply negb_true_iff, bool_decide_eq_false in Ep.
    assert (Hn : n ∉ placed) by (rewrite <- (post_visited_placed placed w n I Hb); exact Ep).
    destruct (pushed idx w n) as [|u uses] eqn:Eu.
    + (* post visit *)
      destruct (rpo_idx w <? 0); [discriminate|].
      intros [= E]. subst w'.
      destruct (placed_new placed placed' w _ n I I' Hb eq_refl Hcase) as (-> & _ & Hclosed).
      destruct R as [Ro Ra]. rewrite Es in Ra. constructor; simpl.
      * intros [|i] b v Hi He; simpl in Hi.
        -- injection Hi as <-.
           assert (Hv : v ∈ placed).
           { destruct (decide (v ∈ placed)) as [?|Hvp]; [assumption|]. exfalso.
             assert (Hbv : in_body v = true) by apply He.
             pose proof (inv_gray _ _ I v Hbv (Hclosed v He) Hvp) as Hst.
             rewrite Es in Hst. apply first_index in Hst.
             destruct Hst as (j & Hj & Hfirst). destruct j as [|j].
             - injection Hj as ->. apply (acyclic v). now apply tc_once.
             - apply (acyclic v). eapply tc_r; [|exact He].
               apply (Ra 0%nat (S j) v n); auto. lia. }
           apply list_elem_of_lookup in Hv. destruct Hv as [j Hj].
           exists (S j). split; [lia|exact Hj].
        -- destruct (Ro i b v Hi He) as (j & Hij & Hj). exists (S j). split; [lia|exact Hj].
      * intros i j g m Hi Hj Hij Hfirst Hv Hp.
        apply not_elem_of_cons in Hp. destruct Hp as [Hne Hp].
        apply (Ra (S i) (S j) g m); auto; [lia|].
        intros [|k] Hk; simpl; [congruence|]. apply Hfirst. lia.
    + (* push the uses *)
      intros [= E]. subst w'.
      assert (placed' = placed) by (eapply placed_same; eauto). subst placed'.
      destruct R as [Ro Ra]. rewrite Es in Ra. constructor; [exact Ro|].
      cbn [stack visited].
      change (rev uses ++ [u]) with (rev (u :: uses)). rewrite <- Eu.
      set (P := rev (pushed idx w n)).
      assert (HP : forall m, m ∈ P -> edge n m /\ idx m ∉ visited w).
      { intros m Hm. apply (proj1 (elem_of_rev _ _)) in Hm. apply pushed_spec in Hm.
        destruct Hm as (H1 & H2 & H3 & H4). split; [|exact H3].
        repeat split; auto. intros ->. apply H3. apply (inv_cl _ _ I). }
      intros i j g m Hi Hj Hij Hfirst Hv Hp.
      destruct (Nat.lt_ge_cases j (length P)) as [Hlt|Hge].
      { exfalso. rewrite lookup_app_l in Hj by exact Hlt.
        destruct (HP g) as [_ Hnv]; [apply list_elem_of_lookup; eauto|]. contradiction. }
      rewrite lookup_app_r in Hj by exact Hge.
      assert (Hfirst' : forall k, (k < j - length P)%nat -> (n :: rest) !! k <> Some g).
      { intros k Hk Hc. apply (Hfirst (length P + k)%nat); [lia|].
        rewrite lookup_app_r by lia. now replace (length P + k - length P)%nat with k by lia. }
      destruct (Nat.lt_ge_cases i (length P)) as [Hilt|Hige].
      * rewrite lookup_app_l in Hi by exact Hilt.
        destruct (HP m) as [He _]; [apply list_elem_of_lookup; eauto|].
        destruct (j - length P)%nat as [|j'] eqn:Ej.
        -- injection Hj as <-. now apply tc_once.
        -- eapply tc_r; [|exact He]. apply (Ra 0%nat (S j') g n); auto. lia.
      * rewrite lookup_app_r in Hi by exact Hige.
        apply (Ra (i - length P)%nat (j - length P)%nat g m); auto. lia.
  - (* Remove post-visited node from stack *)
    apply negb_false_iff, bool_decide_eq_true in Ep.
    apply (post_visited_placed placed w n I Hb) in Ep.
    intros [= E]. subst w'.
    assert (placed' = placed) by (eapply placed_same; eauto). subst placed'.
    destruct R as [Ro Ra]. rewrite Es in Ra. constructor; [exact Ro|]. simpl.
    intros i j g m Hi Hj Hij Hfirst Hv Hp.
    apply (Ra (S i) (S j) g m); auto; [lia|].
    intros [|k] Hk; simpl; [|apply Hfirst; lia].
    intros [= ->]. contradiction.
Qed.

Lemma Rpo_init : Rpo [] (mkWalk [cl] [idx cl] [] [] (Z.of_nat body_count - 1)).
Proof.
  constructor; simpl.
  - intros i b u Hi. discriminate Hi.
  - intros i [|j] g m Hi Hj Hij; [lia|discriminate Hj].
Qed.

(** The order of the body at the end of the walk: every arc goes forward,
    and the loop head is first. *)
Lemma rpo_final placed w body idx' :
  Inv placed w -> Rpo placed w -> stack w = [] ->
  final_map (_body w) 0 idx = Some (body, idx') ->
  (forall n u, in_body n = true -> edge n u -> (idx' n < idx' u)%nat) /\
  body !! 0%nat = Some cl.
Proof.
  intros I R Hs Hf.
  destruct (final_body placed w body idx' I Hs Hf) as (-> & Hnd & Hiff & Hpos & Hreach & _).
  assert (Hedge : forall n u, in_body n = true -> edge n u -> (idx' n < idx' u)%nat).
  { intros n u Hn He. apply Hiff, list_elem_of_lookup in Hn. destruct Hn as [i Hi].
    destruct (rpo_order _ _ R i n u Hi He) as (j & Hij & Hj).
    now rewrite (Hpos i n Hi), (Hpos j u Hj). }
  split; [exact Hedge|].
  assert (Htc : forall n u, tc edge n u -> in_body n = true -> (idx' n < idx' u)%nat).
  { intros n u H. induction H as [n u He|n m u He _ IH]; intros Hn; [auto|].
    etransitivity; [apply (Hedge n m Hn He)|]. apply IH. apply He. }
  destruct placed as [|b placed'] eqn:E.
  - exfalso. assert (H : cl ∈ @nil Node) by (apply Hiff; exact cl_in_body).
    now apply elem_of_nil in H.
  - simpl. f_equal. destruct (decide (b = cl)) as [?|Hne]; [assumption|]. exfalso.
    assert (Hb : in_body b = true) by (apply Hiff; left).
    pose proof (Hreach b Hb) as Hr. apply rtc_tc in Hr. destruct Hr as [?|Hr]; [congruence|].
    pose proof (Htc cl b Hr cl_in_body) as Hlt.
    rewrite (Hpos 0%nat b eq_refl) in Hlt. lia.
Qed.

End Walked.

(** *** The whole of [construct] *)

Lemma construct_walk fuel body body_idx :
  construct fuel = Some (Success body body_idx) ->
  exists idx bc w,
    first_pass lpt_body 0 (fun _ => 0%nat) 0 = (false, idx, bc) /\
    walk fuel idx (mkWalk [cl] [idx cl] [] [] (Z.of_nat bc - 1)) = Some w /\
    final_map (_body w) 0 idx = Some (body, body_idx).
Proof.
  unfold construct.
  destruct (first_pass lpt_body 0 (fun _ => 0%nat) 0) as [[bailout idx] bc].
  destruct bailout; [discriminate|].
  destruct (walk fuel idx _) as [w|] eqn:Ew; [|discriminate].
  destruct (final_map (_body w) 0 idx) as [[b m]|] eqn:Ef; [|discriminate].
  intros [= <- <-]. exists idx, bc, w. auto.
Qed.

Lemma first_pass_idx idx bc :
  NoDup lpt_body ->
  first_pass lpt_body 0 (fun _ => 0%nat) 0 = (false, idx, bc) ->
  bc = body_count /\
  forall i n, lpt_body !! i = Some n -> in_body n = true -> idx n = i.
Proof.
  intros Hnd H. destruct (first_pass_ok _ _ _ _ _ _ Hnd H) as (E & Hpos & _).
  split; [exact E|]. intros i n Hi Hn. now rewrite (Hpos i n Hi Hn).
Qed.

Lemma ranked_acyclic (rank : Node -> nat) :
  (forall n u, edge n u -> (rank n < rank u)%nat) -> forall n, ~ tc edge n n.
Proof.
  intros Hrank.
  assert (H : forall n u, tc edge n u -> (rank n < rank u)%nat).
  { intros n u H. induction H as [n u He|n m u He _ IH]; [auto|].
    etransitivity; [apply (Hrank n m He)|exact IH]. }
  intros n Hn. specialize (H n n Hn). lia.
Qed.

(** X17. Whatever the fuel, a success of [construct] means that every
    in-body node is reached from the loop head along the arcs of the walk;
    the body then lists the in-body nodes, each once, and the final map
    gives every node its position in the body. *)
Theorem construct_sound fuel body body_idx :
  NoDup lpt_body ->
  (forall n, in_body n = true -> n ∈ lpt_body) ->
  in_body cl = true ->
  construct fuel = Some (Success body body_idx) ->
  NoDup body /\
  (forall n, n ∈ body <-> in_body n = true) /\
  (forall j n, body !! j = Some n -> body_idx n = j) /\
  length body = body_count /\
  (forall n, in_body n = true -> rtc edge cl n).
Proof.
  intros Hnd Hlpt Hcl Hc.
  destruct (construct_walk fuel body body_idx Hc) as (idx & bc & w & Hfp & Hw & Hf).
  destruct (first_pass_idx idx bc Hnd Hfp) as [-> Hidx].
  destruct (walk_sound idx (Inv idx) (Inv_step Hlpt idx Hidx) fuel [] _ w
              (Inv_init Hlpt Hcl idx Hidx) Hw) as (placed & I & Hs).
  destruct (final_body Hlpt Hcl idx Hidx placed w body body_idx I Hs Hf)
    as (_ & H1 & H2 & H3 & H4 & H5).
  auto.
Qed.

(** X18. When the loop body has no node that is not allowed, every in-body
    node is reached from the loop head and no node has more than [D]
    outputs, [construct] succeeds within 2 (D + 1) body_count + D + 3
    iterations of the walk, and no position of the body is missing. *)
Theorem construct_succeeds D fuel :
  NoDup lpt_body ->
  (forall n, in_body n = true -> n ∈ lpt_body) ->
  in_body cl = true ->
  (forall n, n ∈ lpt_body -> in_body n = true -> not_allowed n = false) ->
  (forall n, in_body n = true -> rtc edge cl n) ->
  (forall n, in_body n = true -> (length (outs n) <= D)%nat) ->
  (2 * (D + 1) * body_count + D + 2 < fuel)%nat ->
  exists body body_idx,
    construct fuel = Some (Success body body_idx) /\ length body = body_count.
Proof.
  intros Hnd Hlpt Hcl Hok Hreach HD Hfuel. unfold construct.
  pose proof (first_pass_bailout lpt_body 0 (fun _ => 0%nat) 0) as Hb.
  destruct (first_pass lpt_body 0 (fun _ => 0%nat) 0) as [[bailout idx] bc] eqn:Hfp.
  simpl in Hb. destruct bailout.
  { exfalso. destruct (proj1 Hb eq_refl) as (n & Hn & Hin & Hna).
    rewrite (Hok n Hn Hin) in Hna. discriminate. }
  destruct (first_pass_idx idx bc Hnd Hfp) as [-> Hidx].
  destruct (walk_ends Hlpt idx Hidx D HD (Inv idx) (fun _ _ H => H)
              (Inv_step Hlpt idx Hidx) fuel [] _
              (Inv_init Hlpt Hcl idx Hidx))
    as (placed & w & -> & I & Hs).
  { pose proof (measure_init idx D). lia. }
  destruct (Inv_full Hnd Hlpt Hcl idx Hidx placed w I Hs Hreach) as (Hbody & Hlen & _).
  destruct (final_map_spec placed 0 idx (inv_placed_nodup _ _ _ I)) as (m' & Hm & _).
  rewrite Hbody, Hm. exists placed, m'. auto.
Qed.

(** X19. When the arcs of the walk have no cycle, a body that [construct]
    returns is in reverse post-order: the loop head is first, and every
    in-body node comes before the in-body outputs that the walk follows
    from it (to a phi only from the loop head, never to the loop head). *)
Theorem construct_rpo fuel body body_idx :
  NoDup lpt_body ->
  (forall n, in_body n = true -> n ∈ lpt_body) ->
  in_body cl = true ->
  (forall n, ~ tc edge n n) ->
  construct fuel = Some (Success body body_idx) ->
  body !! 0%nat = Some cl /\
  forall n u, in_body n = true -> edge n u -> (body_idx n < body_idx u)%nat.
Proof.
  intros Hnd Hlpt Hcl Hacyc Hc.
  destruct (construct_walk fuel body body_idx Hc) as (idx & bc & w & Hfp & Hw & Hf).
  destruct (first_pass_idx idx bc Hnd Hfp) as [-> Hidx].
  destruct (walk_sound idx
              (fun placed w => Inv idx placed w /\ Rpo idx placed w)
              (walk_step_rpo Hlpt idx Hidx Hacyc) fuel [] _ w
              (conj (Inv_init Hlpt Hcl idx Hidx) (Rpo_init idx)) Hw)
    as (placed & [I R] & Hs).
  destruct (rpo_final Hlpt Hcl idx Hidx placed w body body_idx I R Hs Hf) as [H1 H2].
  auto.
Qed.

End Construct.

(** *** A loop of four nodes *)

(** The loop head 1 with the phi 2 and the exit test 4 as outputs; the phi
    is used by 3, which feeds the phi again, the test and the node 9 after
    the loop; the test leads back to the loop head. *)
Definition ex4_in_body (n : Node) : bool := (1 <=? n)%nat && (n <=? 4)%nat.
Definition ex4_is_Phi (n : Node) : bool := (n =? 2)%nat.
Definition ex4_none (n : Node) : bool := false.
Definition ex4_outs (n : Node) : list Node :=
  match n with
  | 1 => [2; 4]
  | 2 => [3]
  | 3 => [2; 4; 9]
  | 4 => [1]
  | _ => []
  end%nat.
Definition ex4_lpt_body : list Node := [4; 9; 2; 1; 3]%nat.
Definition ex4_cl : Node := 1%nat.

Definition ex4_construct : option Result :=
  construct ex4_in_body ex4_none ex4_none ex4_none ex4_none ex4_is_Phi ex4_outs ex4_lpt_body
    ex4_cl 40.

Definition ex4_final_idx : Node -> nat :=
  match ex4_construct with
  | Some (Success _ body_idx) => body_idx
  | _ => fun _ => 0%nat
  end.

Lemma ex4_construct_eq : ex4_construct = Some (Success [1; 2; 3; 4]%nat ex4_final_idx).
Proof. reflexivity. Qed.

Lemma ex4_lpt_NoDup : NoDup ex4_lpt_body.
Proof.
  unfold ex4_lpt_body.
  repeat (apply NoDup_cons; split;
          [intros H; repeat (apply elem_of_cons in H; destruct H as [H|H];
                             [discriminate H|]); now apply elem_of_nil in H|]).
  apply NoDup_nil_2.
Qed.

Lemma ex4_in_body_cases n :
  ex4_in_body n = true -> n = 1%nat \/ n = 2%nat \/ n = 3%nat \/ n = 4%nat.
Proof.
  unfold ex4_in_body. rewrite andb_true_iff, !Nat.leb_le. lia.
Qed.

Lemma ex4_in_body_lpt n : ex4_in_body n = true -> n ∈ ex4_lpt_body.
Proof.
  intros H. unfold ex4_lpt_body.
  destruct (ex4_in_body_cases n H) as [-> | [-> | [-> | -> ] ] ];
    repeat first [apply list_elem_of_here|apply list_elem_of_further].
Qed.

Lemma ex4_edge_iff n u :
  edge ex4_in_body ex4_is_Phi ex4_outs ex4_cl n u <->
  (n, u) ∈ [(1, 2); (1, 4); (2, 3); (3, 4)]%nat.
Proof.
  unfold edge, ex4_cl. split.
  - intros (Hu & Hb & Hne & Hphi).
    destruct (ex4_in_body_cases u Hb) as [-> | [-> | [-> | -> ] ] ]; [congruence| | |].
    all: do 5 (try destruct n as [|n]); simpl in Hu;
      repeat (apply elem_of_cons in Hu; destruct Hu as [Hu|Hu]; [try discriminate Hu|]);
      try (now apply elem_of_nil in Hu);
      try (destruct Hphi as [Hphi|Hphi]; discriminate Hphi);
      repeat first [apply list_elem_of_here|apply list_elem_of_further].
  - intros H.
    repeat (apply elem_of_cons in H; destruct H as [H|H]; [injection H as -> ->|]);
      [..|now apply elem_of_nil in H];
      (split; [simpl; repeat first [apply list_elem_of_here|apply list_elem_of_further]|]);
      (split; [reflexivity|]); (split; [discriminate|]); auto.
Qed.

Lemma ex4_reach n :
  ex4_in_body n = true -> rtc (edge ex4_in_body ex4_is_Phi ex4_outs ex4_cl) ex4_cl n.
Proof.
  intros H.
  assert (E12 : edge ex4_in_body ex4_is_Phi ex4_outs ex4_cl 1%nat 2%nat)
    by (apply ex4_edge_iff; repeat first [apply list_elem_of_here|apply list_elem_of_further]).
  assert (E14 : edge ex4_in_body ex4_is_Phi ex4_outs ex4_cl 1%nat 4%nat)
    by (apply ex4_edge_iff; repeat first [apply list_elem_of_here|apply list_elem_of_further]).
  assert (E23 : edge ex4_in_body ex4_is_Phi ex4_outs ex4_cl 2%nat 3%nat)
    by (apply ex4_edge_iff; repeat first [apply list_elem_of_here|apply list_elem_of_further]).
  destruct (ex4_in_body_cases n H) as [-> | [-> | [-> | -> ] ] ]; unfold ex4_cl.
  - apply rtc_refl.
  - now apply rtc_once.
  - eapply rtc_l; [exact E12|]. now apply rtc_once.
  - now apply rtc_once.
Qed.

Lemma ex4_acyclic n : ~ tc (edge ex4_in_body ex4_is_Phi ex4_outs ex4_cl) n n.
Proof.
  apply (ranked_acyclic ex4_in_body ex4_is_Phi ex4_outs ex4_cl (fun n => n)).
  intros a b H. apply ex4_edge_iff in H.
  repeat (apply elem_of_cons in H; destruct H as [H|H]; [injection H as -> ->|]);
    [..|now apply elem_of_nil in H]; lia.
Qed.

Lemma ex4_outs_bound n : ex4_in_body n = true -> (length (ex4_outs n) <= 3)%nat.
Proof.
  intros H. destruct (ex4_in_body_cases n H) as [-> | [-> | [-> | -> ] ] ]; simpl; lia.
Qed.

Lemma construct_sound_witness :
  NoDup [1; 2; 3; 4]%nat /\
  (forall n, n ∈ [1; 2; 3; 4]%nat <-> ex4_in_body n = true) /\
  (forall j n, [1; 2; 3; 4]%nat !! j = Some n -> ex4_final_idx n = j) /\
  length [1; 2; 3; 4]%nat = body_count ex4_in_body ex4_lpt_body /\
  (forall n, ex4_in_body n = true ->
     rtc (edge ex4_in_body ex4_is_Phi ex4_outs ex4_cl) ex4_cl n).
Proof.
  apply (construct_sound ex4_in_body ex4_none ex4_none ex4_none ex4_none ex4_is_Phi ex4_outs
           ex4_lpt_body ex4_cl 40 [1; 2; 3; 4]%nat ex4_final_idx).
  - exact ex4_lpt_NoDup.
  - exact ex4_in_body_lpt.
  - reflexivity.
  - exact ex4_construct_eq.
Defined.

Lemma construct_succeeds_witness :
  exists body body_idx,
    construct ex4_in_body ex4_none ex4_none ex4_none ex4_none ex4_is_Phi ex4_outs ex4_lpt_body
      ex4_cl 40 = Some (Success body body_idx) /\
    length body = body_count ex4_in_body ex4_lpt_body.
Proof.
  apply (construct_succeeds ex4_in_body ex4_none ex4_none ex4_none ex4_none ex4_is_Phi ex4_outs
           ex4_lpt_body ex4_cl 3 40).
  - exact ex4_lpt_NoDup.
  - exact ex4_in_body_lpt.
  - reflexivity.
  - reflexivity.
  - exact ex4_reach.
  - exact ex4_outs_bound.
  - vm_compute. lia.
Defined.

Lemma construct_rpo_witness :
  [1; 2; 3; 4]%nat !! 0%nat = Some ex4_cl /\
  forall n u, ex4_in_body n = true -> edge ex4_in_body ex4_is_Phi ex4_outs ex4_cl n u ->
    (ex4_final_idx n < ex4_final_idx u)%nat.
Proof.
  apply (construct_rpo ex4_in_body ex4_none ex4_none ex4_none ex4_none ex4_is_Phi ex4_outs
           ex4_lpt_body ex4_cl 40 [1; 2; 3; 4]%nat ex4_final_idx).
  - exact ex4_lpt_NoDup.
  - exact ex4_in_body_lpt.
  - reflexivity.
  - exact ex4_acyclic.
  - exact ex4_construct_eq.
Defined.

End LoopBody.

(** ** VLoopReductions::mark_reductions *)

Module Reductions.
Local Open Scope Z_scope.

(** An IR node is known by its index [_idx]. *)
Definition Node : Type := DepGraph.Node.

Section Reductions.

(** What the search for reductions asks of the IR: the opcode and the
    basic type of a node, [ReductionNode::opcode], phis, membership in the
    body, [has_swapped_edges], the outputs [fast_outs] and the inputs
    [in(i)] of a node ([req()] is their number), and the search
    [find_in_path] for a path along one input index, which yields the end
    of the path, null when there is none, and the number of its nodes. *)
Variable BasicType : Type.
Variable Opcode : Node -> Z.
Variable basic_type : Node -> BasicType.
Variable ReductionNode_opcode : Z -> BasicType -> Z.
Variable is_Phi in_body has_swapped_edges : Node -> bool.
Variable outs : Node -> list Node.
Variable inputs : Node -> list (option Node).
Variable find_in_path :
  Node -> nat -> Z -> (Node -> bool) -> (Node -> bool) -> option Node * Z.
Variable lpt_body : list Node.
Variable cl iv : Node.

Definition is_reduction_operator (n : Node) : bool :=
  let opc := Opcode n in
  negb (opc =? ReductionNode_opcode opc (basic_type n)).

Definition original_input (n : Node) (i : nat) : option Node :=
  if has_swapped_edges n then
    if (i =? 1)%nat then DepGraph.in_ inputs n 2
    else if (i =? 2)%nat then DepGraph.in_ inputs n 1
    else DepGraph.in_ inputs n i
  else DepGraph.in_ inputs n i.

(** The search of [mark_reductions] for a path in the basic block from
    [first] to [phi] following one edge index. *)
Definition path (first phi : Node) (input : nat) : option Node * Z :=
  find_in_path first input (Z.of_nat (length lpt_body))
    (fun n => (Opcode n =? Opcode first) && in_body n)
    (fun n => Nat.eqb n phi).

(** The loop over the edge indices that are left: the first index with a
    path, and the number of nodes of the path. *)
Fixpoint find_reduction_input (first phi : Node) (indices : list nat)
  : option (nat * Z) :=
  match indices with
  | [] => None
  | input :: indices =>
      match (path first phi input).1 with
      | Some _ => Some (input, (path first phi input).2)
      | None => find_reduction_input first phi indices
      end
  end.

(** Whether an output in the body is another node than [succ]. *)
Fixpoint used_besides (succ : Node) (us : list Node) : bool :=
  match us with
  | [] => false
  | u :: us =>
      if negb (in_body u) then used_besides succ us
      else if Nat.eqb u succ then used_besides succ us
      else true
  end.

(** The test that the reduction nodes have no other users in the loop:
    [used_in_loop] after at most [k] more nodes; a null [current] is not
    defined. *)
Fixpoint check_users (k : nat) (current : option Node) (succ : Node)
    (reduction_input : nat) : option bool :=
  match k with
  | O => Some false
  | S k =>
      match current with
      | None => None
      | Some current =>
          if used_besides succ (outs current) then Some true
          else check_users k (original_input current reduction_input) current
                 reduction_input
      end
  end.

(** Mark all nodes in the found path as reductions. *)
Fixpoint mark (k : nat) (current : option Node) (reduction_input : nat)
    (_loop_reductions : list Node) : option (list Node) :=
  match k with
  | O => Some _loop_reductions
  | S k =>
      match current with
      | None => None
      | Some current =>
          mark k (original_input current reduction_input) reduction_input
            (current :: _loop_reductions)
      end
  end.

(** The body of the loop over the outputs of [cl]. *)
Definition mark_phi (phi : Node) (_loop_reductions : list Node)
  : option (list Node) :=
  if negb (is_Phi phi) then Some _loop_reductions
  else if (length (outs phi) =? 0)%nat then Some _loop_reductions
  else if Nat.eqb phi iv then Some _loop_reductions
  else
    (* The phi's loop-back is considered the first node in the reduction cycle. *)
    match DepGraph.in_ inputs phi DepGraph.LoopNode_LoopBackControl with
    | None => Some _loop_reductions
    | Some first =>
        if negb (is_reduction_operator first) then Some _loop_reductions
        else
          match find_reduction_input first phi
                  (seq 1 (length (inputs first) - 1)) with
          | None => Some _loop_reductions
          | Some (reduction_input, path_nodes) =>
              match check_users (Z.to_nat path_nodes) (Some first) phi
                      reduction_input with
              | None => None
              | Some true => Some _loop_reductions
              | Some false =>
                  mark (Z.to_nat path_nodes) (Some first) reduction_input
                    _loop_reductions
              end
          end
    end.

Fixpoint mark_phis (phis : list Node) (_loop_reductions : list Node)
  : option (list Node) :=
  match phis with
  | [] => Some _loop_reductions
  | phi :: phis =>
      match mark_phi phi _loop_reductions with
      | Some _loop_reductions => mark_phis phis _loop_reductions
      | None => None
      end
  end.

Definition mark_reductions : option (list Node) := mark_phis (outs cl) [].

(** *** The reduction cycles *)

(** The node that [j] steps along the edge index [input], modulo swapped
    edges, lead to. *)
Fixpoint chain_from (current : option Node) (input : nat) (j : nat) : option Node :=
  match j with
  | O => current
  | S j =>
      match current with
      | None => None
      | Some c => chain_from (original_input c input) input j
      end
  end.

Definition chain (first : Node) (input : nat) (j : nat) : option Node :=
  chain_from (Some first) input j.

(** The successor in the cycle of the node that [j] steps lead to. *)
Definition succ_from (succ : Node) (current : option Node) (input : nat) (j : nat)
  : option Node :=
  match j with
  | O => Some succ
  | S j => chain_from current input j
  end.

(** A reduction cycle through [phi]: [first] is its loop-back input and a
    reduction operator, [input] is the first edge index with a path from
    [first] to [phi], of [path_nodes] nodes, and no node of the path has
    another user in the body than its successor in the cycle. *)
Definition reduction_cycle (phi first : Node) (input : nat) (path_nodes : Z) : Prop :=
  is_Phi phi = true /\ outs phi <> [] /\ phi <> iv /\
  DepGraph.in_ inputs phi DepGraph.LoopNode_LoopBackControl = Some first /\
  is_reduction_operator first = true /\
  (1 <= input < length (inputs first))%nat /\
  (exists e, path first phi input = (Some e, path_nodes)) /\
  (forall i, (1 <= i < input)%nat -> (path first phi i).1 = None) /\
  (forall j c, Z.of_nat j < path_nodes -> chain first input j = Some c ->
     forall u, u ∈ outs c -> in_body u = true ->
     Some u = succ_from phi (Some first) input j).

Lemma find_reduction_input_spec first phi k : forall a input pn,
  find_reduction_input first phi (seq a k) = Some (input, pn) <->
  (a <= input < a + k)%nat /\
  (exists e, path first phi input = (Some e, pn)) /\
  (forall i, (a <= i < input)%nat -> (path first phi i).1 = None).
Proof.
  induction k as [|k IH]; intros a input pn; simpl.
  - split; [discriminate|]. intros [H _]. lia.
  - destruct (path first phi a) as [[e|] n] eqn:E; simpl.
    + split.
      * intros [= <- <-]. split; [lia|]. split; [eauto|]. intros i Hi. lia.
      * intros (Hr & (e' & He) & Hfirst).
        destruct (decide (input = a)) as [->|Hne].
        -- rewrite E in He. now injection He as _ <-.
        -- specialize (Hfirst a ltac:(lia)). rewrite E in Hfirst. discriminate.
    + rewrite IH. split.
      * intros (Hr & He & Hfirst). split; [lia|]. split; [exact He|].
        intros i Hi. destruct (decide (i = a)) as [->|Hne]; [now rewrite E|].
        apply Hfirst. lia.
      * intros (Hr & (e' & He) & Hfirst).
        assert (input <> a) by (intros ->; rewrite E in He; discriminate).
        split; [lia|]. split; [eauto|]. intros i Hi. apply Hfirst. lia.
Qed.

Lemma find_reduction_input_none first phi k : forall a,
  find_reduction_input first phi (seq a k) = None ->
  forall i, (a <= i < a + k)%nat -> (path first phi i).1 = None.
Proof.
  induction k as [|k IH]; intros a H i Hi; simpl in *; [lia|].
  destruct (path first phi a) as [[e|] n] eqn:E; simpl in H; [discriminate|].
  destruct (decide (i = a)) as [->|Hne]; [now rewrite E|].
  apply (IH (S a) H). lia.
Qed.

Lemma used_besides_spec succ us :
  used_besides succ us = false <-> forall u, u ∈ us -> in_body u = true -> u = succ.
Proof.
  induction us as [|u us IH]; simpl.
  - split; [|reflexivity]. intros _ u Hu. now apply elem_of_nil in Hu.
  - destruct (in_body u) eqn:Hb; simpl.
    + destruct (Nat.eqb_spec u succ) as [->|Hne].
      * rewrite IH. split.
        -- intros H v Hv. apply elem_of_cons in Hv. destruct Hv as [->|Hv]; auto.
        -- intros H v Hv. apply H. now right.
      * split; [discriminate|]. intros H. exfalso. apply Hne, H; [left|exact Hb].
    + rewrite IH. split.
      * intros H v Hv Hbv. apply elem_of_cons in Hv. destruct Hv as [->|Hv]; [congruence|auto].
      * intros H v Hv. apply H. now right.
Qed.

Lemma check_users_spec input k : forall current succ,
  (forall j, (j < k)%nat -> chain_from current input j <> None) ->
  exists b, check_users k current succ input = Some b /\
    (b = false <->
     forall j c, (j < k)%nat -> chain_from current input j = Some c ->
       forall u, u ∈ outs c -> in_body u = true ->
       Some u = succ_from succ current input j).
Proof.
  induction k as [|k IH]; intros current succ Hdef; simpl.
  - exists false. split; [reflexivity|]. split; [|reflexivity]. intros _ j c Hj. lia.
  - destruct current as [c0|]; [|now destruct (Hdef 0%nat ltac:(lia))].
    destruct (used_besides succ (outs c0)) eqn:Eu.
    + exists true. split; [reflexivity|]. split; [discriminate|]. intros H. exfalso.
      assert (Hf : used_besides succ (outs c0) = false); [|congruence].
      apply used_besides_spec. intros u Hu Hb.
      specialize (H 0%nat c0 ltac:(lia) eq_refl u Hu Hb). simpl in H. congruence.
    + destruct (IH (original_input c0 input) c0) as (b & -> & Hb).
      { intros j Hj. apply (Hdef (S j)). lia. }
      exists b. split; [reflexivity|]. rewrite Hb. split.
      * intros H [|j] c Hj Hc u Hu Hbu.
        -- simpl in Hc. injection Hc as <-. simpl. f_equal.
           now apply (proj1 (used_besides_spec succ (outs c0)) Eu).
        -- simpl in Hc. rewrite (H j c ltac:(lia) Hc u Hu Hbu). now destruct j.
      * intros H j c Hj Hc u Hu Hbu.
        rewrite (H (S j) c ltac:(lia) Hc u Hu Hbu). now destruct j.
Qed.

Lemma mark_spec input k : forall current s,
  (forall j, (j < k)%nat -> chain_from current input j <> None) ->
  exists s', mark k current input s = Some s' /\
    forall n, n ∈ s' <->
      n ∈ s \/ exists j, (j < k)%nat /\ chain_from current input j = Some n.
Proof.
  induction k as [|k IH]; intros current s Hdef; simpl.
  - exists s. split; [reflexivity|]. intros n. split; [auto|].
    intros [H|(j & Hj & _)]; [exact H|lia].
  - destruct current as [c0|]; [|now destruct (Hdef 0%nat ltac:(lia))].
    destruct (IH (original_input c0 input) (c0 :: s)) as (s' & -> & Hs').
    { intros j Hj. apply (Hdef (S j)). lia. }
    exists s'. split; [reflexivity|]. intros n. rewrite Hs', elem_of_cons. split.
    + intros [[->|H]|(j & Hj & Hc)]; [right; exists 0%nat; split; [lia|reflexivity]|auto|].
      right. exists (S j). split; [lia|exact Hc].
    + intros [H|([|j] & Hj & Hc)]; [auto| |].
      * simpl in Hc. injection Hc as ->. auto.
      * right. exists j. split; [lia|exact Hc].
Qed.

Section Specified.

(** Every node of a path that [find_in_path] reports is there. *)
Hypothesis path_defined : forall first phi input e path_nodes j,
  path first phi input = (Some e, path_nodes) -> Z.of_nat j < path_nodes ->
  chain first input j <> None.

Lemma mark_phi_spec phi s :
  exists s', mark_phi phi s = Some s' /\
    forall n, n ∈ s' <->
      n ∈ s \/ exists first input path_nodes j,
        reduction_cycle phi first input path_nodes /\
        Z.of_nat j < path_nodes /\ chain first input j = Some n.
Proof.
  assert (Hsame : exists s', Some s = Some s' /\ forall n, n ∈ s' <-> n ∈ s \/ False).
  { exists s. split; [reflexivity|]. intros n. tauto. }
  assert (Hno : ~ (exists first input path_nodes, reduction_cycle phi first input path_nodes) ->
            exists s', Some s = Some s' /\
              forall n, n ∈ s' <->
                n ∈ s \/ exists first input path_nodes j,
                  reduction_cycle phi first input path_nodes /\
                  Z.of_nat j < path_nodes /\ chain first input j = Some n).
  { intros Hn. exists s. split; [reflexivity|]. intros n. split; [auto|].
    intros [H|(first & input & pn & j & Hc & _)]; [exact H|]. exfalso. eauto. }
  clear Hsame. unfold mark_phi.
  destruct (is_Phi phi) eqn:Ephi; simpl.
  2:{ apply Hno. intros (first & input & pn & Hc). destruct Hc as (H & _). congruence. }
  destruct (Nat.eqb_spec (length (outs phi)) 0) as [Eo|Eo].
  { apply Hno. intros (first & input & pn & Hc). destruct Hc as (_ & H & _).
    apply H. now apply length_zero_iff_nil. }
  destruct (Nat.eqb_spec phi iv) as [Eiv|Eiv].
  { apply Hno. intros (first & input & pn & Hc). destruct Hc as (_ & _ & H & _).
    contradiction. }
  destruct (DepGraph.in_ inputs phi DepGraph.LoopNode_LoopBackControl) as [first|] eqn:Ef.
  2:{ apply Hno. intros (first & input & pn & Hc). destruct Hc as (_ & _ & _ & H & _).
      rewrite Ef in H. discriminate. }
  destruct (is_reduction_operator first) eqn:Er; simpl.
  2:{ apply Hno. intros (first' & input & pn & Hc).
      destruct Hc as (_ & _ & _ & H & H' & _). rewrite Ef in H. injection H as <-.
      congruence. }
  destruct (find_reduction_input first phi (seq 1 (length (inputs first) - 1)))
    as [[input pn]|] eqn:Es.
  2:{ apply Hno. intros (first' & input & pn & Hc).
      destruct Hc as (_ & _ & _ & H & _ & Hr & (e & He) & _). rewrite Ef in H.
      injection H as <-.
      pose proof (find_reduction_input_none first phi _ 1%nat Es input ltac:(lia)) as Hn.
      rewrite He in Hn. discriminate. }
  apply find_reduction_input_spec in Es. destruct Es as (Hr & (e & He) & Hfirst).
  assert (Hdef : forall j, (j < Z.to_nat pn)%nat -> chain_from (Some first) input j <> None).
  { intros j Hj. apply (path_defined first phi input e pn j He). lia. }
  assert (Huniq : forall first' input' pn', reduction_cycle phi first' input' pn' ->
            first' = first /\ input' = input /\ pn' = pn).
  { intros first' input' pn' (_ & _ & _ & H & _ & Hr' & (e' & He') & Hfirst' & _).
    rewrite Ef in H. injection H as <-. split; [reflexivity|].
    assert (input' = input).
    { destruct (Nat.lt_total input' input) as [Hlt|[?|Hlt]]; [|assumption|].
      - specialize (Hfirst input' ltac:(lia)). rewrite He' in Hfirst. discriminate.
      - specialize (Hfirst' input ltac:(lia)). rewrite He in Hfirst'. discriminate. }
    subst input'. split; [reflexivity|]. rewrite He in He'. now injection He' as _ <-. }
  destruct (check_users_spec input (Z.to_nat pn) (Some first) phi Hdef) as (b & -> & Hb).
  destruct b.
  - apply Hno. intros (first' & input' & pn' & Hc).
    destruct (Huniq _ _ _ Hc) as (-> & -> & ->).
    destruct Hc as (_ & _ & _ & _ & _ & _ & _ & _ & Hu).
    assert (true = false); [|discriminate]. apply Hb.
    intros j c Hj Hcj. apply Hu; [lia|exact Hcj].
  - destruct (mark_spec input (Z.to_nat pn) (Some first) s Hdef) as (s' & -> & Hs').
    exists s'. split; [reflexivity|]. intros n. rewrite Hs'. split.
    + intros [H|(j & Hj & Hc)]; [auto|]. right. exists first, input, pn, j.
      split; [|split; [lia|exact Hc]].
      split; [exact Ephi|]. split; [intros E; apply Eo; now rewrite E|].
      split; [exact Eiv|]. split; [exact Ef|]. split; [exact Er|].
      split; [lia|]. split; [eauto|]. split; [exact Hfirst|].
      intros j' c Hj' Hc'. apply (proj1 Hb eq_refl); [lia|exact Hc'].
    + intros [H|(first' & input' & pn' & j & Hc & Hj & Hcj)]; [auto|].
      destruct (Huniq _ _ _ Hc) as (-> & -> & ->).
      right. exists j. split; [lia|exact Hcj].
Qed.

Lemma mark_phis_spec phis : forall s,
  exists s', mark_phis phis s = Some s' /\
    forall n, n ∈ s' <->
      n ∈ s \/ exists phi first input path_nodes j,
        phi ∈ phis /\ reduction_cycle phi first input path_nodes /\
        Z.of_nat j < path_nodes /\ chain first input j = Some n.
Proof.
  induction phis as [|phi phis IH]; intros s; simpl.
  - exists s. split; [reflexivity|]. intros n. split; [auto|].
    intros [H|(phi & ? & ? & ? & ? & H & _)]; [exact H|]. now apply elem_of_nil in H.
  - destruct (mark_phi_spec phi s) as (s1 & -> & H1).
    destruct (IH s1) as (s' & -> & Hs'). exists s'. split; [reflexivity|].
    intros n. rewrite Hs', H1. split.
    + intros [[H|(first & input & pn & j & H)]|(phi' & first & input & pn & j & Hin & H)].
      * auto.
      * right. exists phi, first, input, pn, j. split; [left|exact H].
      * right. exists phi', first, input, pn, j. split; [now right|exact H].
    + intros [H|(phi' & first & input & pn & j & Hin & H)]; [auto|].
      apply elem_of_cons in Hin. destruct Hin as [->|Hin].
      * left. right. eauto.
      * right. exists phi', first, input, pn, j. auto.
Qed.

(** X20. [mark_reductions] marks exactly the nodes of the reduction cycles
    through the phis of the loop head: for a phi with outputs, other than
    the induction variable, whose loop-back input is a reduction operator,
    the nodes of the path that [find_in_path] reports for the first edge
    index that has one, when none of them has another user in the body
    than its successor in the cycle. *)
Theorem mark_reductions_spec :
  exists marked, mark_reductions = Some marked /\
    forall n, n ∈ marked <->
      exists phi first input path_nodes j,
        phi ∈ outs cl /\ reduction_cycle phi first input path_nodes /\
        Z.of_nat j < path_nodes /\ chain first input j = Some n.
Proof.
  destruct (mark_phis_spec (outs cl) []) as (marked & H & Hm).
  exists marked. split; [exact H|]. intros n. rewrite Hm. split.
  - intros [H0|H0]; [now apply elem_of_nil in H0|exact H0].
  - auto.
Qed.

End Specified.

End Reductions.

(** *** A sum over two unrolled iterations *)

(** The loop head 1 with the induction variable 2, the phi 3 of the sum and
    the exit test 4; the additions 5 and 6 lead from the phi back to it
    along their first input, and the sum is used after the loop by 20. *)
Definition sum_Opcode (n : Node) : Z :=
  match n with
  | 5%nat | 6%nat => 100
  | _ => Z.of_nat n
  end.
Definition sum_ReductionNode_opcode (opc : Z) (bt : unit) : Z :=
  if opc =? 100 then 200 else opc.
Definition sum_is_Phi (n : Node) : bool := (n =? 2)%nat || (n =? 3)%nat.
Definition sum_in_body (n : Node) : bool := (1 <=? n)%nat && (n <=? 6)%nat.
Definition sum_outs (n : Node) : list Node :=
  match n with
  | 1 => [2; 3; 4]
  | 2 => [4]
  | 3 => [5]
  | 5 => [6]
  | 6 => [3; 20]
  | _ => []
  end%nat.
Definition sum_inputs (n : Node) : list (option Node) :=
  match n with
  | 2 => [Some 1; Some 10; Some 7]
  | 3 => [Some 1; Some 11; Some 6]
  | 5 => [None; Some 3; Some 12]
  | 6 => [None; Some 5; Some 13]
  | _ => []
  end%nat.
Definition sum_find_in_path (n1 : Node) (input : nat) (max : Z)
    (pred is_end : Node -> bool) : option Node * Z :=
  if (n1 =? 6)%nat && (input =? 1)%nat && is_end 3%nat then (Some 3%nat, 2)
  else (None, -1).

Lemma sum_path_defined first phi input e path_nodes j :
  path sum_Opcode sum_in_body sum_find_in_path [1; 2; 3; 4; 5; 6]%nat first phi input
    = (Some e, path_nodes) ->
  Z.of_nat j < path_nodes ->
  chain (fun _ => false) sum_inputs first input j <> None.
Proof.
  unfold path, sum_find_in_path.
  cbv beta.
  destruct (Nat.eqb_spec first 6) as [->|?]; cbn [andb]; [|intros H; discriminate H].
  destruct (Nat.eqb_spec input 1) as [->|?]; cbn [andb]; [|intros H; discriminate H].
  destruct (3 =? phi)%nat; [|intros H; discriminate H].
  intros H Hj. injection H as <- <-.
  destruct j as [|[|j]]; [discriminate|discriminate|lia].
Qed.

Lemma mark_reductions_spec_witness :
  exists marked,
    mark_reductions unit sum_Opcode (fun _ => tt) sum_ReductionNode_opcode sum_is_Phi
      sum_in_body (fun _ => false) sum_outs sum_inputs sum_find_in_path
      [1; 2; 3; 4; 5; 6]%nat 1%nat 2%nat = Some marked /\
    forall n, n ∈ marked <->
      exists phi first input path_nodes j,
        phi ∈ sum_outs 1%nat /\
        reduction_cycle unit sum_Opcode (fun _ => tt) sum_ReductionNode_opcode sum_is_Phi
          sum_in_body (fun _ => false) sum_outs sum_inputs sum_find_in_path
          [1; 2; 3; 4; 5; 6]%nat 2%nat phi first input path_nodes /\
        Z.of_nat j < path_nodes /\
        chain (fun _ => false) sum_inputs first input j = Some n.
Proof.
  apply (mark_reductions_spec unit sum_Opcode (fun _ => tt) sum_ReductionNode_opcode
           sum_is_Phi sum_in_body (fun _ => false) sum_outs sum_inputs sum_find_in_path
           [1; 2; 3; 4; 5; 6]%nat 1%nat 2%nat).
  exact sum_path_defined.
Defined.

(** In the example the two additions are marked. *)
Example sum_marked :
  mark_reductions unit sum_Opcode (fun _ => tt) sum_ReductionNode_opcode sum_is_Phi
    sum_in_body (fun _ => false) sum_outs sum_inputs sum_find_in_path
    [1; 2; 3; 4; 5; 6]%nat 1%nat 2%nat = Some [5; 6]%nat.
Proof. reflexivity. Qed.

End Reductions.
